(** * google-geocode-ts: the gated cache layer

    A shallow embedding of [src/cache.ts] (class [Cache]),
    [src/rateLimiter.ts] (class [RateLimiter]) and of the coordinator
    [Geocoder.requestWithCacheAndRateLimit] of [src/geocoder.ts], with the
    properties of the specification stated over them.

    Conventions of the embedding.
    - A JavaScript [number] that holds a count or a time in milliseconds is
      an integer of [Z]; [Date.now()] is an explicit argument [now] of every
      operation that reads the clock.
    - A JavaScript [Map] iterates in insertion order and the cache relies on
      that order for its eviction, so a [Map<string, E>] is an association
      list, oldest insertion first.
    - A method that mutates [this] takes the object and returns the new one.
    - [undefined] as a result is [None]; the type of the cached values
      stands for the values other than [undefined].
    - The [while] loop of [Cache.set] is run with fuel; [None] is a loop
      that has not come to an end. *)

From Stdlib Require Import ZArith List String Bool Lia DecimalString.
From Stdlib Require Import OrdersEx Sorted Permutation.
Import ListNotations.
Local Open Scope Z_scope.

(* ===================================================================== *)
(** ** [Map<string, E>]: an insertion-ordered map                         *)
(* ===================================================================== *)

Module JsMap.
Section WithEntry.
Context {E : Type}.

Definition t : Type := list (string * E).

Definition empty : t := [].

(** [Map.prototype.get]; [None] is [undefined]. *)
Fixpoint get (k : string) (m : t) : option E :=
  match m with
  | [] => None
  | (k', e) :: m' => if String.eqb k k' then Some e else get k m'
  end.

Definition has (k : string) (m : t) : bool :=
  match get k m with Some _ => true | None => false end.

(** The map left by [Map.prototype.delete]. *)
Fixpoint remove (k : string) (m : t) : t :=
  match m with
  | [] => []
  | (k', e) :: m' =>
      if String.eqb k k' then m' else (k', e) :: remove k m'
  end.

(** [Map.prototype.delete]: whether the key was there, and the new map. *)
Definition delete (k : string) (m : t) : bool * t := (has k m, remove k m).

(** [Map.prototype.set]: a key already present keeps its position in the
    iteration order, a new key goes last. *)
Fixpoint set (k : string) (e : E) (m : t) : t :=
  match m with
  | [] => [(k, e)]
  | (k', e') :: m' =>
      if String.eqb k k' then (k, e) :: m' else (k', e') :: set k e m'
  end.

Definition size (m : t) : Z := Z.of_nat (List.length m).

Definition keys (m : t) : list string := map fst m.

(** [m.keys().next().value]; [None] is [undefined], for the empty map. *)
Definition firstKey (m : t) : option string :=
  match m with
  | [] => None
  | (k, _) :: _ => Some k
  end.

(** A [Map] holds a key once. *)
Definition wf (m : t) : Prop := NoDup (keys m).

End WithEntry.
Arguments t : clear implicits.
End JsMap.

(* ===================================================================== *)
(** ** [class Cache<T>] of src/cache.ts                                   *)
(* ===================================================================== *)

Module Cache.

Record CacheOptions : Type := {
  opt_ttl : option Z;
  opt_maxSize : option Z
}.

Record CacheEntry (T : Type) : Type := {
  value : T;
  expiresAt : Z
}.
Arguments value {T} _.
Arguments expiresAt {T} _.

(** The object: the private map and the two read-only settings. *)
Record t (T : Type) : Type := {
  cache : JsMap.t (CacheEntry T);
  ttl : Z;
  maxSize : Z
}.
Arguments cache {T} _.
Arguments ttl {T} _.
Arguments maxSize {T} _.

Section WithValue.
Context {T : Type}.

Definition with_cache (c : t T) (m : JsMap.t (CacheEntry T)) : t T :=
  {| cache := m; ttl := ttl c; maxSize := maxSize c |}.

Definition default (d : Z) (o : option Z) : Z :=
  match o with Some x => x | None => d end.

(** [constructor(options = {})]. *)
Definition make (options : CacheOptions) : t T :=
  {| cache := JsMap.empty;
     ttl := default (60 * 60 * 1000) (opt_ttl options);
     maxSize := default 1000 (opt_maxSize options) |}.

(** [get(key)]: the value, or [None] for [undefined]. *)
Definition get (now : Z) (key : string) (c : t T) : option T * t T :=
  match JsMap.get key (cache c) with
  | None => (None, c)
  | Some entry =>
      if expiresAt entry <? now then
        (None, with_cache c (JsMap.remove key (cache c)))
      else
        (Some (value entry),
         with_cache c (JsMap.set key entry (JsMap.remove key (cache c))))
  end.

(** One turn of the body of the [while] of [set]. *)
Definition evictFirst (m : JsMap.t (CacheEntry T)) : JsMap.t (CacheEntry T) :=
  match JsMap.firstKey m with
  | Some firstKey => JsMap.remove firstKey m
  | None => m
  end.

(** [while (this.cache.size >= this.maxSize) { ... }]. *)
Fixpoint evictLoop (fuel : nat) (maxSize : Z) (m : JsMap.t (CacheEntry T))
  : option (JsMap.t (CacheEntry T)) :=
  match fuel with
  | O => None
  | S fuel' =>
      if maxSize <=? JsMap.size m
      then evictLoop fuel' maxSize (evictFirst m)
      else Some m
  end.

(** The number of turns the loop takes on a map of [n] entries when the
    capacity is 1 or more: the entries beyond [maxSize - 1]. *)
Definition evicted (maxSize : Z) (n : nat) : nat :=
  (n + 1 - Z.to_nat maxSize)%nat.

(** [set(key, value, ttl?)] with the loop given [fuel] turns. *)
Definition set_fuel (fuel : nat) (now : Z) (key : string) (v : T)
    (ttl_arg : option Z) (c : t T) : option (t T) :=
  match evictLoop fuel (maxSize c) (cache c) with
  | None => None
  | Some m =>
      Some (with_cache c
              (JsMap.set key
                 {| value := v; expiresAt := now + default (ttl c) ttl_arg |}
                 m))
  end.

(** [set(key, value, ttl?)]. A loop that ends at all ends within one turn
    per stored entry and a last test (see [evictLoop_complete]), so this
    is [None] exactly when the call does not return. *)
Definition set (now : Z) (key : string) (v : T) (ttl_arg : option Z)
    (c : t T) : option (t T) :=
  set_fuel (S (List.length (cache c))) now key v ttl_arg c.

(** [has(key)]. *)
Definition has (now : Z) (key : string) (c : t T) : bool * t T :=
  let '(r, c') := get now key c in
  (match r with Some _ => true | None => false end, c').

(** [delete(key)]. *)
Definition delete (key : string) (c : t T) : bool * t T :=
  let '(b, m) := JsMap.delete key (cache c) in (b, with_cache c m).

(** [clear()]. *)
Definition clear (c : t T) : t T := with_cache c JsMap.empty.

(** [get size()]. *)
Definition size (c : t T) : Z := JsMap.size (cache c).

(** The body of the [for ... of] of [prune], on the count and the map. *)
Definition pruneStep (now : Z) (acc : Z * JsMap.t (CacheEntry T))
    (ke : string * CacheEntry T) : Z * JsMap.t (CacheEntry T) :=
  if expiresAt (snd ke) <? now
  then (fst acc + 1, JsMap.remove (fst ke) (snd acc))
  else acc.

(** [prune()]: the loop visits the entries in order; deleting the entry
    being visited does not disturb the iteration of a [Map]. *)
Definition prune (now : Z) (c : t T) : Z * t T :=
  let '(pruned, m) := fold_left (pruneStep now) (cache c) (0, cache c) in
  (pruned, with_cache c m).

(** The operations of the public interface, for sequences of calls. *)
Inductive Op : Type :=
| OpGet (now : Z) (key : string)
| OpSet (now : Z) (key : string) (v : T) (ttl_arg : option Z)
| OpHas (now : Z) (key : string)
| OpDelete (key : string)
| OpClear
| OpPrune (now : Z).

Definition step (op : Op) (c : t T) : option (t T) :=
  match op with
  | OpGet now key => Some (snd (get now key c))
  | OpSet now key v ttl_arg => set now key v ttl_arg c
  | OpHas now key => Some (snd (has now key c))
  | OpDelete key => Some (snd (delete key c))
  | OpClear => Some (clear c)
  | OpPrune now => Some (snd (prune now c))
  end.

Fixpoint run (ops : list Op) (c : t T) : option (t T) :=
  match ops with
  | [] => Some c
  | op :: ops' =>
      match step op c with
      | Some c' => run ops' c'
      | None => None
      end
  end.

(** The test of [get] and of [prune] on a stored entry: its expiry has not
    passed at [now]. *)
Definition live (now : Z) (ke : string * CacheEntry T) : bool :=
  negb (expiresAt (snd ke) <? now).

(** [set(key, value)] for each pair of a list in turn, all at [now] and
    with the default TTL. *)
Definition setAll (now : Z) (kvs : list (string * T)) : list Op :=
  map (fun kv => OpSet now (fst kv) (snd kv) None) kvs.

End WithValue.

(** The last [n] elements of a list. *)
Definition lastn {A : Type} (n : nat) (l : list A) : list A :=
  skipn (List.length l - n) l.

End Cache.

(* ===================================================================== *)
(** ** [createCacheKey] of src/cache.ts                                   *)
(* ===================================================================== *)

Module CacheKey.

(** A value of the [params] object: [undefined], [null], or anything
    else. *)
Inductive Param (V : Type) : Type :=
| Undefined
| Null
| Value (v : V).
Arguments Undefined {V}.
Arguments Null {V}.
Arguments Value {V} _.

(** The order of [Array.prototype.sort()] without a comparator on
    strings: by their characters from the first, a prefix before the
    longer string. *)
Definition keyLeb (a b : string) : bool :=
  match String_as_OT.compare a b with
  | Gt => false
  | _ => true
  end.

Fixpoint insert (key : string) (sorted : list string) : list string :=
  match sorted with
  | [] => [key]
  | key' :: rest =>
      if keyLeb key key' then key :: sorted else key' :: insert key rest
  end.

(** [keys.sort()]. *)
Fixpoint sort (keys : list string) : list string :=
  match keys with
  | [] => []
  | key :: rest => insert key (sort rest)
  end.

Section WithValue.
Context {V : Type}.

(** [JSON.stringify] of an object, given by its properties in the order
    they were added. *)
Variable stringify : JsMap.t V -> string.

(** The object [params]: its own properties in the order of
    [Object.keys]. *)
Definition Params : Type := JsMap.t (Param V).

(** [params[key]]. *)
Definition lookup (key : string) (params : Params) : Param V :=
  match JsMap.get key params with
  | Some value => value
  | None => Undefined
  end.

(** The function given to [reduce]. *)
Definition reducer (params : Params) (acc : JsMap.t V) (key : string)
  : JsMap.t V :=
  match lookup key params with
  | Value v => JsMap.set key v acc
  | _ => acc
  end.

(** The object [sorted]. *)
Definition sorted (params : Params) : JsMap.t V :=
  fold_left (reducer params) (sort (JsMap.keys params)) [].

(** [createCacheKey(params)]. *)
Definition createCacheKey (params : Params) : string :=
  stringify (sorted params).

End WithValue.
End CacheKey.

(* ===================================================================== *)
(** ** [class RateLimiter] of src/rateLimiter.ts                          *)
(* ===================================================================== *)

Module RateLimiter.

Record RateLimiterOptions : Type := {
  opt_maxRequests : option Z;
  opt_interval : option Z;
  opt_queue : option bool;
  opt_maxQueueSize : option Z
}.

(** What the limiter does to the promise of a queued caller: it calls the
    [resolve] of a [QueuedRequest], or its [reject] with a [RateLimitError]
    of the given message. A request is known by its handle, of a type [Q]
    left open. *)
Inductive Settled (Q : Type) : Type :=
| Resolve (request : Q)
| Reject (request : Q) (message : string).
Arguments Resolve {Q} _.
Arguments Reject {Q} _ _.

(** The object. [refillTimer] is [true] while an interval timer is set. *)
Record t (Q : Type) : Type := {
  maxRequests : Z;
  interval : Z;
  shouldQueue : bool;
  maxQueueSize : Z;
  tokens : Z;
  lastRefill : Z;
  queue : list Q;
  refillTimer : bool
}.
Arguments maxRequests {Q} _.
Arguments interval {Q} _.
Arguments shouldQueue {Q} _.
Arguments maxQueueSize {Q} _.
Arguments tokens {Q} _.
Arguments lastRefill {Q} _.
Arguments queue {Q} _.
Arguments refillTimer {Q} _.

(** The result of one call of [acquire]: the promise is fulfilled at once,
    rejected with a [RateLimitError] of the given message, or left pending
    with its handle in the queue. *)
Inductive AcquireResult : Type :=
| Acquired
| Failed (message : string)
| Queued.

Section WithRequest.
Context {Q : Type}.

Definition with_tokens (l : t Q) (n : Z) : t Q :=
  {| maxRequests := maxRequests l; interval := interval l;
     shouldQueue := shouldQueue l; maxQueueSize := maxQueueSize l;
     tokens := n; lastRefill := lastRefill l;
     queue := queue l; refillTimer := refillTimer l |}.

Definition with_lastRefill (l : t Q) (a : Z) : t Q :=
  {| maxRequests := maxRequests l; interval := interval l;
     shouldQueue := shouldQueue l; maxQueueSize := maxQueueSize l;
     tokens := tokens l; lastRefill := a;
     queue := queue l; refillTimer := refillTimer l |}.

Definition with_queue (l : t Q) (q : list Q) : t Q :=
  {| maxRequests := maxRequests l; interval := interval l;
     shouldQueue := shouldQueue l; maxQueueSize := maxQueueSize l;
     tokens := tokens l; lastRefill := lastRefill l;
     queue := q; refillTimer := refillTimer l |}.

Definition with_refillTimer (l : t Q) (b : bool) : t Q :=
  {| maxRequests := maxRequests l; interval := interval l;
     shouldQueue := shouldQueue l; maxQueueSize := maxQueueSize l;
     tokens := tokens l; lastRefill := lastRefill l;
     queue := queue l; refillTimer := b |}.

(** [constructor(options = {})], at time [now]. *)
Definition make (now : Z) (options : RateLimiterOptions) : t Q :=
  let maxRequests := Cache.default 50 (opt_maxRequests options) in
  {| maxRequests := maxRequests;
     interval := Cache.default 1000 (opt_interval options);
     shouldQueue :=
       match opt_queue options with Some b => b | None => true end;
     maxQueueSize := Cache.default 100 (opt_maxQueueSize options);
     tokens := maxRequests; lastRefill := now;
     queue := []; refillTimer := false |}.

(** [startRefillTimer()]: sets the timer unless one is running. *)
Definition startRefillTimer (l : t Q) : t Q :=
  if refillTimer l then l else with_refillTimer l true.

(** [stopRefillTimer()]. *)
Definition stopRefillTimer (l : t Q) : t Q :=
  if refillTimer l then with_refillTimer l false else l.

(** [while (this.queue.length > 0 && this.tokens > 0)] of [processQueue]:
    the tokens and the queue that are left, and the requests resolved,
    in the order of the calls. *)
Fixpoint processQueueLoop (tokens : Z) (queue : list Q)
  : Z * list Q * list (Settled Q) :=
  match queue with
  | [] => (tokens, [], [])
  | request :: rest =>
      if 0 <? tokens then
        let '(tokens', queue', settled) :=
          processQueueLoop (tokens - 1) rest in
        (tokens', queue', Resolve request :: settled)
      else (tokens, queue, [])
  end.

(** [processQueue()]. *)
Definition processQueue (l : t Q) : t Q * list (Settled Q) :=
  let '(tokens', queue', settled) :=
    processQueueLoop (tokens l) (queue l) in
  let l' := with_queue (with_tokens l tokens') queue' in
  (match queue' with
   | [] => stopRefillTimer l'
   | _ :: _ => l'
   end, settled).

(** [refill()], reading the clock at [now]. [Math.floor(elapsed /
    interval)] is the division of [Z] and [%] its remainder [Z.rem], for
    an interval other than 0. *)
Definition refill (now : Z) (l : t Q) : t Q * list (Settled Q) :=
  let elapsed := now - lastRefill l in
  if interval l <=? elapsed then
    let intervals := elapsed / interval l in
    processQueue
      (with_lastRefill
         (with_tokens l
            (Z.min (maxRequests l) (tokens l + intervals * maxRequests l)))
         (now - Z.rem elapsed (interval l)))
  else (l, []).

(** [acquire()]; [request] is the handle of the promise the call makes
    when it has to wait. *)
Definition acquire (now : Z) (request : Q) (l : t Q)
  : AcquireResult * t Q * list (Settled Q) :=
  let '(l1, settled) := refill now l in
  if 0 <? tokens l1 then
    (Acquired, with_tokens l1 (tokens l1 - 1), settled)
  else if negb (shouldQueue l1) then
    (Failed "Rate limit exceeded", l1, settled)
  else if maxQueueSize l1 <=? Z.of_nat (List.length (queue l1)) then
    (Failed "Rate limit queue is full", l1, settled)
  else
    let l2 := startRefillTimer l1 in
    (Queued, with_queue l2 (queue l2 ++ [request]), settled).

(** [tryAcquire()]. *)
Definition tryAcquire (now : Z) (l : t Q) : bool * t Q * list (Settled Q) :=
  let '(l1, settled) := refill now l in
  if 0 <? tokens l1 then (true, with_tokens l1 (tokens l1 - 1), settled)
  else (false, l1, settled).

(** [getAvailableTokens()]. *)
Definition getAvailableTokens (now : Z) (l : t Q)
  : Z * t Q * list (Settled Q) :=
  let '(l1, settled) := refill now l in (tokens l1, l1, settled).

(** [getQueueSize()]. *)
Definition getQueueSize (l : t Q) : Z := Z.of_nat (List.length (queue l)).

(** [while (this.queue.length > 0)] of [reset]: the queue that is left
    and the requests rejected, in the order of the calls. *)
Fixpoint resetLoop (queue : list Q) : list Q * list (Settled Q) :=
  match queue with
  | [] => ([], [])
  | request :: rest =>
      let '(queue', settled) := resetLoop rest in
      (queue', Reject request "Rate limiter was reset" :: settled)
  end.

(** [reset()], reading the clock at [now]. *)
Definition reset (now : Z) (l : t Q) : t Q * list (Settled Q) :=
  let l1 := with_tokens l (maxRequests l) in
  let l2 := with_lastRefill l1 now in
  let l3 := stopRefillTimer l2 in
  let '(queue', settled) := resetLoop (queue l3) in
  (with_queue l3 queue', settled).

(** [dispose()]. *)
Definition dispose (now : Z) (l : t Q) : t Q * list (Settled Q) :=
  reset now l.

(** The limiter as its constructor and its methods leave it, for a
    capacity of 1 or more and an interval above 0: the tokens are not
    negative, the queue is within its bound, and nothing is queued when
    queuing is off. *)
Definition steady (l : t Q) : Prop :=
  1 <= maxRequests l
  /\ 0 < interval l
  /\ 0 <= tokens l
  /\ (queue l = [] \/ Z.of_nat (List.length (queue l)) <= maxQueueSize l)
  /\ (shouldQueue l = false -> queue l = []).

(** The request that a call of [resolve] or [reject] settles. *)
Definition settledRequest (s : Settled Q) : Q :=
  match s with
  | Resolve request => request
  | Reject request _ => request
  end.

(** What can happen to a limiter: a call of one of its methods, or a turn
    of its interval timer, which calls [refill] and happens only while the
    timer is set. *)
Inductive Op : Type :=
| OpAcquire (now : Z) (request : Q)
| OpTryAcquire (now : Z)
| OpGetAvailableTokens (now : Z)
| OpTimer (now : Z)
| OpReset (now : Z)
| OpDispose (now : Z).

Definition step (op : Op) (l : t Q) : t Q * list (Settled Q) :=
  match op with
  | OpAcquire now request =>
      let '(_, l', settled) := acquire now request l in (l', settled)
  | OpTryAcquire now =>
      let '(_, l', settled) := tryAcquire now l in (l', settled)
  | OpGetAvailableTokens now =>
      let '(_, l', settled) := getAvailableTokens now l in (l', settled)
  | OpTimer now => if refillTimer l then refill now l else (l, [])
  | OpReset now => reset now l
  | OpDispose now => dispose now l
  end.

(** A sequence of them: the limiter at the end and all the requests
    settled on the way, in the order of the calls. *)
Fixpoint run (ops : list Op) (l : t Q) : t Q * list (Settled Q) :=
  match ops with
  | [] => (l, [])
  | op :: ops' =>
      let '(l1, settled1) := step op l in
      let '(l2, settled2) := run ops' l1 in
      (l2, settled1 ++ settled2)
  end.

(** The requests that the calls of [acquire] in a sequence put in the
    queue, in the order of the calls. *)
Fixpoint enqueued (ops : list Op) (l : t Q) : list Q :=
  match ops with
  | [] => []
  | op :: ops' =>
      let rest := enqueued ops' (fst (step op l)) in
      match op with
      | OpAcquire now request =>
          match fst (fst (acquire now request l)) with
          | Queued => request :: rest
          | _ => rest
          end
      | _ => rest
      end
  end.

(** [tryAcquire()] at each of the given times in turn: the answers, and
    the limiter at the end. *)
Fixpoint tryAcquires (times : list Z) (l : t Q) : list bool * t Q :=
  match times with
  | [] => ([], l)
  | now :: times' =>
      let '(answer, l1, _) := tryAcquire now l in
      let '(answers, l2) := tryAcquires times' l1 in
      (answer :: answers, l2)
  end.

(** A steady limiter in order: the tokens are within the capacity, no
    token is left while a request waits, and the timer is set exactly
    while a request waits. *)
Definition orderly (l : t Q) : Prop :=
  steady l
  /\ tokens l <= maxRequests l
  /\ (tokens l = 0 \/ queue l = [])
  /\ (refillTimer l = true <-> queue l <> []).

End WithRequest.
End RateLimiter.

(* ===================================================================== *)
(** ** The coordinator of [class Geocoder], src/geocoder.ts               *)
(* ===================================================================== *)

Module Geocoder.

(** The errors a call of the coordinator can throw: the limiter's
    [RateLimitError], or whatever the upstream call threw. *)
Inductive Error (F : Type) : Type :=
| RateLimitError (message : string)
| UpstreamError (failure : F).
Arguments RateLimitError {F} _.
Arguments UpstreamError {F} _.

(** Where a call of [requestWithCacheAndRateLimit] stands when it gives
    control back: it has returned, it has thrown, or it is parked on the
    promise of [acquire], its handle in the limiter's queue. *)
Inductive Outcome (R F : Type) : Type :=
| Returned (results : list R)
| Threw (error : Error F)
| Suspended.
Arguments Returned {R F} _.
Arguments Threw {R F} _.
Arguments Suspended {R F}.

(** The clock readings of one call: in [cache.get], in [acquire] and in
    [cache.set]. *)
Record Clock : Type := {
  t_get : Z;
  t_acquire : Z;
  t_set : Z
}.

(** The upstream service as the coordinator sees it: the number of calls
    of [request] made so far. *)
Record World : Type := { calls : nat }.

(** The two optional parts of the object; [None] is [null]. *)
Record t (R Q : Type) : Type := {
  cache : option (Cache.t (list R));
  rateLimiter : option (RateLimiter.t Q)
}.
Arguments cache {R Q} _.
Arguments rateLimiter {R Q} _.

Section WithUpstream.
Context {P R F Q : Type}.

(** The upstream call: what the [n]-th call of [request] (counting from
    0) answers for the given parameters, a failure or a list of results.
    It stands for the body of [request], which the coordinator only
    awaits. *)
Variable upstream : nat -> P -> F + list R.

Definition with_cache (g : t R Q) (c : Cache.t (list R)) : t R Q :=
  {| cache := Some c; rateLimiter := rateLimiter g |}.

Definition with_rateLimiter (g : t R Q) (l : RateLimiter.t Q) : t R Q :=
  {| cache := cache g; rateLimiter := Some l |}.

(** The two parts as the constructor sets them up; [None] for an option
    is the [false] that disables the part. *)
Definition make (now : Z) (cacheConfig : option Cache.CacheOptions)
    (rateLimiterConfig : option RateLimiter.RateLimiterOptions) : t R Q :=
  {| cache := option_map Cache.make cacheConfig;
     rateLimiter := option_map (RateLimiter.make now) rateLimiterConfig |}.

(** [request(parameters)], counted. *)
Definition request (parameters : P) (w : World) : (F + list R) * World :=
  (upstream (calls w) parameters, {| calls := S (calls w) |}).

(** The part of [requestWithCacheAndRateLimit] after the admission:
    the request, then the store of a result that is not empty. [None]
    when [cache.set] does not return. *)
Definition afterAcquire (now : Z) (parameters : P) (cacheKey : string)
    (g : t R Q) (w : World) : option (Outcome R F * t R Q * World) :=
  let '(answer, w') := request parameters w in
  match answer with
  | inl failure => Some (Threw (UpstreamError failure), g, w')
  | inr results =>
      match cache g, results with
      | Some c, _ :: _ =>
          match Cache.set now cacheKey results None c with
          | Some c' => Some (Returned results, with_cache g c', w')
          | None => None
          end
      | _, _ => Some (Returned results, g, w')
      end
  end.

(** The part from the admission on. *)
Definition fromAcquire (clock : Clock) (handle : Q) (parameters : P)
    (cacheKey : string) (g : t R Q) (w : World)
  : option (Outcome R F * t R Q * World * list (RateLimiter.Settled Q)) :=
  match rateLimiter g with
  | None =>
      match afterAcquire (t_set clock) parameters cacheKey g w with
      | Some (o, g', w') => Some (o, g', w', [])
      | None => None
      end
  | Some l =>
      match RateLimiter.acquire (t_acquire clock) handle l with
      | (RateLimiter.Acquired, l', settled) =>
          match afterAcquire (t_set clock) parameters cacheKey
                  (with_rateLimiter g l') w with
          | Some (o, g', w') => Some (o, g', w', settled)
          | None => None
          end
      | (RateLimiter.Failed message, l', settled) =>
          Some (Threw (RateLimitError message), with_rateLimiter g l', w,
                settled)
      | (RateLimiter.Queued, l', settled) =>
          Some (Suspended, with_rateLimiter g l', w, settled)
      end
  end.

(** [requestWithCacheAndRateLimit(parameters, cacheKey)], up to its
    return, its throw or its wait in the queue. An array is truthy, so
    [if (cached)] tests that [cache.get] found an entry. *)
Definition requestWithCacheAndRateLimit (clock : Clock) (handle : Q)
    (parameters : P) (cacheKey : string) (g : t R Q) (w : World)
  : option (Outcome R F * t R Q * World * list (RateLimiter.Settled Q)) :=
  match cache g with
  | None => fromAcquire clock handle parameters cacheKey g w
  | Some c =>
      match Cache.get (t_get clock) cacheKey c with
      | (Some cached, c') => Some (Returned cached, with_cache g c', w, [])
      | (None, c') =>
          fromAcquire clock handle parameters cacheKey (with_cache g c') w
      end
  end.

(** Whether the admission lets a call through at once: the limiter is
    off, or [acquire] at time [now] takes a token. *)
Definition admitted (now : Z) (handle : Q) (g : t R Q) : bool :=
  match rateLimiter g with
  | None => true
  | Some l =>
      match fst (fst (RateLimiter.acquire now handle l)) with
      | RateLimiter.Acquired => true
      | _ => false
      end
  end.

(** What a call answers once the upstream has been asked. *)
Definition answered (answer : F + list R) : Outcome R F :=
  match answer with
  | inl failure => Threw (UpstreamError failure)
  | inr results => Returned results
  end.

(** A parked call goes on when the limiter resolves its promise: the
    rest of the function runs, reading the clock at [now]. *)
Definition resumeResolved (now : Z) (parameters : P) (cacheKey : string)
    (g : t R Q) (w : World) : option (Outcome R F * t R Q * World) :=
  afterAcquire now parameters cacheKey g w.

(** A parked call whose promise the limiter rejects throws the error. *)
Definition resumeRejected (message : string) (g : t R Q) (w : World)
  : Outcome R F * t R Q * World :=
  (Threw (RateLimitError message), g, w).

(** [clearCache()]. *)
Definition clearCache (g : t R Q) : t R Q :=
  {| cache := option_map Cache.clear (cache g);
     rateLimiter := rateLimiter g |}.

(** [getCacheStats()]: [size] and [enabled]. *)
Definition getCacheStats (g : t R Q) : Z * bool :=
  match cache g with
  | Some c => (Cache.size c, true)
  | None => (0, false)
  end.

(** [getRateLimiterStats()]: [availableTokens], [queueSize] and
    [enabled]. The tokens are read first, through a refill, and the queue
    after it. *)
Definition getRateLimiterStats (now : Z) (g : t R Q)
  : (Z * Z * bool) * t R Q * list (RateLimiter.Settled Q) :=
  match rateLimiter g with
  | None => ((0, 0, false), g, [])
  | Some l =>
      let '(availableTokens, l', settled) :=
        RateLimiter.getAvailableTokens now l in
      ((availableTokens, RateLimiter.getQueueSize l', true),
       with_rateLimiter g l', settled)
  end.

(** [dispose()]: the limiter first, then the cache. *)
Definition dispose (now : Z) (g : t R Q)
  : t R Q * list (RateLimiter.Settled Q) :=
  match rateLimiter g with
  | None =>
      ({| cache := option_map Cache.clear (cache g); rateLimiter := None |},
       [])
  | Some l =>
      let '(l', settled) := RateLimiter.dispose now l in
      ({| cache := option_map Cache.clear (cache g);
          rateLimiter := Some l' |}, settled)
  end.

(** The lookup of step 1 finds nothing under the key at time [now]: the
    cache is off, or [cache.get] returns [undefined]. *)
Definition missed (now : Z) (cacheKey : string) (g : t R Q) : bool :=
  match cache g with
  | None => true
  | Some c =>
      match fst (Cache.get now cacheKey c) with
      | Some _ => false
      | None => true
      end
  end.

(** The object after that lookup. *)
Definition afterLookup (now : Z) (cacheKey : string) (g : t R Q) : t R Q :=
  {| cache := option_map (fun c => snd (Cache.get now cacheKey c)) (cache g);
     rateLimiter := rateLimiter g |}.

(** The cache, when it is on, has a capacity of 1 or more. *)
Definition usable (g : t R Q) : Prop :=
  match cache g with
  | Some c => 1 <= Cache.maxSize c
  | None => True
  end.

(** The map of the cache, when it is on, holds each key once. *)
Definition wellFormed (g : t R Q) : Prop :=
  match cache g with
  | Some c => JsMap.wf (Cache.cache c)
  | None => True
  end.

End WithUpstream.
End Geocoder.

(* ===================================================================== *)
(** ** The upstream call: [request] and [handleResponse], src/geocoder.ts *)
(* ===================================================================== *)

Module Wire.

#[local] Set Warnings "-register-all".

(** *** The error classes of src/errors.ts

    A thrown value is an instance of [GeocodingError] or of one of its
    subclasses, told apart by [name]; a [NetworkError]; any other [Error];
    or a value that is no [Error]. *)
Inductive Thrown : Type :=
| GeocodingErrorOf (name message status : string)
| NetworkErrorOf (message : string) (cause : option Thrown)
| ErrorOf (name message : string)
| NotAnError.

(** [new GeocodingError(message, status)]. *)
Definition GeocodingError (message status : string) : Thrown :=
  GeocodingErrorOf "GeocodingError" message status.

(** [new ApiKeyError(message, status)]. *)
Definition ApiKeyError (message status : string) : Thrown :=
  GeocodingErrorOf "ApiKeyError" message status.

(** [new InvalidRequestError(message)]. *)
Definition InvalidRequestError (message : string) : Thrown :=
  GeocodingErrorOf "InvalidRequestError" message "INVALID_REQUEST".

(** [new NetworkError(message, cause?)]. *)
Definition NetworkError (message : string) (cause : option Thrown) : Thrown :=
  NetworkErrorOf message cause.

(** [error instanceof GeocodingError]. *)
Definition instanceofGeocodingError (error : Thrown) : bool :=
  match error with
  | GeocodingErrorOf _ _ _ => true
  | _ => false
  end.

(** [error instanceof Error]. *)
Definition instanceofError (error : Thrown) : bool :=
  match error with
  | NotAnError => false
  | _ => true
  end.

(** [error.name] and [error.message] of an [Error]. *)
Definition errorName (error : Thrown) : string :=
  match error with
  | GeocodingErrorOf name _ _ => name
  | NetworkErrorOf _ _ => "NetworkError"
  | ErrorOf name _ => name
  | NotAnError => ""
  end.

Definition errorMessage (error : Thrown) : string :=
  match error with
  | GeocodingErrorOf _ message _ => message
  | NetworkErrorOf message _ => message
  | ErrorOf _ message => message
  | NotAnError => ""
  end.

(** *** The results, raw and converted (src/types.ts)

    [L] is the type of a [LatLng], which the conversion only copies. *)

Module RawAddressComponent.
Record t : Type := { long_name : string; short_name : string;
                     types : list string }.
End RawAddressComponent.

Module AddressComponent.
Record t : Type := { longName : string; shortName : string;
                     types : list string }.
End AddressComponent.

Module Box.
Record t (L : Type) : Type := { northeast : L; southwest : L }.
End Box.

Module RawGeometry.
Record t (L : Type) : Type := {
  location : L;
  location_type : string;
  viewport : Box.t L;
  bounds : option (Box.t L)
}.
Arguments location {L} _.
Arguments location_type {L} _.
Arguments viewport {L} _.
Arguments bounds {L} _.
End RawGeometry.

Module Geometry.
Record t (L : Type) : Type := {
  location : L;
  locationType : string;
  viewport : Box.t L;
  bounds : option (Box.t L)
}.
Arguments location {L} _.
Arguments locationType {L} _.
Arguments viewport {L} _.
Arguments bounds {L} _.
End Geometry.

Module RawPlusCode.
Record t : Type := { global_code : string; compound_code : option string }.
End RawPlusCode.

Module PlusCode.
Record t : Type := { globalCode : string; compoundCode : option string }.
End PlusCode.

Module RawGeocodeResult.
Record t (L : Type) : Type := {
  address_components : list RawAddressComponent.t;
  formatted_address : string;
  geometry : RawGeometry.t L;
  place_id : string;
  plus_code : option RawPlusCode.t;
  postcode_localities : option (list string);
  types : list string;
  partial_match : option bool
}.
Arguments address_components {L} _.
Arguments formatted_address {L} _.
Arguments geometry {L} _.
Arguments place_id {L} _.
Arguments plus_code {L} _.
Arguments postcode_localities {L} _.
Arguments types {L} _.
Arguments partial_match {L} _.
End RawGeocodeResult.

Module GeocodeResult.
Record t (L : Type) : Type := {
  addressComponents : list AddressComponent.t;
  formattedAddress : string;
  geometry : Geometry.t L;
  placeId : string;
  plusCode : option PlusCode.t;
  postcodeLocalities : option (list string);
  types : list string;
  partialMatch : option bool
}.
Arguments addressComponents {L} _.
Arguments formattedAddress {L} _.
Arguments geometry {L} _.
Arguments placeId {L} _.
Arguments plusCode {L} _.
Arguments postcodeLocalities {L} _.
Arguments types {L} _.
Arguments partialMatch {L} _.
End GeocodeResult.

Module RawGeocodeResponse.
Record t (L : Type) : Type := {
  status : string;
  results : list (RawGeocodeResult.t L);
  error_message : option string
}.
Arguments status {L} _.
Arguments results {L} _.
Arguments error_message {L} _.
End RawGeocodeResponse.

(** *** What [fetch] can do

    The promise of [fetch] is rejected with a thrown value (a failure of
    the network, or the [AbortError] of the timeout), or fulfilled with a
    response: its [ok], its HTTP [status] and [statusText], and what
    [response.json()] does, which throws or gives the parsed body. *)
Inductive JsonOutcome (L : Type) : Type :=
| JsonThrows (error : Thrown)
| JsonData (data : RawGeocodeResponse.t L).
Arguments JsonThrows {L} _.
Arguments JsonData {L} _.

Module Response.
Record t (L : Type) : Type := {
  ok : bool;
  status : Z;
  statusText : string;
  json : JsonOutcome L
}.
Arguments ok {L} _.
Arguments status {L} _.
Arguments statusText {L} _.
Arguments json {L} _.
End Response.

Inductive FetchOutcome (L : Type) : Type :=
| FetchThrows (error : Thrown)
| FetchResolves (response : Response.t L).
Arguments FetchThrows {L} _.
Arguments FetchResolves {L} _.

Section WithLatLng.
Context {L : Type}.

(** [toAddressComponent], [toGeometry], [toPlusCode],
    [toGeocodeResult]. *)
Definition toAddressComponent (raw : RawAddressComponent.t)
  : AddressComponent.t :=
  {| AddressComponent.longName := RawAddressComponent.long_name raw;
     AddressComponent.shortName := RawAddressComponent.short_name raw;
     AddressComponent.types := RawAddressComponent.types raw |}.

Definition toGeometry (raw : RawGeometry.t L) : Geometry.t L :=
  {| Geometry.location := RawGeometry.location raw;
     Geometry.locationType := RawGeometry.location_type raw;
     Geometry.viewport := RawGeometry.viewport raw;
     Geometry.bounds := RawGeometry.bounds raw |}.

Definition toPlusCode (raw : RawPlusCode.t) : PlusCode.t :=
  {| PlusCode.globalCode := RawPlusCode.global_code raw;
     PlusCode.compoundCode := RawPlusCode.compound_code raw |}.

Definition toGeocodeResult (raw : RawGeocodeResult.t L) : GeocodeResult.t L :=
  {| GeocodeResult.addressComponents :=
       map toAddressComponent (RawGeocodeResult.address_components raw);
     GeocodeResult.formattedAddress := RawGeocodeResult.formatted_address raw;
     GeocodeResult.geometry := toGeometry (RawGeocodeResult.geometry raw);
     GeocodeResult.placeId := RawGeocodeResult.place_id raw;
     GeocodeResult.plusCode :=
       match RawGeocodeResult.plus_code raw with
       | Some code => Some (toPlusCode code)
       | None => None
       end;
     GeocodeResult.postcodeLocalities :=
       RawGeocodeResult.postcode_localities raw;
     GeocodeResult.types := RawGeocodeResult.types raw;
     GeocodeResult.partialMatch := RawGeocodeResult.partial_match raw |}.

(** [message ?? fallback]. *)
Definition orElse (message : option string) (fallback : string) : string :=
  match message with
  | Some m => m
  | None => fallback
  end.

(** [handleResponse(response)]: the results, or the error thrown. *)
Definition handleResponse (response : RawGeocodeResponse.t L)
  : Thrown + list (GeocodeResult.t L) :=
  let status := RawGeocodeResponse.status response in
  let error_message := RawGeocodeResponse.error_message response in
  if String.eqb status "OK" then
    inr (map toGeocodeResult (RawGeocodeResponse.results response))
  else if String.eqb status "ZERO_RESULTS" then
    inr []
  else if String.eqb status "OVER_DAILY_LIMIT"
          || String.eqb status "OVER_QUERY_LIMIT" then
    inl (ApiKeyError (orElse error_message "API quota exceeded") status)
  else if String.eqb status "REQUEST_DENIED" then
    inl (ApiKeyError
           (orElse error_message "Request denied - check your API key")
           status)
  else if String.eqb status "INVALID_REQUEST" then
    inl (InvalidRequestError (orElse error_message "Invalid request"))
  else
    inl (GeocodingError (orElse error_message "An unknown error occurred")
           status).

(** A number in a template literal: its decimal digits. *)
Definition decimal (n : Z) : string := NilZero.string_of_int (Z.to_int n).

(** The [try] block of [request]. *)
Definition tryBlock (outcome : FetchOutcome L)
  : Thrown + list (GeocodeResult.t L) :=
  match outcome with
  | FetchThrows error => inl error
  | FetchResolves response =>
      if negb (Response.ok response) then
        inl (NetworkError
               ("HTTP " ++ decimal (Response.status response) ++ ": "
                ++ Response.statusText response)
               None)
      else
        match Response.json response with
        | JsonThrows error => inl error
        | JsonData data => handleResponse data
        end
  end.

(** The [catch] block of [request]: the error thrown in the end. *)
Definition catchBlock (error : Thrown) : Thrown :=
  if instanceofGeocodingError error then error
  else if instanceofError error then
    if String.eqb (errorName error) "AbortError" then
      NetworkError "Request timed out" (Some error)
    else
      NetworkError ("Request failed: " ++ errorMessage error) (Some error)
  else NetworkError "An unknown error occurred" None.

(** [request(parameters)], for what [fetch] does with the URL. *)
Definition request (outcome : FetchOutcome L)
  : Thrown + list (GeocodeResult.t L) :=
  match tryBlock outcome with
  | inr results => inr results
  | inl error => inl (catchBlock error)
  end.

End WithLatLng.
End Wire.

(* ===================================================================== *)
(** ** Objects of the test suites                                         *)
(* ===================================================================== *)

Module Sample.

(** [new Cache<string>({ ttl: 1000, maxSize: 3 })] of the cache tests. *)
Definition options : Cache.CacheOptions :=
  {| Cache.opt_ttl := Some 1000; Cache.opt_maxSize := Some 3 |}.

Definition fresh : Cache.t string := Cache.make options.

Definition entry (v : string) (expiresAt : Z) : Cache.CacheEntry string :=
  {| Cache.value := v; Cache.expiresAt := expiresAt |}.

(** That cache after [set] of key1, key2 and key3 at time 0. *)
Definition three : Cache.t string :=
  {| Cache.cache := [("key1"%string, entry "value1" 1000);
                     ("key2"%string, entry "value2" 1000);
                     ("key3"%string, entry "value3" 1000)];
     Cache.ttl := 1000; Cache.maxSize := 3 |}.

(** That cache after [set] of A at time 0 and of B at time 1. *)
Definition ab : Cache.t string :=
  {| Cache.cache := [("A"%string, entry "1" 1000);
                     ("B"%string, entry "2" 1001)];
     Cache.ttl := 1000; Cache.maxSize := 3 |}.

(** A cache of capacity 2 that holds two entries. *)
Definition two : Cache.t string :=
  {| Cache.cache := [("key1"%string, entry "value1" 1000);
                     ("key2"%string, entry "value2" 1000)];
     Cache.ttl := 1000; Cache.maxSize := 2 |}.

(** [new Cache<string>({ maxSize: 0 })]. *)
Definition none : Cache.t string :=
  Cache.make {| Cache.opt_ttl := None; Cache.opt_maxSize := Some 0 |}.

(** [new RateLimiter({ maxRequests: 3, interval: 100, queue: false })]
    of the limiter tests, made at time 0. *)
Definition limiterOptions : RateLimiter.RateLimiterOptions :=
  {| RateLimiter.opt_maxRequests := Some 3;
     RateLimiter.opt_interval := Some 100;
     RateLimiter.opt_queue := Some false;
     RateLimiter.opt_maxQueueSize := None |}.

Definition limiter : RateLimiter.t nat := RateLimiter.make 0 limiterOptions.

(** A limiter of capacity 1 and queue bound 2, out of tokens, with the
    requests 7 and 8 waiting. *)
Definition waiting : RateLimiter.t nat :=
  {| RateLimiter.maxRequests := 1; RateLimiter.interval := 100;
     RateLimiter.shouldQueue := true; RateLimiter.maxQueueSize := 2;
     RateLimiter.tokens := 0; RateLimiter.lastRefill := 0;
     RateLimiter.queue := [7%nat; 8%nat];
     RateLimiter.refillTimer := true |}.

(** The coordinator of the caching test: [cache: { ttl: 10000 }],
    [rateLimiter: false], made at time 0. *)
Definition geocoder : Geocoder.t string nat :=
  Geocoder.make 0
    (Some {| Cache.opt_ttl := Some 10000; Cache.opt_maxSize := None |})
    None.

(** The same with the default limiter. *)
Definition limited : Geocoder.t string nat :=
  Geocoder.make 0
    (Some {| Cache.opt_ttl := Some 10000; Cache.opt_maxSize := None |})
    (Some {| RateLimiter.opt_maxRequests := None;
             RateLimiter.opt_interval := None;
             RateLimiter.opt_queue := None;
             RateLimiter.opt_maxQueueSize := None |}).

(** An upstream that finds one result for every request, and one that
    finds none (the answer [ZERO_RESULTS]). *)
Definition found (n : nat) (parameters : string) : string + list string :=
  inr [parameters].

Definition zeroResults (n : nat) (parameters : string)
  : string + list string := inr [].

Definition at0 : Geocoder.Clock :=
  {| Geocoder.t_get := 0; Geocoder.t_acquire := 0; Geocoder.t_set := 0 |}.

Definition at5000 : Geocoder.Clock :=
  {| Geocoder.t_get := 5000; Geocoder.t_acquire := 5000;
     Geocoder.t_set := 5000 |}.

(** The cache of the test of [prune]: key1 with the TTL of 50 ms of the
    cache and key2 with a TTL of 200 ms, both set at time 0. *)
Definition mixed : Cache.t string :=
  {| Cache.cache := [("key1"%string, entry "value1" 50);
                     ("key2"%string, entry "value2" 200)];
     Cache.ttl := 50; Cache.maxSize := 10 |}.

(** A limiter with a queue: capacity 1, interval 100 ms, queue bound 1. *)
Definition queueOptions : RateLimiter.RateLimiterOptions :=
  {| RateLimiter.opt_maxRequests := Some 1;
     RateLimiter.opt_interval := Some 100;
     RateLimiter.opt_queue := Some true;
     RateLimiter.opt_maxQueueSize := Some 1 |}.

(** Three calls of [acquire] in a row, then the timer after 100 ms. *)
Definition threeCallers : list (RateLimiter.Op (Q := nat)) :=
  [RateLimiter.OpAcquire 0 1%nat; RateLimiter.OpAcquire 1 2%nat;
   RateLimiter.OpAcquire 2 3%nat; RateLimiter.OpTimer 100].

(** A limiter out of tokens that does not queue, and one that queues and
    has room for one more request behind request 7. *)
Definition drained : RateLimiter.t nat :=
  {| RateLimiter.maxRequests := 3; RateLimiter.interval := 100;
     RateLimiter.shouldQueue := false; RateLimiter.maxQueueSize := 100;
     RateLimiter.tokens := 0; RateLimiter.lastRefill := 0;
     RateLimiter.queue := []; RateLimiter.refillTimer := false |}.

Definition roomy : RateLimiter.t nat :=
  {| RateLimiter.maxRequests := 1; RateLimiter.interval := 100;
     RateLimiter.shouldQueue := true; RateLimiter.maxQueueSize := 2;
     RateLimiter.tokens := 0; RateLimiter.lastRefill := 0;
     RateLimiter.queue := [7%nat]; RateLimiter.refillTimer := true |}.

(** Coordinators over them, with the default cache, and one with neither
    cache nor limiter. *)
Definition refusing : Geocoder.t string nat :=
  {| Geocoder.cache :=
       Some (Cache.make {| Cache.opt_ttl := None; Cache.opt_maxSize := None |});
     Geocoder.rateLimiter := Some drained |}.

Definition parking : Geocoder.t string nat :=
  {| Geocoder.cache :=
       Some (Cache.make {| Cache.opt_ttl := None; Cache.opt_maxSize := None |});
     Geocoder.rateLimiter := Some roomy |}.

Definition bare : Geocoder.t string nat := Geocoder.make 0 None None.

(** Responses of the upstream: HTTP 404, and a body with a status and no
    results. *)
Definition body (status : string) (error_message : option string)
  : Wire.RawGeocodeResponse.t unit :=
  {| Wire.RawGeocodeResponse.status := status;
     Wire.RawGeocodeResponse.results := [];
     Wire.RawGeocodeResponse.error_message := error_message |}.

Definition notFound : Wire.Response.t unit :=
  {| Wire.Response.ok := false; Wire.Response.status := 404;
     Wire.Response.statusText := "Not Found";
     Wire.Response.json := Wire.JsonThrows (Wire.ErrorOf "SyntaxError" "") |}.

Definition answering (status : string) : Wire.Response.t unit :=
  {| Wire.Response.ok := true; Wire.Response.status := 200;
     Wire.Response.statusText := "OK";
     Wire.Response.json := Wire.JsonData (body status None) |}.

(** The coordinator of the caching test over the converted results. *)
Definition wired : Geocoder.t (Wire.GeocodeResult.t unit) nat :=
  Geocoder.make 0
    (Some {| Cache.opt_ttl := Some 10000; Cache.opt_maxSize := None |})
    None.

(** Two objects of parameters with the same properties in two orders, and
    a [stringify] that lists the keys. *)
Definition paramsAB : JsMap.t (CacheKey.Param Z) :=
  [("a"%string, CacheKey.Value 1); ("b"%string, CacheKey.Value 2)].

Definition paramsBA : JsMap.t (CacheKey.Param Z) :=
  [("b"%string, CacheKey.Value 2); ("a"%string, CacheKey.Value 1)].

Definition listKeys (object : JsMap.t Z) : string :=
  String.concat "," (JsMap.keys object).

End Sample.

(* ===================================================================== *)
(** ** Facts about the insertion-ordered map                              *)
(* ===================================================================== *)

Section JsMapFacts.
Context {E : Type}.
Implicit Types (m : JsMap.t E) (k : string) (e : E).

Lemma jsmap_length_remove_le k m :
  (List.length (JsMap.remove k m) <= List.length m)%nat.
Proof.
  induction m as [|[k' e'] m IH]; simpl; [lia|].
  destruct (String.eqb k k'); simpl; lia.
Qed.

Lemma jsmap_length_remove_present k m e :
  JsMap.get k m = Some e ->
  S (List.length (JsMap.remove k m)) = List.length m.
Proof.
  induction m as [|[k' e'] m IH]; simpl; [discriminate|].
  destruct (String.eqb k k'); simpl; intros H; [reflexivity|].
  now rewrite IH.
Qed.

Lemma jsmap_length_set_le k e m :
  (List.length (JsMap.set k e m) <= S (List.length m))%nat.
Proof.
  induction m as [|[k' e'] m IH]; simpl; [lia|].
  destruct (String.eqb k k'); simpl; lia.
Qed.

Lemma jsmap_length_set_present k e m e0 :
  JsMap.get k m = Some e0 ->
  List.length (JsMap.set k e m) = List.length m.
Proof.
  induction m as [|[k' e'] m IH]; simpl; [discriminate|].
  destruct (String.eqb k k'); simpl; intros H; [reflexivity|].
  now rewrite IH.
Qed.

Lemma jsmap_set_absent k e m :
  JsMap.get k m = None -> JsMap.set k e m = m ++ [(k, e)].
Proof.
  induction m as [|[k' e'] m IH]; simpl; [reflexivity|].
  destruct (String.eqb k k'); [discriminate|].
  intros H. now rewrite IH.
Qed.

Lemma jsmap_keys_set_present k e m e0 :
  JsMap.get k m = Some e0 -> JsMap.keys (JsMap.set k e m) = JsMap.keys m.
Proof.
  unfold JsMap.keys.
  induction m as [|[k' e'] m IH]; simpl; [discriminate|].
  destruct (String.eqb_spec k k') as [->|Hne]; simpl; intros H;
    [reflexivity|].
  now rewrite IH.
Qed.

Lemma jsmap_get_set_same k e m : JsMap.get k (JsMap.set k e m) = Some e.
Proof.
  induction m as [|[k' e'] m IH]; simpl.
  - now rewrite String.eqb_refl.
  - destruct (String.eqb k k') eqn:Hk; simpl.
    + now rewrite String.eqb_refl.
    + now rewrite Hk.
Qed.

Lemma jsmap_get_set_other k k' e m :
  k <> k' -> JsMap.get k' (JsMap.set k e m) = JsMap.get k' m.
Proof.
  intros Hne.
  induction m as [|[k0 e0] m IH]; simpl.
  - destruct (String.eqb_spec k' k); congruence.
  - destruct (String.eqb_spec k k0) as [->|Hk]; simpl.
    + destruct (String.eqb_spec k' k0); congruence.
    + now rewrite IH.
Qed.

Lemma jsmap_get_remove_other k k' m :
  k <> k' -> JsMap.get k' (JsMap.remove k m) = JsMap.get k' m.
Proof.
  intros Hne.
  induction m as [|[k0 e0] m IH]; simpl; [reflexivity|].
  destruct (String.eqb_spec k k0) as [->|Hk]; simpl.
  - destruct (String.eqb_spec k' k0); congruence.
  - now rewrite IH.
Qed.

Lemma jsmap_get_None_not_in k m :
  JsMap.get k m = None <-> ~ In k (JsMap.keys m).
Proof.
  unfold JsMap.keys.
  induction m as [|[k' e'] m IH]; simpl; [tauto|].
  destruct (String.eqb_spec k k') as [->|Hne].
  - split; [discriminate | intros H; exfalso; apply H; now left].
  - rewrite IH. split; [intros H [H1|H1]; congruence | tauto].
Qed.

Lemma jsmap_remove_absent k m :
  JsMap.get k m = None -> JsMap.remove k m = m.
Proof.
  induction m as [|[k' e'] m IH]; simpl; [reflexivity|].
  destruct (String.eqb k k'); [discriminate|].
  intros H. now rewrite IH.
Qed.

Lemma jsmap_in_keys_remove k k' m :
  In k' (JsMap.keys (JsMap.remove k m)) -> In k' (JsMap.keys m).
Proof.
  unfold JsMap.keys.
  induction m as [|[k0 e0] m IH]; simpl; [tauto|].
  destruct (String.eqb k k0); simpl; tauto.
Qed.

Lemma jsmap_wf_remove k m : JsMap.wf m -> JsMap.wf (JsMap.remove k m).
Proof.
  unfold JsMap.wf.
  induction m as [|[k0 e0] m IH]; simpl; intros H; [constructor|].
  inversion H as [|? ? Hnin Hnd]; subst.
  destruct (String.eqb k k0); simpl; [assumption|].
  constructor; [|now apply IH].
  intros Hin. apply Hnin. now apply (jsmap_in_keys_remove k).
Qed.

Lemma jsmap_get_remove_same k m :
  JsMap.wf m -> JsMap.get k (JsMap.remove k m) = None.
Proof.
  unfold JsMap.wf.
  induction m as [|[k0 e0] m IH]; simpl; intros H; [reflexivity|].
  inversion H as [|? ? Hnin Hnd]; subst.
  destruct (String.eqb_spec k k0) as [->|Hne]; simpl.
  - now apply jsmap_get_None_not_in.
  - destruct (String.eqb_spec k k0); [congruence|]. now apply IH.
Qed.

Lemma jsmap_in_keys_set k k' e m :
  In k' (JsMap.keys (JsMap.set k e m)) -> k' = k \/ In k' (JsMap.keys m).
Proof.
  unfold JsMap.keys.
  induction m as [|[k0 e0] m IH]; simpl.
  - intros [H|[]]; now left.
  - destruct (String.eqb_spec k k0) as [->|Hne]; simpl.
    + tauto.
    + intros [H|H]; [tauto|]. destruct (IH H); tauto.
Qed.

Lemma jsmap_wf_set k e m : JsMap.wf m -> JsMap.wf (JsMap.set k e m).
Proof.
  unfold JsMap.wf.
  induction m as [|[k0 e0] m IH]; simpl; intros H.
  - constructor; [intros []|constructor].
  - inversion H as [|? ? Hnin Hnd]; subst.
    destruct (String.eqb_spec k k0) as [->|Hne]; simpl.
    + now constructor.
    + constructor; [|now apply IH].
      intros Hin. destruct (jsmap_in_keys_set _ _ _ _ Hin); congruence.
Qed.

Lemma jsmap_get_skipn_None k n m :
  JsMap.get k m = None -> JsMap.get k (skipn n m) = None.
Proof.
  revert m. induction n as [|n IH]; intros m; [now simpl|].
  destruct m as [|[k' e'] m]; simpl; [reflexivity|].
  destruct (String.eqb k k'); [discriminate|]. apply IH.
Qed.

Lemma jsmap_wf_skipn n m : JsMap.wf m -> JsMap.wf (skipn n m).
Proof.
  unfold JsMap.wf.
  revert m. induction n as [|n IH]; intros m; [now simpl|].
  destruct m as [|[k' e'] m]; simpl; [trivial|].
  intros H. inversion H; subst. now apply IH.
Qed.

Lemma jsmap_wf_app_fresh k e m :
  JsMap.wf m -> JsMap.get k m = None -> JsMap.wf (m ++ [(k, e)]).
Proof.
  intros Hwf Hk. rewrite <- (jsmap_set_absent k e m Hk).
  now apply jsmap_wf_set.
Qed.

Lemma jsmap_get_app_l k m m' e :
  JsMap.get k m = Some e -> JsMap.get k (m ++ m') = Some e.
Proof.
  induction m as [|[k0 e0] m IH]; simpl; [discriminate|].
  destruct (String.eqb k k0); [trivial|apply IH].
Qed.

Lemma jsmap_get_app_r k m m' :
  JsMap.get k m = None -> JsMap.get k (m ++ m') = JsMap.get k m'.
Proof.
  induction m as [|[k0 e0] m IH]; simpl; [reflexivity|].
  destruct (String.eqb k k0); [discriminate|apply IH].
Qed.

Lemma jsmap_wf_cons_inv k e m :
  JsMap.wf ((k, e) :: m) -> JsMap.get k m = None /\ JsMap.wf m.
Proof.
  unfold JsMap.wf. simpl. intros H. inversion H; subst.
  split; [now apply jsmap_get_None_not_in|assumption].
Qed.

End JsMapFacts.

(* ===================================================================== *)
(** ** The cache                                                          *)
(* ===================================================================== *)

Section CacheFacts.
Context {T : Type}.
Implicit Types (c : Cache.t T) (m : JsMap.t (Cache.CacheEntry T)).

(** *** The eviction loop *)

Lemma evictFirst_cons k e m : Cache.evictFirst ((k, e) :: m) = m.
Proof. unfold Cache.evictFirst. simpl. now rewrite String.eqb_refl. Qed.

(** With a capacity of 0 or less the test of the loop never fails. *)
Lemma evictLoop_unbounded fuel maxSize m :
  maxSize <= 0 -> Cache.evictLoop fuel maxSize m = None.
Proof.
  intros Hle. revert m.
  induction fuel as [|fuel IH]; intros m; simpl; [reflexivity|].
  unfold JsMap.size.
  destruct (Z.leb_spec maxSize (Z.of_nat (List.length m))); [apply IH|lia].
Qed.

(** With a capacity of 1 or more the loop ends, within one turn per
    entry and a last test, and drops the oldest entries. *)
Lemma evictLoop_enough fuel maxSize m :
  1 <= maxSize -> (List.length m < fuel)%nat ->
  Cache.evictLoop fuel maxSize m
  = Some (skipn (Cache.evicted maxSize (List.length m)) m).
Proof.
  intros Hcap. unfold Cache.evicted. revert m.
  induction fuel as [|fuel IH]; intros m Hlen; [lia|].
  simpl. unfold JsMap.size.
  destruct (Z.leb_spec maxSize (Z.of_nat (List.length m))) as [Hfull|Hroom].
  - destruct m as [|[k e] m]; [simpl in Hfull; lia|].
    rewrite evictFirst_cons, IH by (simpl in Hlen; lia).
    simpl List.length in *.
    replace (S (List.length m) + 1 - Z.to_nat maxSize)%nat
      with (S (List.length m + 1 - Z.to_nat maxSize)) by lia.
    reflexivity.
  - replace (List.length m + 1 - Z.to_nat maxSize)%nat with O by lia.
    reflexivity.
Qed.

Lemma evictLoop_mono fuel fuel' maxSize m r :
  Cache.evictLoop fuel maxSize m = Some r -> (fuel <= fuel')%nat ->
  Cache.evictLoop fuel' maxSize m = Some r.
Proof.
  revert fuel' m.
  induction fuel as [|fuel IH]; intros fuel' m; simpl; [discriminate|].
  intros H Hle. destruct fuel' as [|fuel']; [lia|]. simpl.
  destruct (maxSize <=? JsMap.size m); [|assumption].
  apply IH; [assumption|lia].
Qed.

(** The fuel that [Cache.set] gives the loop loses no result. *)
Lemma evictLoop_complete fuel maxSize m r :
  Cache.evictLoop fuel maxSize m = Some r ->
  Cache.evictLoop (S (List.length m)) maxSize m = Some r.
Proof.
  intros H.
  destruct (Z.le_gt_cases maxSize 0) as [Hle|Hgt].
  - now rewrite evictLoop_unbounded in H.
  - assert (Hbig : Cache.evictLoop (Nat.max fuel (S (List.length m)))
                     maxSize m = Some r)
      by (apply (evictLoop_mono fuel); [assumption|lia]).
    rewrite evictLoop_enough in Hbig by lia.
    rewrite evictLoop_enough by lia. assumption.
Qed.

Lemma set_fuel_complete fuel now key v ttl_arg c c' :
  Cache.set_fuel fuel now key v ttl_arg c = Some c' ->
  Cache.set now key v ttl_arg c = Some c'.
Proof.
  unfold Cache.set, Cache.set_fuel.
  destruct (Cache.evictLoop fuel _ _) eqn:Hloop; [|discriminate].
  now rewrite (evictLoop_complete _ _ _ _ Hloop).
Qed.

(** [set] with a capacity of 1 or more, in closed form. *)
Lemma set_closed_form now key v ttl_arg c :
  1 <= Cache.maxSize c ->
  Cache.set now key v ttl_arg c
  = Some (Cache.with_cache c
            (JsMap.set key
               {| Cache.value := v;
                  Cache.expiresAt :=
                    now + Cache.default (Cache.ttl c) ttl_arg |}
               (skipn (Cache.evicted (Cache.maxSize c)
                         (List.length (Cache.cache c)))
                  (Cache.cache c)))).
Proof.
  intros Hcap. unfold Cache.set, Cache.set_fuel.
  now rewrite evictLoop_enough by lia.
Qed.

Lemma length_skipn_evicted maxSize m :
  1 <= maxSize ->
  Z.of_nat (List.length (skipn (Cache.evicted maxSize (List.length m)) m))
  <= maxSize - 1.
Proof.
  intros Hcap. rewrite length_skipn. unfold Cache.evicted. lia.
Qed.

(** *** Sizes *)

Lemma size_get_le now key c :
  Cache.size (snd (Cache.get now key c)) <= Cache.size c.
Proof.
  unfold Cache.get, Cache.size, JsMap.size.
  destruct (JsMap.get key (Cache.cache c)) as [entry|] eqn:Hget; simpl;
    [|lia].
  destruct (Cache.expiresAt entry <? now); simpl.
  - pose proof (jsmap_length_remove_le key (Cache.cache c)). lia.
  - pose proof (jsmap_length_remove_present key (Cache.cache c) entry Hget).
    pose proof (jsmap_length_set_le key entry
                  (JsMap.remove key (Cache.cache c))).
    lia.
Qed.

Lemma has_snd now key c :
  snd (Cache.has now key c) = snd (Cache.get now key c).
Proof. unfold Cache.has. now destruct (Cache.get now key c). Qed.

Lemma pruneStep_fold_length now (l : JsMap.t (Cache.CacheEntry T)) acc :
  (List.length (snd (fold_left (Cache.pruneStep now) l acc))
   <= List.length (snd acc))%nat.
Proof.
  revert acc. induction l as [|ke l IH]; intros acc; simpl; [lia|].
  etransitivity; [apply IH|].
  unfold Cache.pruneStep. destruct (Cache.expiresAt (snd ke) <? now); simpl;
    [apply jsmap_length_remove_le | lia].
Qed.

Lemma size_prune_le now c :
  Cache.size (snd (Cache.prune now c)) <= Cache.size c.
Proof.
  unfold Cache.prune, Cache.size, JsMap.size.
  pose proof (pruneStep_fold_length now (Cache.cache c) (0, Cache.cache c))
    as H.
  destruct (fold_left _ _ _) as [pruned m]. simpl in *. lia.
Qed.

Lemma size_delete_le key c :
  Cache.size (snd (Cache.delete key c)) <= Cache.size c.
Proof.
  unfold Cache.delete, Cache.size, JsMap.size. simpl.
  pose proof (jsmap_length_remove_le key (Cache.cache c)). lia.
Qed.

Lemma maxSize_step op c c' :
  Cache.step op c = Some c' -> Cache.maxSize c' = Cache.maxSize c.
Proof.
  destruct op as [now key|now key v ttl_arg|now key|key| |now]; simpl.
  - unfold Cache.get.
    destruct (JsMap.get key (Cache.cache c)) as [entry|];
      [destruct (Cache.expiresAt entry <? now)|];
      simpl; intros [= <-]; reflexivity.
  - unfold Cache.set, Cache.set_fuel.
    destruct (Cache.evictLoop _ _ _); intros [= <-]; reflexivity.
  - rewrite has_snd. unfold Cache.get.
    destruct (JsMap.get key (Cache.cache c)) as [entry|];
      [destruct (Cache.expiresAt entry <? now)|];
      simpl; intros [= <-]; reflexivity.
  - intros [= <-]. reflexivity.
  - intros [= <-]. reflexivity.
  - unfold Cache.prune. destruct (fold_left _ _ _).
    intros [= <-]. reflexivity.
Qed.

(** Every operation returns when the capacity is 1 or more, and leaves
    a cache within its capacity. *)
Lemma step_within_capacity op c :
  1 <= Cache.maxSize c -> Cache.size c <= Cache.maxSize c ->
  exists c', Cache.step op c = Some c'
             /\ Cache.size c' <= Cache.maxSize c'.
Proof.
  intros Hcap Hinv.
  destruct op as [now key|now key v ttl_arg|now key|key| |now].
  - eexists; split; [reflexivity|].
    pose proof (size_get_le now key c).
    rewrite (maxSize_step (Cache.OpGet now key) c _ eq_refl). lia.
  - simpl. rewrite set_closed_form by assumption.
    eexists; split; [reflexivity|].
    unfold Cache.size, JsMap.size. simpl.
    pose proof (length_skipn_evicted (Cache.maxSize c) (Cache.cache c) Hcap).
    match goal with
    | |- context [JsMap.set ?k ?e ?m] =>
        pose proof (jsmap_length_set_le k e m)
    end.
    lia.
  - eexists; split; [reflexivity|].
    pose proof (size_get_le now key c).
    rewrite (maxSize_step (Cache.OpHas now key) c _ eq_refl).
    simpl. rewrite has_snd. lia.
  - eexists; split; [reflexivity|].
    pose proof (size_delete_le key c). simpl in *. lia.
  - eexists; split; [reflexivity|].
    unfold Cache.size, JsMap.size. simpl. lia.
  - eexists; split; [reflexivity|].
    pose proof (size_prune_le now c).
    rewrite (maxSize_step (Cache.OpPrune now) c _ eq_refl). simpl. lia.
Qed.

Lemma run_within_capacity ops c :
  1 <= Cache.maxSize c -> Cache.size c <= Cache.maxSize c ->
  exists c', Cache.run ops c = Some c'
             /\ Cache.maxSize c' = Cache.maxSize c
             /\ Cache.size c' <= Cache.maxSize c'.
Proof.
  revert c. induction ops as [|op ops IH]; intros c Hcap Hinv; simpl.
  - exists c. auto.
  - destruct (step_within_capacity op c Hcap Hinv) as (c1 & Hstep & Hinv1).
    rewrite Hstep.
    pose proof (maxSize_step op c c1 Hstep) as Hmax.
    destruct (IH c1) as (c' & Hrun & Hmax' & Hinv'); [lia|assumption|].
    exists c'. repeat split; [assumption|congruence|assumption].
Qed.

(** [set] on a cache that holds exactly [maxSize] entries: the loop
    takes one turn and drops the oldest entry, whatever the key. *)
Lemma set_at_capacity now key v ttl_arg c k0 e0 rest :
  Cache.cache c = (k0, e0) :: rest ->
  Cache.size c = Cache.maxSize c ->
  Cache.set now key v ttl_arg c
  = Some (Cache.with_cache c
            (JsMap.set key
               {| Cache.value := v;
                  Cache.expiresAt :=
                    now + Cache.default (Cache.ttl c) ttl_arg |}
               rest)).
Proof.
  intros Hm Hfull. unfold Cache.size, JsMap.size in Hfull.
  rewrite set_closed_form by (rewrite Hm in Hfull; simpl in Hfull; lia).
  replace (Cache.evicted (Cache.maxSize c) (List.length (Cache.cache c)))
    with 1%nat by (unfold Cache.evicted; lia).
  now rewrite Hm.
Qed.

Lemma get_hit now key c e :
  JsMap.wf (Cache.cache c) ->
  JsMap.get key (Cache.cache c) = Some e -> now <= Cache.expiresAt e ->
  Cache.get now key c
  = (Some (Cache.value e),
     Cache.with_cache c (JsMap.remove key (Cache.cache c) ++ [(key, e)])).
Proof.
  intros Hwf Hget Hlive. unfold Cache.get. rewrite Hget.
  destruct (Z.ltb_spec (Cache.expiresAt e) now); [lia|].
  now rewrite jsmap_set_absent by now apply jsmap_get_remove_same.
Qed.

(** [get] leaves the settings and the other keys alone. *)
Lemma cache_get_frame now key c :
  let c' := snd (Cache.get now key c) in
  Cache.maxSize c' = Cache.maxSize c
  /\ Cache.ttl c' = Cache.ttl c
  /\ (forall k, k <> key ->
        JsMap.get k (Cache.cache c') = JsMap.get k (Cache.cache c)).
Proof.
  unfold Cache.get.
  destruct (JsMap.get key (Cache.cache c)) as [entry|];
    [destruct (Cache.expiresAt entry <? now)|]; cbn [snd];
    repeat split; cbn [Cache.cache Cache.with_cache]; intros k Hk.
  - now apply jsmap_get_remove_other.
  - rewrite jsmap_get_set_other by congruence.
    now apply jsmap_get_remove_other.
Qed.

(** [set] with the default TTL on a cache of capacity 1 or more. *)
Lemma cache_set_stores now key (v : T) c :
  1 <= Cache.maxSize c ->
  exists c',
    Cache.set now key v None c = Some c'
    /\ JsMap.get key (Cache.cache c')
       = Some {| Cache.value := v; Cache.expiresAt := now + Cache.ttl c |}
    /\ Cache.maxSize c' = Cache.maxSize c
    /\ Cache.ttl c' = Cache.ttl c
    /\ (forall k, k <> key ->
          JsMap.get k (Cache.cache c) = None ->
          JsMap.get k (Cache.cache c') = None).
Proof.
  intros Hcap. rewrite set_closed_form by assumption.
  eexists. split; [reflexivity|].
  cbn [Cache.cache Cache.with_cache Cache.maxSize Cache.ttl Cache.default].
  split; [apply jsmap_get_set_same|]. split; [reflexivity|].
  split; [reflexivity|].
  intros k Hk Habs. rewrite jsmap_get_set_other by congruence.
  now apply jsmap_get_skipn_None.
Qed.

End CacheFacts.

(* ===================================================================== *)
(** ** Properties of the cache                                            *)
(* ===================================================================== *)

Section CacheProperties.
Context {T : Type}.
Implicit Types (c : Cache.t T) (m : JsMap.t (Cache.CacheEntry T)).

(** C2, as the code has it. A cache that holds [maxSize] entries, one of
    them under [key] and not the oldest one: [set(key, v)] first drops
    the oldest entry, the one of another key, and then writes the new
    value and expiry in the place where [key] already was. One entry
    fewer is stored, the entry of the other key is gone, and the order
    of the keys that are left is the one they had, so [key] has not moved
    to the recent end. *)
Theorem cache_set_overwrite_at_capacity_evicts
    now key v ttl_arg c k0 e0 rest e :
  Cache.cache c = (k0, e0) :: rest ->
  JsMap.wf (Cache.cache c) ->
  Cache.size c = Cache.maxSize c ->
  key <> k0 ->
  JsMap.get key rest = Some e ->
  let entry := {| Cache.value := v;
                  Cache.expiresAt :=
                    now + Cache.default (Cache.ttl c) ttl_arg |} in
  exists c',
    Cache.set now key v ttl_arg c = Some c'
    /\ JsMap.get key (Cache.cache c') = Some entry
    /\ Cache.size c' = Cache.size c - 1
    /\ JsMap.get k0 (Cache.cache c) = Some e0
    /\ JsMap.get k0 (Cache.cache c') = None
    /\ JsMap.keys (Cache.cache c') = JsMap.keys rest.
Proof.
  intros Hm Hwf Hfull Hne Hin entry.
  eexists. split; [now apply (set_at_capacity _ _ _ _ _ k0 e0 rest)|].
  simpl. fold entry.
  rewrite Hm in Hwf. apply jsmap_wf_cons_inv in Hwf as [Hk0 _].
  repeat split.
  - apply jsmap_get_set_same.
  - unfold Cache.size, JsMap.size, Cache.with_cache. cbn [Cache.cache].
    rewrite (jsmap_length_set_present _ _ _ _ Hin), Hm.
    cbn [List.length]. lia.
  - rewrite Hm. simpl. now rewrite String.eqb_refl.
  - now rewrite jsmap_get_set_other.
  - now apply jsmap_keys_set_present with (e0 := e).
Qed.

(** C3, as the code has it. With [maxSize] 0 the test
    [this.cache.size >= this.maxSize] of the loop of [set] holds for
    every map, the empty one too, on which the body does nothing: no
    number of turns brings the loop to its end, and [set] does not
    return. *)
Theorem cache_set_capacity_0_never_returns
    (fuel : nat) (now : Z) (key : string) (v : T) (ttl_arg : option Z)
    (m : JsMap.t (Cache.CacheEntry T)) (ttl : Z) :
  let c := {| Cache.cache := m; Cache.ttl := ttl; Cache.maxSize := 0 |} in
  Cache.evictLoop fuel 0 m = None
  /\ Cache.set_fuel fuel now key v ttl_arg c = None
  /\ Cache.set now key v ttl_arg c = None.
Proof.
  intros c.
  assert (Hloop : forall n, Cache.evictLoop n 0 m = None)
    by (intros n; apply evictLoop_unbounded; lia).
  unfold Cache.set, Cache.set_fuel. subst c.
  cbn [Cache.maxSize Cache.cache]. now rewrite !Hloop.
Qed.

(** C4. A cache made with a capacity [maxSize >= 1] starts within its
    capacity; every sequence of [get], [set], [has], [delete], [clear]
    and [prune] on it returns and ends within the capacity; each single
    operation returns and keeps a cache within its capacity; and [set]
    gets there by evicting first: its loop ends with fewer than [maxSize]
    entries, to which the one insertion is then made. *)
Theorem cache_size_within_capacity (options : Cache.CacheOptions) :
  1 <= Cache.default 1000 (Cache.opt_maxSize options) ->
  let c0 : Cache.t T := Cache.make options in
  Cache.size c0 <= Cache.maxSize c0
  /\ (forall ops, exists c,
         Cache.run ops c0 = Some c
         /\ Cache.maxSize c = Cache.maxSize c0
         /\ Cache.size c <= Cache.maxSize c)
  /\ (forall op c,
         Cache.maxSize c = Cache.maxSize c0 ->
         Cache.size c <= Cache.maxSize c ->
         exists c', Cache.step op c = Some c'
                    /\ Cache.maxSize c' = Cache.maxSize c
                    /\ Cache.size c' <= Cache.maxSize c')
  /\ (forall now key v ttl_arg c,
         Cache.maxSize c = Cache.maxSize c0 ->
         exists m,
           Cache.evictLoop (S (List.length (Cache.cache c)))
             (Cache.maxSize c) (Cache.cache c) = Some m
           /\ JsMap.size m < Cache.maxSize c
           /\ Cache.set now key v ttl_arg c
              = Some (Cache.with_cache c
                        (JsMap.set key
                           {| Cache.value := v;
                              Cache.expiresAt :=
                                now + Cache.default (Cache.ttl c) ttl_arg |}
                           m))).
Proof.
  intros Hcap c0.
  assert (Hcap0 : 1 <= Cache.maxSize c0) by exact Hcap.
  assert (Hinit : Cache.size c0 <= Cache.maxSize c0)
    by (unfold Cache.size, JsMap.size; simpl; lia).
  split; [exact Hinit|]. split; [|split].
  - intros ops. now apply run_within_capacity.
  - intros op c Hmax Hinv.
    destruct (step_within_capacity op c) as (c' & Hstep & Hinv');
      [lia|assumption|].
    exists c'. split; [assumption|]. split; [|assumption].
    now apply (maxSize_step op).
  - intros now key v ttl_arg c Hmax.
    eexists. split; [apply evictLoop_enough; lia|].
    split.
    + pose proof (length_skipn_evicted (Cache.maxSize c) (Cache.cache c)).
      unfold JsMap.size. lia.
    + apply set_closed_form. lia.
Qed.

(** Eviction follows the order of the map. A cache that holds [maxSize]
    entries, the first of the map being that of [k0]. (A key goes to the
    end of the map when it is inserted and when [get] finds it; a [set]
    that overwrites it leaves it where it is.)
    - Inserting a key that is not in the cache drops the entry of [k0]
      and no other: the other entries are kept in their order, the new
      one is added at the recent end, and [maxSize] entries are stored.
    - [get] of a live key returns its value and moves it to the recent
      end. When the cache holds another key as well, a following
      insertion of a new key leaves the key that was read in the cache,
      still to be read, and drops the oldest of the other keys. *)
Theorem cache_lru_eviction c k0 e0 rest :
  Cache.cache c = (k0, e0) :: rest ->
  JsMap.wf (Cache.cache c) ->
  Cache.size c = Cache.maxSize c ->
  (forall now key v ttl_arg,
      JsMap.get key (Cache.cache c) = None ->
      let entry := {| Cache.value := v;
                      Cache.expiresAt :=
                        now + Cache.default (Cache.ttl c) ttl_arg |} in
      Cache.set now key v ttl_arg c
      = Some (Cache.with_cache c (rest ++ [(key, entry)]))
      /\ JsMap.get k0 (rest ++ [(key, entry)]) = None
      /\ JsMap.get key (rest ++ [(key, entry)]) = Some entry
      /\ (forall k, k <> k0 -> k <> key ->
            JsMap.get k (rest ++ [(key, entry)])
            = JsMap.get k (Cache.cache c))
      /\ JsMap.size (rest ++ [(key, entry)]) = Cache.maxSize c)
  /\ (forall t1 key e,
         JsMap.get key (Cache.cache c) = Some e ->
         t1 <= Cache.expiresAt e ->
         let m1 := JsMap.remove key (Cache.cache c) ++ [(key, e)] in
         Cache.get t1 key c = (Some (Cache.value e), Cache.with_cache c m1)
         /\ (forall t2 key' v ttl_arg,
                rest <> [] ->
                JsMap.get key' (Cache.cache c) = None ->
                let entry := {| Cache.value := v;
                                Cache.expiresAt :=
                                  t2 + Cache.default (Cache.ttl c) ttl_arg |}
                in
                Cache.set t2 key' v ttl_arg (Cache.with_cache c m1)
                = Some (Cache.with_cache c (tl m1 ++ [(key', entry)]))
                /\ JsMap.firstKey m1 <> Some key
                /\ JsMap.get key (tl m1 ++ [(key', entry)]) = Some e
                /\ (forall t3, t3 <= Cache.expiresAt e ->
                      fst (Cache.get t3 key
                             (Cache.with_cache c
                                (tl m1 ++ [(key', entry)])))
                      = Some (Cache.value e)))).
Proof.
  intros Hm Hwf Hfull.
  pose proof Hwf as Hwf0. rewrite Hm in Hwf0.
  apply jsmap_wf_cons_inv in Hwf0 as [Hk0 Hwfrest].
  split.
  - intros now key v ttl_arg Hfresh entry.
    assert (Hne : key <> k0).
    { intros ->. rewrite Hm in Hfresh. simpl in Hfresh.
      now rewrite String.eqb_refl in Hfresh. }
    assert (Hfresh' : JsMap.get key rest = None).
    { rewrite Hm in Hfresh. simpl in Hfresh.
      destruct (String.eqb_spec key k0); congruence. }
    rewrite (set_at_capacity _ _ _ _ _ k0 e0 rest Hm Hfull).
    fold entry. rewrite (jsmap_set_absent _ _ _ Hfresh').
    split; [reflexivity|]. split; [|split; [|split]].
    + rewrite jsmap_get_app_r by assumption. simpl.
      destruct (String.eqb_spec k0 key); congruence.
    + rewrite jsmap_get_app_r by assumption. simpl.
      now rewrite String.eqb_refl.
    + intros k Hk0' Hk. rewrite Hm. simpl.
      destruct (String.eqb_spec k k0); [congruence|].
      destruct (JsMap.get k rest) as [e|] eqn:Hget.
      * now apply jsmap_get_app_l.
      * rewrite jsmap_get_app_r by assumption. simpl.
        destruct (String.eqb_spec k key); congruence.
    + unfold Cache.size, JsMap.size in *. rewrite Hm in Hfull.
      rewrite length_app. simpl in *. lia.
  - intros t1 key e Hget Hlive m1.
    split; [now apply get_hit|].
    intros t2 key' v ttl_arg Hrest Hfresh entry.
    assert (Hlen1 : List.length m1 = List.length (Cache.cache c)).
    { unfold m1. rewrite length_app. simpl.
      pose proof (jsmap_length_remove_present _ _ _ Hget). lia. }
    assert (Hfresh1 : JsMap.get key' m1 = None).
    { unfold m1.
      assert (key' <> key) by congruence.
      rewrite jsmap_get_app_r.
      - simpl. destruct (String.eqb_spec key' key); congruence.
      - rewrite jsmap_get_remove_other by congruence. assumption. }
    assert (Hhead : exists k1 e1 rest1,
               m1 = (k1, e1) :: rest1 /\ k1 <> key
               /\ JsMap.get key rest1 = Some e
               /\ JsMap.get key' rest1 = None).
    { unfold m1 in *. rewrite Hm in *. simpl in *.
      destruct (String.eqb_spec key k0) as [->|Hne].
      - destruct rest as [|[k1 e1] rest1]; [congruence|].
        exists k1, e1, (rest1 ++ [(k0, e)]).
        simpl in Hk0, Hfresh1.
        destruct (String.eqb_spec k0 k1) as [->|Hk]; [discriminate|].
        destruct (String.eqb_spec key' k1); [discriminate|].
        repeat split; [congruence| |assumption].
        rewrite jsmap_get_app_r by assumption. simpl.
        now rewrite String.eqb_refl.
      - exists k0, e0, (JsMap.remove key rest ++ [(key, e)]).
        simpl in Hfresh1.
        destruct (String.eqb_spec key' k0); [discriminate|].
        repeat split; [congruence| |assumption].
        rewrite jsmap_get_app_r by now apply jsmap_get_remove_same.
        simpl. now rewrite String.eqb_refl. }
    destruct Hhead as (k1 & e1 & rest1 & Hm1 & Hk1 & Hkey1 & Hfresh1').
    assert (Hset : Cache.set t2 key' v ttl_arg (Cache.with_cache c m1)
                   = Some (Cache.with_cache c (tl m1 ++ [(key', entry)]))).
    { rewrite (set_at_capacity _ _ _ _ _ k1 e1 rest1).
      - simpl. fold entry. rewrite Hm1. simpl.
        now rewrite jsmap_set_absent.
      - exact Hm1.
      - unfold Cache.size, JsMap.size in *. simpl. now rewrite Hlen1. }
    assert (Hkept : JsMap.get key (tl m1 ++ [(key', entry)]) = Some e)
      by (rewrite Hm1; simpl; now apply jsmap_get_app_l).
    split; [exact Hset|]. split; [|split].
    + rewrite Hm1. simpl. congruence.
    + exact Hkept.
    + intros t3 Hlive3. unfold Cache.get. simpl. rewrite Hkept.
      destruct (Z.ltb_spec (Cache.expiresAt e) t3); [lia|reflexivity].
Qed.

(** C6. [has(key)] answers [true] exactly when [get(key)] on the same
    cache returns a value, and leaves the cache as [get] leaves it; it
    answers [true] exactly for a key that is stored with an expiry not
    yet passed. For an entry that has expired both report the key
    absent and both remove the entry. *)
Theorem cache_has_iff_get now key c :
  (fst (Cache.has now key c) = true <-> fst (Cache.get now key c) <> None)
  /\ snd (Cache.has now key c) = snd (Cache.get now key c)
  /\ (fst (Cache.has now key c) = true
      <-> exists e, JsMap.get key (Cache.cache c) = Some e
                    /\ now <= Cache.expiresAt e)
  /\ (forall e,
         JsMap.get key (Cache.cache c) = Some e ->
         Cache.expiresAt e < now ->
         fst (Cache.has now key c) = false
         /\ fst (Cache.get now key c) = None
         /\ snd (Cache.has now key c)
            = Cache.with_cache c (JsMap.remove key (Cache.cache c))).
Proof.
  unfold Cache.has, Cache.get.
  destruct (JsMap.get key (Cache.cache c)) as [entry|] eqn:Hget.
  - destruct (Z.ltb_spec (Cache.expiresAt entry) now) as [Hexp|Hlive];
      cbn [fst snd].
    + split; [split; congruence|]. split; [reflexivity|].
      split; [split; [discriminate|]|].
      * intros (e & [= <-] & He). lia.
      * intros e [= <-] _. repeat split.
    + split; [split; congruence|]. split; [reflexivity|].
      split; [split; [now exists entry|reflexivity]|].
      intros e [= <-] He. lia.
  - cbn [fst snd]. split; [split; congruence|]. split; [reflexivity|].
    split; [split; [discriminate|]|].
    + intros (e & He & _). discriminate.
    + intros e He. discriminate.
Qed.

(** C10. [delete(key)] does not look at the expiry: for an entry that is
    stored and has expired it returns [true] and removes the entry, while
    [get] and [has] on the same cache report the key absent. *)
Theorem cache_delete_ignores_expiry now key c e :
  JsMap.get key (Cache.cache c) = Some e ->
  Cache.expiresAt e < now ->
  Cache.delete key c
  = (true, Cache.with_cache c (JsMap.remove key (Cache.cache c)))
  /\ fst (Cache.get now key c) = None
  /\ fst (Cache.has now key c) = false.
Proof.
  intros Hget Hexp.
  unfold Cache.delete, JsMap.delete, JsMap.has, Cache.has, Cache.get.
  rewrite Hget.
  destruct (Z.ltb_spec (Cache.expiresAt e) now); [|lia].
  repeat split.
Qed.

End CacheProperties.

(* ===================================================================== *)
(** ** The rate limiter                                                   *)
(* ===================================================================== *)

Section RateLimiterFacts.
Context {Q : Type}.
Implicit Types (l : RateLimiter.t Q) (queue : list Q).

(** The loop of [processQueue] serves the head of the queue, one request
    per token, as long as both last. *)
Lemma processQueueLoop_closed_form tokens queue :
  let n := Nat.min (List.length queue) (Z.to_nat tokens) in
  RateLimiter.processQueueLoop tokens queue
  = (tokens - Z.of_nat n, skipn n queue,
     map RateLimiter.Resolve (firstn n queue)).
Proof.
  revert tokens. induction queue as [|request rest IH]; intros tokens.
  - simpl. f_equal. f_equal. lia.
  - cbn [RateLimiter.processQueueLoop].
    destruct (Z.ltb_spec 0 tokens) as [Hpos|Hnone].
    + rewrite IH. cbn zeta.
      replace (Z.to_nat tokens) with (S (Z.to_nat (tokens - 1))) by lia.
      cbn [List.length Nat.min skipn firstn map].
      f_equal. f_equal. lia.
    + cbn zeta. replace (Z.to_nat tokens) with O by lia.
      rewrite Nat.min_0_r. cbn [skipn firstn map]. f_equal. f_equal. lia.
Qed.

Lemma processQueue_lastRefill l :
  RateLimiter.lastRefill (fst (RateLimiter.processQueue l))
  = RateLimiter.lastRefill l.
Proof.
  unfold RateLimiter.processQueue.
  destruct (RateLimiter.processQueueLoop _ _) as [[tokens' queue'] settled].
  destruct queue'; cbn [fst]; unfold RateLimiter.stopRefillTimer;
    cbn [RateLimiter.refillTimer RateLimiter.with_queue
         RateLimiter.with_tokens];
    try destruct (RateLimiter.refillTimer l); reflexivity.
Qed.

Lemma processQueue_tokens l :
  RateLimiter.tokens (fst (RateLimiter.processQueue l))
  = RateLimiter.tokens l
    - Z.of_nat (List.length (snd (RateLimiter.processQueue l))).
Proof.
  unfold RateLimiter.processQueue.
  rewrite processQueueLoop_closed_form. cbn zeta.
  set (n := Nat.min _ _).
  assert (Hn : List.length
                 (map (@RateLimiter.Resolve Q)
                    (firstn n (RateLimiter.queue l))) = n)
    by (rewrite length_map, length_firstn; unfold n; lia).
  cbn [snd fst]. rewrite Hn.
  destruct (skipn n (RateLimiter.queue l));
    unfold RateLimiter.stopRefillTimer;
    cbn [RateLimiter.refillTimer RateLimiter.with_queue
         RateLimiter.with_tokens];
    try destruct (RateLimiter.refillTimer l); reflexivity.
Qed.

Lemma processQueue_empty_queue l :
  RateLimiter.queue l = [] ->
  RateLimiter.tokens (fst (RateLimiter.processQueue l))
  = RateLimiter.tokens l.
Proof.
  intros Hq. unfold RateLimiter.processQueue. rewrite Hq.
  cbn [RateLimiter.processQueueLoop fst].
  unfold RateLimiter.stopRefillTimer.
  cbn [RateLimiter.refillTimer RateLimiter.with_queue
       RateLimiter.with_tokens].
  destruct (RateLimiter.refillTimer l); reflexivity.
Qed.

(** What [processQueue] leaves, field by field. *)
Lemma processQueue_fields l :
  let n := Nat.min (List.length (RateLimiter.queue l))
             (Z.to_nat (RateLimiter.tokens l)) in
  let l' := fst (RateLimiter.processQueue l) in
  RateLimiter.tokens l' = RateLimiter.tokens l - Z.of_nat n
  /\ RateLimiter.queue l' = skipn n (RateLimiter.queue l)
  /\ RateLimiter.maxRequests l' = RateLimiter.maxRequests l
  /\ RateLimiter.interval l' = RateLimiter.interval l
  /\ RateLimiter.shouldQueue l' = RateLimiter.shouldQueue l
  /\ RateLimiter.maxQueueSize l' = RateLimiter.maxQueueSize l.
Proof.
  unfold RateLimiter.processQueue.
  rewrite processQueueLoop_closed_form. cbn zeta.
  set (n := Nat.min _ _). cbn [fst].
  destruct (skipn n (RateLimiter.queue l)) eqn:Hskip;
    unfold RateLimiter.stopRefillTimer;
    cbn [RateLimiter.refillTimer RateLimiter.with_queue
         RateLimiter.with_tokens];
    try destruct (RateLimiter.refillTimer l); repeat split.
Qed.

Lemma steady_refill now l :
  RateLimiter.steady l -> RateLimiter.steady (fst (RateLimiter.refill now l)).
Proof.
  intros (Hcap & Hi & Htok & Hq & Hoff). unfold RateLimiter.refill.
  destruct (Z.leb_spec (RateLimiter.interval l)
              (now - RateLimiter.lastRefill l)) as [He|He];
    [|now repeat split].
  set (l0 := RateLimiter.with_lastRefill _ _).
  destruct (processQueue_fields l0) as (Ht & Hq' & Hm & Hi' & Hs & Hmq).
  assert (Hn : 1 <= (now - RateLimiter.lastRefill l) / RateLimiter.interval l)
    by (apply Z.div_le_lower_bound; lia).
  assert (Hrefilled : 1 <= RateLimiter.tokens l0).
  { unfold l0. cbn [RateLimiter.tokens RateLimiter.with_lastRefill
                      RateLimiter.with_tokens]. nia. }
  unfold RateLimiter.steady.
  rewrite Ht, Hq', Hm, Hi', Hs, Hmq.
  change (RateLimiter.maxRequests l0) with (RateLimiter.maxRequests l).
  change (RateLimiter.interval l0) with (RateLimiter.interval l).
  change (RateLimiter.queue l0) with (RateLimiter.queue l).
  change (RateLimiter.shouldQueue l0) with (RateLimiter.shouldQueue l).
  change (RateLimiter.maxQueueSize l0) with (RateLimiter.maxQueueSize l).
  repeat split; try assumption.
  - lia.
  - destruct Hq as [Hq|Hq]; [left; rewrite Hq; apply skipn_nil|].
    right. rewrite length_skipn. lia.
  - intros Hs'. rewrite (Hoff Hs'). apply skipn_nil.
Qed.

Lemma steady_make now options :
  1 <= Cache.default 50 (RateLimiter.opt_maxRequests options) ->
  0 < Cache.default 1000 (RateLimiter.opt_interval options) ->
  RateLimiter.steady (RateLimiter.make (Q := Q) now options).
Proof.
  intros Hcap Hi. unfold RateLimiter.steady, RateLimiter.make.
  cbn [RateLimiter.maxRequests RateLimiter.interval RateLimiter.tokens
       RateLimiter.queue].
  repeat split; auto; lia.
Qed.

Lemma steady_acquire now request l :
  RateLimiter.steady l ->
  RateLimiter.steady (snd (fst (RateLimiter.acquire now request l))).
Proof.
  intros Hsteady. apply (steady_refill now) in Hsteady.
  unfold RateLimiter.acquire.
  destruct (RateLimiter.refill now l) as [l1 settled]. cbn [fst] in Hsteady.
  pose proof Hsteady as (Hcap & Hi & Htok & Hq & Hoff).
  destruct (Z.ltb_spec 0 (RateLimiter.tokens l1)) as [Hpos|Hnone];
    cbn [fst snd].
  - unfold RateLimiter.steady.
    cbn [RateLimiter.maxRequests RateLimiter.interval RateLimiter.tokens
         RateLimiter.queue RateLimiter.shouldQueue RateLimiter.maxQueueSize
         RateLimiter.with_tokens].
    repeat split; auto; lia.
  - destruct (RateLimiter.shouldQueue l1) eqn:Hqueue; cbn [negb fst snd];
      [|exact Hsteady].
    destruct (Z.leb_spec (RateLimiter.maxQueueSize l1)
                (Z.of_nat (List.length (RateLimiter.queue l1))))
      as [Hfull|Hroom]; cbn [fst snd]; [exact Hsteady|].
    unfold RateLimiter.steady, RateLimiter.startRefillTimer.
    destruct (RateLimiter.refillTimer l1);
      cbn [RateLimiter.maxRequests RateLimiter.interval RateLimiter.tokens
           RateLimiter.queue RateLimiter.shouldQueue
           RateLimiter.maxQueueSize RateLimiter.with_queue
           RateLimiter.with_refillTimer];
      (repeat split; auto; [|congruence]);
      right; rewrite length_app; cbn [List.length]; lia.
Qed.

Lemma steady_tryAcquire now l :
  RateLimiter.steady l ->
  RateLimiter.steady (snd (fst (RateLimiter.tryAcquire now l))).
Proof.
  intros Hsteady. apply (steady_refill now) in Hsteady.
  unfold RateLimiter.tryAcquire.
  destruct (RateLimiter.refill now l) as [l1 settled]. cbn [fst] in Hsteady.
  destruct (Z.ltb_spec 0 (RateLimiter.tokens l1)) as [Hpos|Hnone];
    cbn [fst snd]; [|exact Hsteady].
  destruct Hsteady as (Hcap & Hi & Htok & Hq & Hoff).
  unfold RateLimiter.steady.
  cbn [RateLimiter.maxRequests RateLimiter.interval RateLimiter.tokens
       RateLimiter.queue RateLimiter.shouldQueue RateLimiter.maxQueueSize
       RateLimiter.with_tokens].
  repeat split; auto; lia.
Qed.

(** A failing [acquire] on a steady limiter has refilled nothing: the
    limiter it returns is the one it was called on. *)
Lemma steady_acquire_failure now request l message :
  RateLimiter.steady l ->
  fst (fst (RateLimiter.acquire now request l)) = RateLimiter.Failed message ->
  RateLimiter.acquire now request l = (RateLimiter.Failed message, l, []).
Proof.
  intros (Hcap & Hi & Htok & Hq & Hoff).
  unfold RateLimiter.acquire, RateLimiter.refill.
  destruct (Z.leb_spec (RateLimiter.interval l)
              (now - RateLimiter.lastRefill l)) as [He|He].
  - set (l0 := RateLimiter.with_lastRefill _ _).
    destruct (processQueue_fields l0) as (Ht & Hq' & _ & _ & Hs & Hmq).
    assert (Hn : 1 <= (now - RateLimiter.lastRefill l)
                      / RateLimiter.interval l)
      by (apply Z.div_le_lower_bound; lia).
    assert (Hrefilled : 1 <= RateLimiter.tokens l0).
    { unfold l0. cbn [RateLimiter.tokens RateLimiter.with_lastRefill
                        RateLimiter.with_tokens]. nia. }
    change (RateLimiter.queue l0) with (RateLimiter.queue l) in *.
    change (RateLimiter.shouldQueue l0) with (RateLimiter.shouldQueue l) in *.
    change (RateLimiter.maxQueueSize l0) with (RateLimiter.maxQueueSize l)
      in *.
    destruct (RateLimiter.processQueue l0) as [l1 settled].
    cbn [fst] in Ht, Hq', Hs, Hmq.
    destruct (Z.ltb_spec 0 (RateLimiter.tokens l1)) as [Hpos|Hnone];
      cbn [fst snd]; [discriminate|].
    assert (Hqueued : RateLimiter.queue l <> [])
      by (intros Hnil; rewrite Hnil in Ht; cbn [List.length Nat.min] in Ht; lia).
    destruct (RateLimiter.shouldQueue l1) eqn:Hqueue;
      [|exfalso; apply Hqueued, Hoff; congruence].
    cbn [negb].
    destruct (Z.leb_spec (RateLimiter.maxQueueSize l1)
                (Z.of_nat (List.length (RateLimiter.queue l1))))
      as [Hfull|Hroom]; cbn [fst snd]; [|discriminate].
    exfalso. destruct Hq as [Hq|Hq]; [contradiction|].
    rewrite Hq', length_skipn, Hmq in Hfull.
    destruct (RateLimiter.queue l); [contradiction|].
    cbn [List.length] in *. lia.
  - destruct (Z.ltb_spec 0 (RateLimiter.tokens l)); cbn [fst snd];
      [discriminate|].
    destruct (negb (RateLimiter.shouldQueue l)); cbn [fst snd];
      [now intros [= <-]|].
    destruct (RateLimiter.maxQueueSize l <=? _); cbn [fst snd];
      [now intros [= <-]|discriminate].
Qed.

Lemma resetLoop_closed_form queue :
  RateLimiter.resetLoop queue
  = ([], map (fun request =>
                RateLimiter.Reject request "Rate limiter was reset")
           queue).
Proof.
  induction queue as [|request rest IH]; simpl; [reflexivity|].
  now rewrite IH.
Qed.

Lemma steady_reset now l :
  RateLimiter.steady l -> RateLimiter.steady (fst (RateLimiter.reset now l)).
Proof.
  intros (Hcap & Hi & _). unfold RateLimiter.reset.
  rewrite resetLoop_closed_form. unfold RateLimiter.stopRefillTimer.
  cbn [RateLimiter.refillTimer RateLimiter.with_tokens
       RateLimiter.with_lastRefill].
  destruct (RateLimiter.refillTimer l); cbn [fst]; unfold RateLimiter.steady;
    cbn [RateLimiter.maxRequests RateLimiter.interval RateLimiter.tokens
         RateLimiter.queue RateLimiter.shouldQueue RateLimiter.maxQueueSize
         RateLimiter.with_queue RateLimiter.with_refillTimer
         RateLimiter.with_lastRefill RateLimiter.with_tokens];
    repeat split; auto; lia.
Qed.

End RateLimiterFacts.

Section RateLimiterProperties.
Context {Q : Type}.
Implicit Types (l : RateLimiter.t Q) (queue : list Q).

(** The arithmetic of [refill] when a whole interval has gone by. *)
Lemma refill_anchor_arith now anchor interval :
  0 < interval -> interval <= now - anchor ->
  now - Z.rem (now - anchor) interval
  = anchor + (now - anchor) / interval * interval
  /\ 0 <= now - (anchor + (now - anchor) / interval * interval) < interval
  /\ 1 <= (now - anchor) / interval.
Proof.
  intros Hi He.
  rewrite Z.rem_mod_nonneg by lia.
  pose proof (Z.div_mod (now - anchor) interval ltac:(lia)) as Hdm.
  pose proof (Z.mod_pos_bound (now - anchor) interval Hi) as Hm.
  assert (1 <= (now - anchor) / interval)
    by (apply Z.div_le_lower_bound; lia).
  lia.
Qed.

(** C7. The refill step of a limiter with capacity [maxRequests],
    interval [interval > 0], [tokens] tokens and anchor [lastRefill],
    at time [now], with [elapsed = now - lastRefill].
    - When [elapsed >= interval], with [intervals = floor (elapsed /
      interval)]: the token count is set to [min maxRequests (tokens +
      intervals * maxRequests)] and the anchor to [lastRefill +
      intervals * interval], and the queue is then served from that
      state. The anchor of the result is that one, less than one interval
      behind [now]; the tokens of the result are that count, less one for
      each queued request that was granted, so the count itself when
      nothing is queued.
    - When [elapsed < interval], nothing changes. *)
Theorem limiter_refill_step now l :
  0 < RateLimiter.interval l ->
  let elapsed := now - RateLimiter.lastRefill l in
  let intervals := elapsed / RateLimiter.interval l in
  let refilled :=
    Z.min (RateLimiter.maxRequests l)
      (RateLimiter.tokens l + intervals * RateLimiter.maxRequests l) in
  let anchor :=
    RateLimiter.lastRefill l + intervals * RateLimiter.interval l in
  (RateLimiter.interval l <= elapsed ->
     RateLimiter.refill now l
     = RateLimiter.processQueue
         (RateLimiter.with_lastRefill
            (RateLimiter.with_tokens l refilled) anchor)
     /\ RateLimiter.lastRefill (fst (RateLimiter.refill now l)) = anchor
     /\ 0 <= now - RateLimiter.lastRefill (fst (RateLimiter.refill now l))
        < RateLimiter.interval l
     /\ 1 <= intervals
     /\ RateLimiter.tokens (fst (RateLimiter.refill now l))
        = refilled
          - Z.of_nat (List.length (snd (RateLimiter.refill now l)))
     /\ (RateLimiter.queue l = [] ->
         RateLimiter.tokens (fst (RateLimiter.refill now l)) = refilled))
  /\ (elapsed < RateLimiter.interval l ->
      RateLimiter.refill now l = (l, [])).
Proof.
  intros Hi elapsed intervals refilled anchor. split.
  - intros He.
    destruct (refill_anchor_arith now (RateLimiter.lastRefill l)
                (RateLimiter.interval l) Hi He) as (Hanchor & Hfrac & Hn).
    assert (Hrefill :
              RateLimiter.refill now l
              = RateLimiter.processQueue
                  (RateLimiter.with_lastRefill
                     (RateLimiter.with_tokens l refilled) anchor)).
    { unfold RateLimiter.refill.
      destruct (Z.leb_spec (RateLimiter.interval l)
                  (now - RateLimiter.lastRefill l)); [|unfold elapsed in He; lia].
      now rewrite Hanchor. }
    rewrite Hrefill.
    split; [reflexivity|]. split; [apply processQueue_lastRefill|].
    split; [rewrite processQueue_lastRefill; exact Hfrac|].
    split; [exact Hn|].
    split; [apply processQueue_tokens|].
    intros Hq. now rewrite processQueue_empty_queue.
  - intros He. unfold RateLimiter.refill.
    destruct (Z.leb_spec (RateLimiter.interval l)
                (now - RateLimiter.lastRefill l)); [unfold elapsed in He; lia|].
    reflexivity.
Qed.

(** C8. [acquire] fails at once, its promise rejected before the call
    gives control back, exactly when, after its refill, no token is left
    and either queuing is off or the queue holds [maxQueueSize] requests;
    with queuing on, the failure is the one of the full queue. A call
    that fails at once returns the limiter as the refill left it, tokens
    and queue untouched, and settles nothing beyond what the refill
    settled; the handle of the call is not queued. On a steady limiter
    the refill of such a call has done nothing either: the call returns
    the limiter it was given, and settles no request. A call that is
    queued has taken no token and waits at the end of the queue; it can
    still fail, later: a [reset] that finds it there rejects it. *)
Theorem limiter_acquire_fails_iff now request l :
  let l1 := fst (RateLimiter.refill now l) in
  let result := fst (fst (RateLimiter.acquire now request l)) in
  let l' := snd (fst (RateLimiter.acquire now request l)) in
  let full :=
    RateLimiter.maxQueueSize l1
    <= Z.of_nat (List.length (RateLimiter.queue l1)) in
  ((exists message, result = RateLimiter.Failed message)
   <-> RateLimiter.tokens l1 <= 0
       /\ (RateLimiter.shouldQueue l1 = false \/ full))
  /\ (result = RateLimiter.Failed "Rate limit exceeded"
      <-> RateLimiter.tokens l1 <= 0 /\ RateLimiter.shouldQueue l1 = false)
  /\ (result = RateLimiter.Failed "Rate limit queue is full"
      <-> RateLimiter.tokens l1 <= 0
          /\ RateLimiter.shouldQueue l1 = true /\ full)
  /\ (forall message,
         result = RateLimiter.Failed message ->
         l' = l1
         /\ RateLimiter.tokens l' = RateLimiter.tokens l1
         /\ RateLimiter.queue l' = RateLimiter.queue l1
         /\ snd (RateLimiter.acquire now request l)
            = snd (RateLimiter.refill now l))
  /\ (RateLimiter.steady l ->
      forall message,
        result = RateLimiter.Failed message ->
        RateLimiter.acquire now request l
        = (RateLimiter.Failed message, l, []))
  /\ (result = RateLimiter.Queued ->
      RateLimiter.tokens l' = RateLimiter.tokens l1
      /\ RateLimiter.queue l' = RateLimiter.queue l1 ++ [request]
      /\ forall now',
           In (RateLimiter.Reject request "Rate limiter was reset")
             (snd (RateLimiter.reset now' l'))).
Proof.
  intros l1 result l' full. subst l1 result l' full.
  refine (conj _ (conj _ (conj _ (conj _ (conj _ _)))));
    [| | | |intros Hsteady message; now apply steady_acquire_failure|].
  5: { unfold RateLimiter.acquire.
       destruct (RateLimiter.refill now l) as [l1 settled]; cbn [fst snd].
       destruct (0 <? RateLimiter.tokens l1); cbn [fst snd]; [discriminate|].
       destruct (negb (RateLimiter.shouldQueue l1)); cbn [fst snd];
         [discriminate|].
       destruct (RateLimiter.maxQueueSize l1 <=? _); cbn [fst snd];
         [discriminate|].
       intros _. unfold RateLimiter.startRefillTimer.
       assert (Hin : forall now' (l2 : RateLimiter.t Q),
                  In request (RateLimiter.queue l2) ->
                  In (RateLimiter.Reject request "Rate limiter was reset")
                    (snd (RateLimiter.reset now' l2))).
       { intros now' l2 Hin. unfold RateLimiter.reset.
         rewrite resetLoop_closed_form. cbn [snd].
         apply (in_map (fun r => RateLimiter.Reject r _)).
         unfold RateLimiter.stopRefillTimer.
         destruct (RateLimiter.refillTimer _); exact Hin. }
       destruct (RateLimiter.refillTimer l1);
         cbn [RateLimiter.queue RateLimiter.tokens RateLimiter.with_queue
              RateLimiter.with_refillTimer];
         (split; [reflexivity|]; split; [reflexivity|]);
         intros now'; apply Hin;
         cbn [RateLimiter.queue RateLimiter.with_queue];
         apply in_or_app; right; now left. }
  all: unfold RateLimiter.acquire;
    destruct (RateLimiter.refill now l) as [l1 settled]; cbn [fst snd];
    (destruct (Z.ltb_spec 0 (RateLimiter.tokens l1)) as [Hpos|Hnone];
     [|destruct (RateLimiter.shouldQueue l1) eqn:Hqueue;
       [destruct (Z.leb_spec (RateLimiter.maxQueueSize l1)
                    (Z.of_nat (List.length (RateLimiter.queue l1))))
          as [Hfull|Hroom]|]]);
    cbn [negb fst snd];
    repeat split; intros;
    repeat match goal with
      | H : exists _, _ |- _ => destruct H
      | H : _ /\ _ |- _ => destruct H
      | H : _ \/ _ |- _ => destruct H
      end;
    try discriminate; try lia; eauto.
Qed.

(** C9. [reset()] at time [now] on a limiter with N queued requests:
    the tokens are [maxRequests], the anchor is [now], the timer is
    stopped, the queue is empty, and the [reject] of each of the N
    requests has been called once, in the order of the queue, with the
    error of the reset; the settings are unchanged. *)
Theorem limiter_reset_rejects_all now l :
  let l' := fst (RateLimiter.reset now l) in
  let settled := snd (RateLimiter.reset now l) in
  RateLimiter.tokens l' = RateLimiter.maxRequests l
  /\ RateLimiter.lastRefill l' = now
  /\ RateLimiter.refillTimer l' = false
  /\ RateLimiter.queue l' = []
  /\ settled
     = map (fun request =>
              RateLimiter.Reject request "Rate limiter was reset")
         (RateLimiter.queue l)
  /\ List.length settled = List.length (RateLimiter.queue l)
  /\ (forall request,
         In request (RateLimiter.queue l) ->
         In (RateLimiter.Reject request "Rate limiter was reset") settled)
  /\ (forall request, ~ In (RateLimiter.Resolve request) settled)
  /\ (RateLimiter.maxRequests l', RateLimiter.interval l',
      RateLimiter.shouldQueue l', RateLimiter.maxQueueSize l')
     = (RateLimiter.maxRequests l, RateLimiter.interval l,
        RateLimiter.shouldQueue l, RateLimiter.maxQueueSize l).
Proof.
  assert (Hreset :
            RateLimiter.reset now l
            = (RateLimiter.with_queue
                 (RateLimiter.stopRefillTimer
                    (RateLimiter.with_lastRefill
                       (RateLimiter.with_tokens l (RateLimiter.maxRequests l))
                       now))
                 [],
               map (fun request =>
                      RateLimiter.Reject request "Rate limiter was reset")
                 (RateLimiter.queue l))).
  { unfold RateLimiter.reset. rewrite resetLoop_closed_form.
    unfold RateLimiter.stopRefillTimer.
    cbn [RateLimiter.refillTimer RateLimiter.with_tokens
         RateLimiter.with_lastRefill].
    destruct (RateLimiter.refillTimer l); reflexivity. }
  rewrite Hreset. cbn [fst snd]. unfold RateLimiter.stopRefillTimer.
  cbn [RateLimiter.refillTimer RateLimiter.with_tokens
       RateLimiter.with_lastRefill].
  split; [destruct (RateLimiter.refillTimer l); reflexivity|].
  split; [destruct (RateLimiter.refillTimer l); reflexivity|].
  split; [destruct (RateLimiter.refillTimer l) eqn:Htimer;
          [reflexivity|exact Htimer]|].
  split; [reflexivity|]. split; [reflexivity|].
  split; [apply length_map|].
  split; [|split].
  - intros request Hin.
    now apply (in_map (fun r => RateLimiter.Reject r _)).
  - intros request Hin. apply in_map_iff in Hin as (r & Hr & _).
    discriminate.
  - destruct (RateLimiter.refillTimer l); reflexivity.
Qed.

End RateLimiterProperties.

(* ===================================================================== *)
(** ** The coordinator                                                    *)
(* ===================================================================== *)

Section CoordinatorFacts.
Context {P R F Q : Type}.
Variable upstream : nat -> P -> F + list R.
Implicit Types (g : Geocoder.t R Q) (w : Geocoder.World)
  (c : Cache.t (list R)).

(** After the admission: the upstream is asked once, and a result that
    is not empty is stored under the key with the default TTL. *)
Lemma afterAcquire_stores now parameters cacheKey g w c results :
  Geocoder.cache g = Some c ->
  1 <= Cache.maxSize c ->
  upstream (Geocoder.calls w) parameters = inr results ->
  results <> [] ->
  exists c',
    Geocoder.afterAcquire upstream now parameters cacheKey g w
    = Some (Geocoder.Returned results, Geocoder.with_cache g c',
            {| Geocoder.calls := S (Geocoder.calls w) |})
    /\ JsMap.get cacheKey (Cache.cache c')
       = Some {| Cache.value := results;
                 Cache.expiresAt := now + Cache.ttl c |}
    /\ Cache.maxSize c' = Cache.maxSize c
    /\ Cache.ttl c' = Cache.ttl c
    /\ (forall k, k <> cacheKey ->
          JsMap.get k (Cache.cache c) = None ->
          JsMap.get k (Cache.cache c') = None).
Proof.
  intros Hc Hcap Hup Hne.
  destruct (cache_set_stores now cacheKey results c Hcap)
    as (c' & Hset & Hrest).
  exists c'. split; [|exact Hrest].
  unfold Geocoder.afterAcquire, Geocoder.request. rewrite Hup, Hc.
  destruct results as [|r results]; [congruence|]. now rewrite Hset.
Qed.

(** After the admission, in general: the upstream is asked once. *)
Lemma afterAcquire_asks_once now parameters cacheKey g w c :
  Geocoder.cache g = Some c ->
  1 <= Cache.maxSize c ->
  exists g',
    Geocoder.afterAcquire upstream now parameters cacheKey g w
    = Some (Geocoder.answered (upstream (Geocoder.calls w) parameters), g',
            {| Geocoder.calls := S (Geocoder.calls w) |})
    /\ Geocoder.rateLimiter g' = Geocoder.rateLimiter g.
Proof.
  intros Hc Hcap. unfold Geocoder.afterAcquire, Geocoder.request.
  destruct (upstream (Geocoder.calls w) parameters) as [failure|results];
    [now eexists|].
  rewrite Hc. destruct results as [|r results]; [now eexists|].
  destruct (cache_set_stores now cacheKey (r :: results) c Hcap)
    as (c' & Hset & _).
  rewrite Hset. now eexists.
Qed.

(** An admitted call that has missed the cache goes on to the part after
    the admission, on the limiter that [acquire] left. *)
Lemma fromAcquire_admitted clock handle parameters cacheKey g w :
  Geocoder.admitted (Geocoder.t_acquire clock) handle g = true ->
  exists g' settled,
    Geocoder.cache g' = Geocoder.cache g
    /\ Geocoder.fromAcquire upstream clock handle parameters cacheKey g w
       = match Geocoder.afterAcquire upstream (Geocoder.t_set clock)
                 parameters cacheKey g' w with
         | Some (o, g'', w') => Some (o, g'', w', settled)
         | None => None
         end.
Proof.
  unfold Geocoder.admitted, Geocoder.fromAcquire.
  destruct (Geocoder.rateLimiter g) as [l|]; [|intros _; now exists g, []].
  destruct (RateLimiter.acquire _ handle l) as [[result l'] settled].
  cbn [fst]. destruct result; try discriminate. intros _.
  now exists (Geocoder.with_rateLimiter g l'), settled.
Qed.

(** A call whose key is stored and live returns the stored value; the
    upstream is not asked and the limiter is not touched. *)
Lemma fetch_hit clock handle parameters cacheKey g w c e :
  Geocoder.cache g = Some c ->
  JsMap.get cacheKey (Cache.cache c) = Some e ->
  Geocoder.t_get clock <= Cache.expiresAt e ->
  Geocoder.requestWithCacheAndRateLimit upstream clock handle parameters
    cacheKey g w
  = Some (Geocoder.Returned (Cache.value e),
          Geocoder.with_cache g
            (snd (Cache.get (Geocoder.t_get clock) cacheKey c)),
          w, []).
Proof.
  intros Hc Hget Hlive. unfold Geocoder.requestWithCacheAndRateLimit.
  rewrite Hc. unfold Cache.get. rewrite Hget.
  destruct (Z.ltb_spec (Cache.expiresAt e) (Geocoder.t_get clock)); [lia|].
  reflexivity.
Qed.

(** A call that misses the cache and is admitted asks the upstream
    once. *)
Lemma fetch_miss_admitted clock handle parameters cacheKey g w c :
  Geocoder.cache g = Some c ->
  1 <= Cache.maxSize c ->
  fst (Cache.get (Geocoder.t_get clock) cacheKey c) = None ->
  Geocoder.admitted (Geocoder.t_acquire clock) handle g = true ->
  exists g1 settled,
    Geocoder.cache g1
    = Some (snd (Cache.get (Geocoder.t_get clock) cacheKey c))
    /\ Geocoder.requestWithCacheAndRateLimit upstream clock handle
         parameters cacheKey g w
       = match Geocoder.afterAcquire upstream (Geocoder.t_set clock)
                 parameters cacheKey g1 w with
         | Some (o, g', w') => Some (o, g', w', settled)
         | None => None
         end.
Proof.
  intros Hc Hcap Hmiss Hadm. unfold Geocoder.requestWithCacheAndRateLimit.
  rewrite Hc.
  destruct (Cache.get (Geocoder.t_get clock) cacheKey c) as [[cached|] c1];
    [discriminate|]. cbn [snd].
  destruct (fromAcquire_admitted clock handle parameters cacheKey
              (Geocoder.with_cache g c1) w Hadm)
    as (g1 & settled & Hcache & Hfrom).
  exists g1, settled. split; [exact Hcache|exact Hfrom].
Qed.

End CoordinatorFacts.

Section CoordinatorProperties.
Context {P R F Q : Type}.
Variable upstream : nat -> P -> F + list R.
Implicit Types (g : Geocoder.t R Q) (w : Geocoder.World)
  (c : Cache.t (list R)).

(** C1, amended. The coordinator with the cache on, of capacity 1 or
    more. A call that misses the cache and is admitted at once asks the
    upstream; when the answer is a result that is NOT EMPTY, the call
    returns it, the upstream having been asked once. A second call with
    the same key whose clock reading is within the TTL of the stored
    entry returns the same result from the cache: the upstream is not
    asked (one call in all), the limiter is as the first call left it,
    and no request is settled. After these, a call with another key,
    one that was not in the cache, asks the upstream again when it is
    admitted: two calls in all. *)
Theorem coordinator_caches_nonempty_result
    clock1 clock2 handle1 handle2 parameters1 parameters2 cacheKey
    g w c results :
  Geocoder.cache g = Some c ->
  1 <= Cache.maxSize c ->
  fst (Cache.get (Geocoder.t_get clock1) cacheKey c) = None ->
  Geocoder.admitted (Geocoder.t_acquire clock1) handle1 g = true ->
  upstream (Geocoder.calls w) parameters1 = inr results ->
  results <> [] ->
  Geocoder.t_get clock2 <= Geocoder.t_set clock1 + Cache.ttl c ->
  let w1 := {| Geocoder.calls := S (Geocoder.calls w) |} in
  let w2 := {| Geocoder.calls := S (S (Geocoder.calls w)) |} in
  exists g1 settled1 g2,
    Geocoder.requestWithCacheAndRateLimit upstream clock1 handle1
      parameters1 cacheKey g w
    = Some (Geocoder.Returned results, g1, w1, settled1)
    /\ Geocoder.requestWithCacheAndRateLimit upstream clock2 handle2
         parameters2 cacheKey g1 w1
       = Some (Geocoder.Returned results, g2, w1, [])
    /\ Geocoder.rateLimiter g2 = Geocoder.rateLimiter g1
    /\ (forall clock3 handle3 parameters3 cacheKey',
           cacheKey' <> cacheKey ->
           JsMap.get cacheKey' (Cache.cache c) = None ->
           Geocoder.admitted (Geocoder.t_acquire clock3) handle3 g2 = true ->
           exists g3 settled3,
             Geocoder.requestWithCacheAndRateLimit upstream clock3 handle3
               parameters3 cacheKey' g2 w1
             = Some (Geocoder.answered
                       (upstream (S (Geocoder.calls w)) parameters3),
                     g3, w2, settled3)).
Proof.
  intros Hc Hcap Hmiss Hadm Hup Hne Httl w1 w2.
  (* the first call *)
  destruct (fetch_miss_admitted upstream clock1 handle1 parameters1
              cacheKey g w c Hc Hcap Hmiss Hadm)
    as (ga & settled1 & Hca & Hfetch1).
  destruct (cache_get_frame (Geocoder.t_get clock1) cacheKey c)
    as (Hmaxa & Httla & Hothera).
  set (ca := snd (Cache.get (Geocoder.t_get clock1) cacheKey c)) in *.
  destruct (afterAcquire_stores upstream (Geocoder.t_set clock1)
              parameters1 cacheKey ga w ca results Hca ltac:(lia) Hup Hne)
    as (c1 & Hafter & Hstored & Hmax1 & Httl1 & Hother1).
  rewrite Hafter in Hfetch1.
  set (g1 := Geocoder.with_cache ga c1) in *.
  (* the second call *)
  set (entry := {| Cache.value := results;
                   Cache.expiresAt := Geocoder.t_set clock1 + Cache.ttl ca |})
    in *.
  assert (Hlive : Geocoder.t_get clock2 <= Cache.expiresAt entry)
    by (unfold entry; cbn [Cache.expiresAt]; lia).
  pose proof (fetch_hit upstream clock2 handle2 parameters2 cacheKey g1 w1
                c1 entry eq_refl Hstored Hlive) as Hfetch2.
  destruct (cache_get_frame (Geocoder.t_get clock2) cacheKey c1)
    as (Hmax2 & Httl2 & Hother2).
  set (c2 := snd (Cache.get (Geocoder.t_get clock2) cacheKey c1)) in *.
  set (g2 := Geocoder.with_cache g1 c2) in *.
  exists g1, settled1, g2.
  split; [exact Hfetch1|]. split; [exact Hfetch2|].
  split; [reflexivity|].
  (* a call with another key *)
  intros clock3 handle3 parameters3 cacheKey' Hkey Habs Hadm3.
  assert (Habs2 : JsMap.get cacheKey' (Cache.cache c2) = None).
  { rewrite Hother2 by assumption. apply Hother1; [assumption|].
    now rewrite Hothera. }
  assert (Hmiss3 : fst (Cache.get (Geocoder.t_get clock3) cacheKey' c2)
                   = None)
    by (unfold Cache.get; now rewrite Habs2).
  destruct (fetch_miss_admitted upstream clock3 handle3 parameters3
              cacheKey' g2 w1 c2 eq_refl ltac:(lia) Hmiss3 Hadm3)
    as (gb & settled3 & Hcb & Hfetch3).
  destruct (cache_get_frame (Geocoder.t_get clock3) cacheKey' c2)
    as (Hmaxb & _ & _).
  destruct (afterAcquire_asks_once upstream (Geocoder.t_set clock3)
              parameters3 cacheKey' gb w1 _ Hcb ltac:(lia))
    as (g3 & Hafter3 & _).
  rewrite Hafter3 in Hfetch3.
  now exists g3, settled3.
Qed.

(** The same for a first call that had to wait in the queue of the
    limiter: when its promise is resolved and the upstream answers a
    result that is not empty, a later call with the same key within the
    TTL returns that result from the cache, without the upstream and
    without the limiter. *)
Lemma coordinator_resumed_call_caches
    now clock2 handle2 parameters1 parameters2 cacheKey g w c results :
  Geocoder.cache g = Some c ->
  1 <= Cache.maxSize c ->
  upstream (Geocoder.calls w) parameters1 = inr results ->
  results <> [] ->
  Geocoder.t_get clock2 <= now + Cache.ttl c ->
  let w1 := {| Geocoder.calls := S (Geocoder.calls w) |} in
  exists g1 g2,
    Geocoder.resumeResolved upstream now parameters1 cacheKey g w
    = Some (Geocoder.Returned results, g1, w1)
    /\ Geocoder.requestWithCacheAndRateLimit upstream clock2 handle2
         parameters2 cacheKey g1 w1
       = Some (Geocoder.Returned results, g2, w1, [])
    /\ Geocoder.rateLimiter g2 = Geocoder.rateLimiter g1.
Proof.
  intros Hc Hcap Hup Hne Httl w1.
  destruct (afterAcquire_stores upstream now parameters1 cacheKey g w c
              results Hc Hcap Hup Hne)
    as (c1 & Hafter & Hstored & _).
  set (entry := {| Cache.value := results;
                   Cache.expiresAt := now + Cache.ttl c |}) in *.
  assert (Hlive : Geocoder.t_get clock2 <= Cache.expiresAt entry)
    by (unfold entry; cbn [Cache.expiresAt]; lia).
  pose proof (fetch_hit upstream clock2 handle2 parameters2 cacheKey
                (Geocoder.with_cache g c1) w1 c1 entry eq_refl Hstored Hlive)
    as Hfetch2.
  eexists _, _. split; [exact Hafter|]. split; [exact Hfetch2|reflexivity].
Qed.

End CoordinatorProperties.

(* ===================================================================== *)
(** ** More on the cache: sweeping, round trips, deletion                 *)
(* ===================================================================== *)

Section CacheSweep.
Context {T : Type}.
Implicit Types (c : Cache.t T) (m : JsMap.t (Cache.CacheEntry T)).

Lemma jsmap_remove_middle k (e : Cache.CacheEntry T) pre post :
  JsMap.get k pre = None ->
  JsMap.remove k (pre ++ (k, e) :: post) = pre ++ post.
Proof.
  induction pre as [|[k' e'] pre IH]; simpl.
  - intros _. now rewrite String.eqb_refl.
  - destruct (String.eqb k k'); [discriminate|].
    intros H. now rewrite IH.
Qed.

Lemma jsmap_wf_app_inv pre (post : JsMap.t (Cache.CacheEntry T)) k e :
  JsMap.wf (pre ++ (k, e) :: post) ->
  JsMap.get k pre = None /\ JsMap.wf (pre ++ post).
Proof.
  unfold JsMap.wf, JsMap.keys. rewrite !map_app. simpl. intros H.
  split.
  - apply jsmap_get_None_not_in. unfold JsMap.keys. intros Hin.
    apply NoDup_remove_2 in H. apply H, in_or_app. now left.
  - now apply NoDup_remove_1 in H.
Qed.

(** The loop of [prune] over the entries [post] of a map [pre ++ post]. *)
Lemma pruneStep_fold_closed_form now
    (post pre : JsMap.t (Cache.CacheEntry T)) n :
  JsMap.wf (pre ++ post) ->
  fold_left (Cache.pruneStep now) post (n, pre ++ post)
  = (n + Z.of_nat (List.length
                     (filter (fun ke => negb (Cache.live now ke)) post)),
     pre ++ filter (Cache.live now) post).
Proof.
  revert pre n. induction post as [|[k e] post IH]; intros pre n Hwf.
  - simpl. f_equal. lia.
  - cbn [fold_left filter].
    assert (Hstep : Cache.pruneStep now (n, pre ++ (k, e) :: post) (k, e)
                    = if Cache.live now (k, e)
                      then (n, pre ++ (k, e) :: post)
                      else (n + 1, JsMap.remove k (pre ++ (k, e) :: post))).
    { unfold Cache.pruneStep, Cache.live. cbn [fst snd].
      now destruct (Cache.expiresAt e <? now). }
    rewrite Hstep. destruct (Cache.live now (k, e)); cbn [negb].
    + replace (pre ++ (k, e) :: post) with ((pre ++ [(k, e)]) ++ post)
        by now rewrite <- app_assoc.
      rewrite IH by (now rewrite <- app_assoc).
      now rewrite <- app_assoc.
    + destruct (jsmap_wf_app_inv _ _ _ _ Hwf) as [Hfresh Hwf'].
      rewrite jsmap_remove_middle by assumption.
      rewrite IH by assumption. cbn [List.length]. f_equal. lia.
Qed.

(** X1. [prune()] on a cache removes exactly the entries whose expiry has
    passed and returns their number: the entries that are left are the
    live ones, in the order they had, and the size has gone down by the
    number returned. *)
Theorem cache_prune_sweeps_expired now c :
  JsMap.wf (Cache.cache c) ->
  Cache.prune now c
  = (Z.of_nat (List.length
                 (filter (fun ke => negb (Cache.live now ke))
                    (Cache.cache c))),
     Cache.with_cache c (filter (Cache.live now) (Cache.cache c)))
  /\ Cache.size (snd (Cache.prune now c))
     = Cache.size c - fst (Cache.prune now c)
  /\ (forall k e,
         JsMap.get k (Cache.cache (snd (Cache.prune now c))) = Some e ->
         now <= Cache.expiresAt e /\ JsMap.get k (Cache.cache c) = Some e).
Proof.
  intros Hwf.
  assert (Hprune :
            Cache.prune now c
            = (Z.of_nat (List.length
                           (filter (fun ke => negb (Cache.live now ke))
                              (Cache.cache c))),
               Cache.with_cache c (filter (Cache.live now) (Cache.cache c)))).
  { unfold Cache.prune.
    change (0, Cache.cache c) with (0, [] ++ Cache.cache c).
    rewrite (pruneStep_fold_closed_form now (Cache.cache c) [] 0 Hwf).
    reflexivity. }
  rewrite Hprune. cbn [fst snd]. split; [reflexivity|]. split.
  - unfold Cache.size, JsMap.size. cbn [Cache.cache Cache.with_cache].
    pose proof (filter_length (Cache.live now) (Cache.cache c)) as Hlen.
    lia.
  - cbn [Cache.cache Cache.with_cache]. clear Hprune.
    induction (Cache.cache c) as [|[k' e'] m IH]; intros k e;
      [discriminate|].
    apply jsmap_wf_cons_inv in Hwf as [Hfresh Hwf].
    cbn [filter]. unfold Cache.live at 1. cbn [snd].
    destruct (Z.ltb_spec (Cache.expiresAt e') now) as [Hexp|Hlive];
      cbn [negb JsMap.get].
    + intros Hget. destruct (IH Hwf k e Hget) as [Hl Hg].
      split; [assumption|].
      destruct (String.eqb_spec k k'); [congruence|assumption].
    + destruct (String.eqb_spec k k'); [intros [= <-]; now split|].
      apply IH, Hwf.
Qed.

(** X2. What [set] stores [get] returns, until the entry expires. On a
    cache of capacity 1 or more, [set(key, v, ttl)] at time [now] returns;
    [get(key)] on the result returns [v] at every time up to [now + ttl]
    (the TTL given, or else the one of the cache), that instant included,
    and [undefined] at every later time. *)
Theorem cache_set_get_round_trip now key (v : T) ttl_arg c :
  1 <= Cache.maxSize c ->
  exists c',
    Cache.set now key v ttl_arg c = Some c'
    /\ (forall now',
           now' <= now + Cache.default (Cache.ttl c) ttl_arg ->
           fst (Cache.get now' key c') = Some v)
    /\ (forall now',
           now + Cache.default (Cache.ttl c) ttl_arg < now' ->
           fst (Cache.get now' key c') = None).
Proof.
  intros Hcap. rewrite set_closed_form by assumption.
  eexists. split; [reflexivity|].
  split; intros now' Hnow'; unfold Cache.get;
    cbn [Cache.cache Cache.with_cache]; rewrite jsmap_get_set_same;
    cbn [Cache.expiresAt Cache.value];
    destruct (Z.ltb_spec (now + Cache.default (Cache.ttl c) ttl_arg) now');
    try lia; reflexivity.
Qed.

(** X3. [delete(key)] answers whether the key was stored. Afterwards
    [get(key)] finds nothing at any time, the other keys are as they
    were, and the size is one less when the key was stored; deleting a
    key that is not stored changes nothing. *)
Theorem cache_delete_removes key c :
  JsMap.wf (Cache.cache c) ->
  let stored := fst (Cache.delete key c) in
  let c' := snd (Cache.delete key c) in
  (stored = true <-> JsMap.get key (Cache.cache c) <> None)
  /\ (forall now, Cache.get now key c' = (None, c'))
  /\ (forall k, k <> key ->
        JsMap.get k (Cache.cache c') = JsMap.get k (Cache.cache c))
  /\ Cache.size c' = Cache.size c - (if stored then 1 else 0)
  /\ (stored = false -> c' = c).
Proof.
  intros Hwf. unfold Cache.delete, JsMap.delete, JsMap.has. cbn [fst snd].
  assert (Hgone : JsMap.get key (JsMap.remove key (Cache.cache c)) = None)
    by now apply jsmap_get_remove_same.
  split; [destruct (JsMap.get key (Cache.cache c)); split; congruence|].
  split; [intros now; unfold Cache.get; cbn [Cache.cache Cache.with_cache];
          now rewrite Hgone|].
  split; [intros k Hk; cbn [Cache.cache Cache.with_cache];
          now apply jsmap_get_remove_other|].
  unfold Cache.size, JsMap.size. cbn [Cache.cache Cache.with_cache].
  destruct (JsMap.get key (Cache.cache c)) as [e|] eqn:Hget.
  - pose proof (jsmap_length_remove_present _ _ _ Hget). split; [lia|].
    discriminate.
  - rewrite jsmap_remove_absent by assumption. split; [lia|].
    intros _. now destruct c.
Qed.

(** X4. A [get] that returns [undefined] leaves no entry under the key:
    the key was not stored, or its entry had expired and has been removed.
    The other keys are as they were, and [get(key)] goes on finding
    nothing, at whatever time it is asked. *)
Theorem cache_get_miss_leaves_no_entry now key c :
  JsMap.wf (Cache.cache c) ->
  fst (Cache.get now key c) = None ->
  let c' := snd (Cache.get now key c) in
  JsMap.get key (Cache.cache c') = None
  /\ (forall k, k <> key ->
        JsMap.get k (Cache.cache c') = JsMap.get k (Cache.cache c))
  /\ (forall now', Cache.get now' key c' = (None, c'))
  /\ Cache.size c'
     = Cache.size c
       - (if JsMap.has key (Cache.cache c) then 1 else 0).
Proof.
  intros Hwf Hmiss c'.
  assert (Habs : JsMap.get key (Cache.cache c') = None).
  { subst c'. revert Hmiss. unfold Cache.get.
    destruct (JsMap.get key (Cache.cache c)) as [entry|] eqn:Hget;
      [|intros _; exact Hget].
    destruct (Cache.expiresAt entry <? now); [|discriminate].
    intros _. cbn [snd Cache.cache Cache.with_cache].
    now apply jsmap_get_remove_same. }
  split; [exact Habs|].
  split; [intros k Hk; now apply (cache_get_frame now key c)|].
  split; [intros now'; unfold Cache.get; now rewrite Habs|].
  subst c'. revert Hmiss. unfold Cache.get, JsMap.has, Cache.size, JsMap.size.
  destruct (JsMap.get key (Cache.cache c)) as [entry|] eqn:Hget;
    [|intros _; cbn [snd]; lia].
  destruct (Cache.expiresAt entry <? now); [|discriminate].
  intros _. cbn [snd Cache.cache Cache.with_cache].
  pose proof (jsmap_length_remove_present _ _ _ Hget). lia.
Qed.

(** X5. A [get] that returns a value changes the order of the entries
    only: every key is stored with the entry it had, and the size is the
    same. *)
Theorem cache_get_hit_keeps_content now key c (v : T) :
  JsMap.wf (Cache.cache c) ->
  fst (Cache.get now key c) = Some v ->
  let c' := snd (Cache.get now key c) in
  (forall k, JsMap.get k (Cache.cache c') = JsMap.get k (Cache.cache c))
  /\ Cache.size c' = Cache.size c
  /\ JsMap.wf (Cache.cache c').
Proof.
  intros Hwf Hhit.
  assert (Hentry : exists e,
             JsMap.get key (Cache.cache c) = Some e
             /\ now <= Cache.expiresAt e).
  { revert Hhit. unfold Cache.get.
    destruct (JsMap.get key (Cache.cache c)) as [entry|]; [|discriminate].
    destruct (Z.ltb_spec (Cache.expiresAt entry) now); [discriminate|].
    intros _. now exists entry. }
  destruct Hentry as (e & Hget & Hlive).
  rewrite (get_hit now key c e Hwf Hget Hlive). cbn [snd Cache.cache
                                                      Cache.with_cache].
  assert (Hgone : JsMap.get key (JsMap.remove key (Cache.cache c)) = None)
    by now apply jsmap_get_remove_same.
  split; [|split].
  - intros k. destruct (String.eqb_spec k key) as [->|Hk].
    + rewrite jsmap_get_app_r by assumption. simpl.
      now rewrite String.eqb_refl.
    + destruct (JsMap.get k (Cache.cache c)) as [e'|] eqn:Hk'.
      * apply jsmap_get_app_l. rewrite jsmap_get_remove_other by congruence.
        exact Hk'.
      * rewrite jsmap_get_app_r
          by (rewrite jsmap_get_remove_other by congruence; exact Hk').
        simpl. destruct (String.eqb_spec k key); congruence.
  - unfold Cache.size, JsMap.size. cbn [Cache.cache Cache.with_cache].
    rewrite length_app. cbn [List.length].
    pose proof (jsmap_length_remove_present _ _ _ Hget). lia.
  - apply jsmap_wf_app_fresh; [now apply jsmap_wf_remove|assumption].
Qed.

(** X6. [set] on a cache that holds fewer than [maxSize] entries evicts
    nothing: the entry is written, every other key keeps its entry, the
    keys already stored keep their order, a new key is added at the
    recent end and a key already stored stays in its place. *)
Theorem cache_set_with_room_keeps_all now key (v : T) ttl_arg c :
  Cache.size c < Cache.maxSize c ->
  let entry := {| Cache.value := v;
                  Cache.expiresAt :=
                    now + Cache.default (Cache.ttl c) ttl_arg |} in
  Cache.set now key v ttl_arg c
  = Some (Cache.with_cache c (JsMap.set key entry (Cache.cache c)))
  /\ (forall k, k <> key ->
        JsMap.get k (JsMap.set key entry (Cache.cache c))
        = JsMap.get k (Cache.cache c))
  /\ JsMap.keys (JsMap.set key entry (Cache.cache c))
     = (if JsMap.has key (Cache.cache c)
        then JsMap.keys (Cache.cache c)
        else JsMap.keys (Cache.cache c) ++ [key])
  /\ JsMap.size (JsMap.set key entry (Cache.cache c))
     = Cache.size c + (if JsMap.has key (Cache.cache c) then 0 else 1).
Proof.
  intros Hroom entry. unfold Cache.size, JsMap.size in *.
  split.
  - rewrite set_closed_form by lia. fold entry.
    replace (Cache.evicted (Cache.maxSize c) (List.length (Cache.cache c)))
      with O by (unfold Cache.evicted; lia).
    reflexivity.
  - split; [intros k Hk; now apply jsmap_get_set_other|].
    unfold JsMap.has.
    destruct (JsMap.get key (Cache.cache c)) as [e|] eqn:Hget.
    + rewrite (jsmap_keys_set_present _ _ _ _ Hget),
        (jsmap_length_set_present _ _ _ _ Hget).
      split; [reflexivity|lia].
    + rewrite (jsmap_set_absent _ _ _ Hget). unfold JsMap.keys.
      rewrite map_app, length_app. cbn [map fst List.length].
      split; [reflexivity|lia].
Qed.

End CacheSweep.

Section CacheRecency.
Context {T : Type}.
Implicit Types (c : Cache.t T) (m : JsMap.t (Cache.CacheEntry T)).

Lemma lastn_app_lastn {A : Type} n (a b : list A) :
  Cache.lastn n (Cache.lastn n a ++ b) = Cache.lastn n (a ++ b).
Proof.
  unfold Cache.lastn. rewrite !length_app, length_skipn.
  destruct (Nat.le_gt_cases (List.length a) n) as [Hle|Hgt].
  - replace (List.length a - n)%nat with O by lia. cbn [skipn].
    f_equal. lia.
  - rewrite !skipn_app, skipn_skipn, !length_skipn.
    replace (List.length a - (List.length a - n) + List.length b - n
             + (List.length a - n))%nat
      with (List.length a + List.length b - n)%nat by lia.
    f_equal. f_equal. lia.
Qed.

Lemma jsmap_get_skipn_wf k n m :
  JsMap.wf m ->
  JsMap.get k (skipn n m) = None \/ JsMap.get k (skipn n m) = JsMap.get k m.
Proof.
  revert m. induction n as [|n IH]; intros m Hwf; [now right|].
  destruct m as [|[k' e'] m]; [now right|].
  apply jsmap_wf_cons_inv in Hwf as [Hfresh Hwf]. cbn [skipn JsMap.get].
  destruct (String.eqb_spec k k') as [->|Hne]; [|now apply IH].
  left. now apply jsmap_get_skipn_None.
Qed.

(** [set] of a key that is not stored, on a cache of capacity 1 or more:
    the keys afterwards are the last [maxSize] of the keys before and the
    new one. *)
Lemma set_fresh_keys now key (v : T) c :
  1 <= Cache.maxSize c ->
  JsMap.wf (Cache.cache c) ->
  JsMap.get key (Cache.cache c) = None ->
  exists c',
    Cache.set now key v None c = Some c'
    /\ JsMap.keys (Cache.cache c')
       = Cache.lastn (Z.to_nat (Cache.maxSize c))
           (JsMap.keys (Cache.cache c) ++ [key])
    /\ Cache.maxSize c' = Cache.maxSize c
    /\ Cache.ttl c' = Cache.ttl c
    /\ JsMap.wf (Cache.cache c')
    /\ Cache.size c' <= Cache.maxSize c'
    /\ JsMap.get key (Cache.cache c')
       = Some {| Cache.value := v; Cache.expiresAt := now + Cache.ttl c |}
    /\ (forall k, k <> key ->
          JsMap.get k (Cache.cache c') = None
          \/ JsMap.get k (Cache.cache c') = JsMap.get k (Cache.cache c)).
Proof.
  intros Hcap Hwf Hfresh. rewrite set_closed_form by assumption.
  eexists. split; [reflexivity|].
  cbn [Cache.cache Cache.with_cache Cache.maxSize Cache.ttl Cache.default].
  set (ev := Cache.evicted _ _).
  assert (Hfresh' : JsMap.get key (skipn ev (Cache.cache c)) = None)
    by now apply jsmap_get_skipn_None.
  split.
  - rewrite (jsmap_set_absent _ _ _ Hfresh').
    unfold JsMap.keys, Cache.lastn.
    rewrite map_app, length_app, length_map, skipn_app, length_map, skipn_map.
    cbn [map fst List.length].
    replace (List.length (Cache.cache c) + 1 - Z.to_nat (Cache.maxSize c))%nat
      with ev by (unfold ev, Cache.evicted; lia).
    replace (ev - List.length (Cache.cache c))%nat with O
      by (unfold ev, Cache.evicted; lia).
    reflexivity.
  - split; [reflexivity|]. split; [reflexivity|].
    split; [now apply jsmap_wf_set, jsmap_wf_skipn|].
    split.
    { unfold Cache.size, JsMap.size.
      cbn [Cache.cache Cache.with_cache Cache.maxSize].
      pose proof (length_skipn_evicted (Cache.maxSize c) (Cache.cache c) Hcap).
      fold ev in H.
      match goal with
      | |- context [JsMap.set ?k ?e ?m] =>
          pose proof (jsmap_length_set_le k e m)
      end.
      lia. }
    split; [apply jsmap_get_set_same|].
    intros k Hk. rewrite jsmap_get_set_other by congruence.
    now apply jsmap_get_skipn_wf.
Qed.

(** X7. A cache of capacity [maxSize >= 1] holds the most recent
    insertions. After [set] of any number of keys, distinct and not
    stored before, on a cache within its capacity: the keys stored are the
    last [maxSize] of the keys that were stored and the keys inserted,
    oldest first; each inserted key that is still stored has the value it
    was inserted with; and a key that was not inserted is gone or has the
    entry it had. *)
Theorem cache_holds_last_insertions now (kvs : list (string * T)) c :
  1 <= Cache.maxSize c ->
  Cache.size c <= Cache.maxSize c ->
  JsMap.wf (Cache.cache c) ->
  NoDup (map fst kvs) ->
  (forall k, In k (map fst kvs) -> JsMap.get k (Cache.cache c) = None) ->
  exists c',
    Cache.run (Cache.setAll now kvs) c = Some c'
    /\ JsMap.keys (Cache.cache c')
       = Cache.lastn (Z.to_nat (Cache.maxSize c))
           (JsMap.keys (Cache.cache c) ++ map fst kvs)
    /\ (forall k v,
           In (k, v) kvs ->
           In k (JsMap.keys (Cache.cache c')) ->
           JsMap.get k (Cache.cache c')
           = Some {| Cache.value := v;
                     Cache.expiresAt := now + Cache.ttl c |})
    /\ (forall k, ~ In k (map fst kvs) ->
          JsMap.get k (Cache.cache c') = None
          \/ JsMap.get k (Cache.cache c') = JsMap.get k (Cache.cache c)).
Proof.
  revert c.
  induction kvs as [|[k1 v1] kvs IH]; intros c Hcap Hsize Hwf Hnd Hfresh.
  - exists c. cbn [Cache.setAll map Cache.run]. rewrite app_nil_r.
    split; [reflexivity|]. split; [|split].
    + unfold Cache.lastn, Cache.size, JsMap.size, JsMap.keys in *.
      rewrite length_map.
      replace (List.length (Cache.cache c) - Z.to_nat (Cache.maxSize c))%nat
        with O by lia.
      reflexivity.
    + intros k v [].
    + intros k _. now right.
  - cbn [map fst] in Hnd, Hfresh. inversion Hnd as [|? ? Hk1 Hnd']; subst.
    destruct (set_fresh_keys now k1 v1 c Hcap Hwf (Hfresh k1 (or_introl eq_refl)))
      as (c1 & Hset & Hkeys1 & Hmax1 & Httl1 & Hwf1 & Hsize1 & Hget1 & Hframe1).
    assert (Hfresh1 : forall k, In k (map fst kvs) ->
                                JsMap.get k (Cache.cache c1) = None).
    { intros k Hin.
      assert (Hne : k <> k1) by (intros ->; contradiction).
      destruct (Hframe1 k Hne) as [H|H]; [exact H|].
      rewrite H. apply Hfresh. now right. }
    destruct (IH c1 ltac:(lia) Hsize1 Hwf1 Hnd' Hfresh1)
      as (c' & Hrun & Hkeys & Hvalues & Hframe).
    exists c'. split; [|split; [|split]].
    + cbn [Cache.setAll map Cache.run Cache.step fst snd].
      rewrite Hset. exact Hrun.
    + rewrite Hkeys, Hkeys1, Hmax1, lastn_app_lastn, <- app_assoc.
      reflexivity.
    + intros k v [[= <- <-]|Hin] Hstored.
      * destruct (Hframe k1 Hk1) as [H|H].
        -- apply jsmap_get_None_not_in in H. contradiction.
        -- now rewrite H.
      * rewrite <- Httl1. now apply Hvalues.
    + intros k Hk. cbn [map fst] in Hk.
      assert (Hne : k <> k1) by (intros ->; apply Hk; now left).
      assert (Hnin : ~ In k (map fst kvs)) by (intros H; apply Hk; now right).
      destruct (Hframe k Hnin) as [H|H]; [now left|].
      destruct (Hframe1 k Hne) as [H1|H1]; [left|right]; congruence.
Qed.

End CacheRecency.

Section CacheOverwrite.
Context {T : Type}.
Implicit Types (c : Cache.t T) (m : JsMap.t (Cache.CacheEntry T)).

(** [set] on a cache with room: the loop takes no turn. *)
Lemma set_with_room now key (v : T) ttl_arg c :
  Cache.size c < Cache.maxSize c ->
  Cache.set now key v ttl_arg c
  = Some (Cache.with_cache c
            (JsMap.set key
               {| Cache.value := v;
                  Cache.expiresAt :=
                    now + Cache.default (Cache.ttl c) ttl_arg |}
               (Cache.cache c))).
Proof.
  intros Hroom. unfold Cache.size, JsMap.size in Hroom.
  rewrite set_closed_form by lia.
  replace (Cache.evicted (Cache.maxSize c) (List.length (Cache.cache c)))
    with O by (unfold Cache.evicted; lia).
  reflexivity.
Qed.

(** Insertions of new keys that the cache has room for: each goes to the
    recent end, and nothing is dropped. *)
Lemma setAll_with_room now (kvs : list (string * T)) c :
  NoDup (map fst kvs) ->
  (forall k, In k (map fst kvs) -> JsMap.get k (Cache.cache c) = None) ->
  Cache.size c + Z.of_nat (List.length kvs) <= Cache.maxSize c ->
  Cache.run (Cache.setAll now kvs) c
  = Some (Cache.with_cache c
            (Cache.cache c
             ++ map (fun kv =>
                       (fst kv,
                        {| Cache.value := snd kv;
                           Cache.expiresAt := now + Cache.ttl c |}))
                  kvs)).
Proof.
  revert c. induction kvs as [|[k1 v1] kvs IH]; intros c Hnd Hfresh Hroom.
  - cbn [Cache.setAll map Cache.run]. rewrite app_nil_r.
    now destruct c.
  - cbn [map fst List.length] in Hnd, Hfresh, Hroom.
    inversion Hnd as [|? ? Hk1 Hnd']; subst.
    cbn [Cache.setAll map Cache.run Cache.step fst snd].
    rewrite set_with_room by lia.
    rewrite jsmap_set_absent by (apply Hfresh; now left).
    cbn [Cache.default].
    change (map (fun kv : string * T => Cache.OpSet now (fst kv) (snd kv) None)
              kvs)
      with (Cache.setAll now kvs).
    rewrite IH.
    + cbn [Cache.cache Cache.with_cache Cache.ttl Cache.maxSize].
      now rewrite <- app_assoc.
    + exact Hnd'.
    + intros k Hin. cbn [Cache.cache Cache.with_cache].
      rewrite jsmap_get_app_r by (apply Hfresh; now right).
      cbn [JsMap.get].
      destruct (String.eqb_spec k k1) as [->|_]; [contradiction|reflexivity].
    + unfold Cache.size, JsMap.size in *.
      cbn [Cache.cache Cache.with_cache Cache.maxSize].
      rewrite length_app. cbn [List.length]. lia.
Qed.

(** C5. A [set] that overwrites a stored key does not refresh it. On a
    cache with room whose oldest key is [k0], with another key [k1]
    behind it:
    - [set] of [k0] replaces the value and the expiry of [k0] and leaves
      it first of the order;
    - the insertions of new keys that fill the cache to [maxSize] drop
      nothing;
    - the insertion of one more new key then drops [k0], the key written
      after every other key of the cache was last read or written, and
      keeps [k1] and all the others, in their order. *)
Theorem cache_overwrite_keeps_place
    c k0 e0 k1 e1 rest t1 (v : T) ttl_arg t2 (kvs : list (string * T))
    t3 key' (v' : T) ttl_arg' :
  Cache.cache c = (k0, e0) :: (k1, e1) :: rest ->
  JsMap.wf (Cache.cache c) ->
  kvs <> [] ->
  Cache.size c + Z.of_nat (List.length kvs) = Cache.maxSize c ->
  NoDup (key' :: map fst kvs) ->
  (forall k, In k (key' :: map fst kvs) ->
             JsMap.get k (Cache.cache c) = None) ->
  let written :=
    {| Cache.value := v;
       Cache.expiresAt := t1 + Cache.default (Cache.ttl c) ttl_arg |} in
  let inserted :=
    map (fun kv =>
           (fst kv,
            {| Cache.value := snd kv;
               Cache.expiresAt := t2 + Cache.ttl c |}))
      kvs in
  let entry' :=
    {| Cache.value := v';
       Cache.expiresAt := t3 + Cache.default (Cache.ttl c) ttl_arg' |} in
  exists c1 c2 c3,
    Cache.set t1 k0 v ttl_arg c = Some c1
    /\ Cache.cache c1 = (k0, written) :: (k1, e1) :: rest
    /\ Cache.run (Cache.setAll t2 kvs) c1 = Some c2
    /\ Cache.cache c2 = (k0, written) :: (k1, e1) :: rest ++ inserted
    /\ Cache.size c2 = Cache.maxSize c2
    /\ Cache.set t3 key' v' ttl_arg' c2 = Some c3
    /\ Cache.cache c3 = (k1, e1) :: rest ++ inserted ++ [(key', entry')]
    /\ JsMap.get k0 (Cache.cache c3) = None
    /\ JsMap.get k1 (Cache.cache c3) = Some e1.
Proof.
  intros Hm Hwf Hkvs Hsize Hnd Hfresh written inserted entry'.
  inversion Hnd as [|? ? Hkey' Hnd']; subst.
  assert (Hlen : (0 < List.length kvs)%nat)
    by (destruct kvs; [contradiction|cbn; lia]).
  pose proof Hwf as Hwf0. rewrite Hm in Hwf0.
  apply jsmap_wf_cons_inv in Hwf0 as [Hk0 Hwf1].
  set (c1 := Cache.with_cache c ((k0, written) :: (k1, e1) :: rest)).
  assert (Hset1 : Cache.set t1 k0 v ttl_arg c = Some c1).
  { rewrite set_with_room by lia. rewrite Hm. cbn [JsMap.set].
    now rewrite String.eqb_refl. }
  assert (Hfresh1 : forall k, In k (key' :: map fst kvs) ->
                      JsMap.get k (Cache.cache c1) = None).
  { intros k Hin. specialize (Hfresh k Hin). rewrite Hm in Hfresh.
    unfold c1. cbn [Cache.cache Cache.with_cache JsMap.get] in *.
    destruct (String.eqb k k0); [discriminate|exact Hfresh]. }
  assert (Hsize1 : Cache.size c1 = Cache.size c).
  { unfold Cache.size, JsMap.size. rewrite Hm. reflexivity. }
  set (c2 := Cache.with_cache c1 (Cache.cache c1 ++ inserted)).
  assert (Hrun : Cache.run (Cache.setAll t2 kvs) c1 = Some c2).
  { apply setAll_with_room; [exact Hnd'| |].
    - intros k Hin. apply Hfresh1. now right.
    - rewrite Hsize1. unfold c1. cbn [Cache.maxSize Cache.with_cache]. lia. }
  assert (Hfull : Cache.size c2 = Cache.maxSize c2).
  { unfold Cache.size, JsMap.size in Hsize. rewrite Hm in Hsize.
    unfold c2, c1, Cache.size, JsMap.size.
    cbn [Cache.cache Cache.with_cache Cache.maxSize List.length app]
      in Hsize |- *.
    rewrite length_app. unfold inserted. rewrite length_map. lia. }
  assert (Hkey'2 : JsMap.get key' (rest ++ inserted) = None).
  { apply jsmap_get_None_not_in. unfold JsMap.keys.
    rewrite map_app. unfold inserted. rewrite map_map. cbn [fst].
    intros Hin. apply in_app_or in Hin as [Hin|Hin].
    - pose proof (Hfresh key' (or_introl eq_refl)) as H.
      apply jsmap_get_None_not_in in H. apply H. rewrite Hm.
      unfold JsMap.keys. cbn [map fst]. right. right. exact Hin.
    - contradiction. }
  assert (Hne1 : key' <> k1).
  { intros ->. pose proof (Hfresh k1 (or_introl eq_refl)) as H.
    rewrite Hm in H. cbn [JsMap.get] in H.
    destruct (String.eqb k1 k0); [discriminate|].
    now rewrite String.eqb_refl in H. }
  exists c1, c2, (Cache.with_cache c2
                    ((k1, e1) :: rest ++ inserted ++ [(key', entry')])).
  split; [exact Hset1|]. split; [reflexivity|]. split; [exact Hrun|].
  split; [reflexivity|]. split; [exact Hfull|].
  split; [|split; [reflexivity|split]].
  - rewrite (set_at_capacity t3 key' v' ttl_arg' c2 k0 written
               ((k1, e1) :: rest ++ inserted) eq_refl Hfull).
    cbn [JsMap.set].
    destruct (String.eqb_spec key' k1) as [|_]; [contradiction|].
    rewrite (jsmap_set_absent _ _ _ Hkey'2), <- app_assoc.
    reflexivity.
  - cbn [Cache.cache Cache.with_cache].
    apply jsmap_get_None_not_in. unfold JsMap.keys.
    cbn [map fst]. rewrite !map_app. unfold inserted.
    rewrite map_map. cbn [map fst].
    apply jsmap_get_None_not_in in Hk0. unfold JsMap.keys in Hk0.
    cbn [map fst] in Hk0.
    intros [Hin|Hin]; [apply Hk0; now left|].
    apply in_app_or in Hin as [Hin|Hin]; [apply Hk0; now right|].
    assert (Hstored : JsMap.get k0 (Cache.cache c) <> None)
      by (rewrite Hm; cbn [JsMap.get]; rewrite String.eqb_refl; discriminate).
    apply Hstored, Hfresh.
    apply in_app_or in Hin as [Hin|[<-|[]]]; [now right|now left].
  - cbn [Cache.cache Cache.with_cache JsMap.get].
    now rewrite String.eqb_refl.
Qed.

End CacheOverwrite.


(* ===================================================================== *)
(** ** More on the rate limiter: sequences of calls                       *)
(* ===================================================================== *)

Section RateLimiterRuns.
Context {Q : Type}.
Implicit Types (l : RateLimiter.t Q) (queue : list Q).

Lemma map_settledRequest_Resolve queue :
  map RateLimiter.settledRequest (map (@RateLimiter.Resolve Q) queue) = queue.
Proof. induction queue as [|r queue IH]; simpl; congruence. Qed.

Lemma map_settledRequest_Reject message queue :
  map RateLimiter.settledRequest
    (map (fun r : Q => RateLimiter.Reject r message) queue) = queue.
Proof. induction queue as [|r queue IH]; simpl; congruence. Qed.

(** What [processQueue] settles and what it leaves of the timer. *)
Lemma processQueue_settled l :
  let n := Nat.min (List.length (RateLimiter.queue l))
             (Z.to_nat (RateLimiter.tokens l)) in
  snd (RateLimiter.processQueue l)
  = map RateLimiter.Resolve (firstn n (RateLimiter.queue l))
  /\ RateLimiter.refillTimer (fst (RateLimiter.processQueue l))
     = match skipn n (RateLimiter.queue l) with
       | [] => false
       | _ :: _ => RateLimiter.refillTimer l
       end
  /\ RateLimiter.lastRefill (fst (RateLimiter.processQueue l))
     = RateLimiter.lastRefill l.
Proof.
  unfold RateLimiter.processQueue.
  rewrite processQueueLoop_closed_form. cbn zeta.
  set (n := Nat.min _ _). cbn [fst snd].
  destruct (skipn n (RateLimiter.queue l)) eqn:Hskip;
    unfold RateLimiter.stopRefillTimer;
    cbn [RateLimiter.refillTimer RateLimiter.with_queue
         RateLimiter.with_tokens];
    try destruct (RateLimiter.refillTimer l) eqn:Htimer; repeat split;
    cbn [RateLimiter.refillTimer RateLimiter.with_refillTimer
         RateLimiter.with_queue RateLimiter.with_tokens];
    auto.
Qed.

(** X8. [processQueue()] grants in the order of the queue, one token a
    grant: with [n] the lesser of the length of the queue and the number
    of tokens, it resolves the first [n] requests of the queue, in their
    order, leaves the others queued in their order, and takes [n]
    tokens. Nothing is rejected. *)
Theorem limiter_processQueue_fifo l :
  let n := Nat.min (List.length (RateLimiter.queue l))
             (Z.to_nat (RateLimiter.tokens l)) in
  let l' := fst (RateLimiter.processQueue l) in
  snd (RateLimiter.processQueue l)
  = map RateLimiter.Resolve (firstn n (RateLimiter.queue l))
  /\ RateLimiter.queue l' = skipn n (RateLimiter.queue l)
  /\ RateLimiter.tokens l' = RateLimiter.tokens l - Z.of_nat n
  /\ (0 <= RateLimiter.tokens l ->
      RateLimiter.tokens l' = 0 \/ RateLimiter.queue l' = []).
Proof.
  intros n l'.
  destruct (processQueue_fields l) as (Htokens & Hqueue & _).
  destruct (processQueue_settled l) as (Hsettled & _).
  fold n in Htokens, Hqueue, Hsettled. fold l' in Htokens, Hqueue.
  split; [exact Hsettled|]. split; [exact Hqueue|].
  split; [exact Htokens|].
  intros Hpos. rewrite Htokens, Hqueue.
  destruct (Nat.le_gt_cases (List.length (RateLimiter.queue l))
              (Z.to_nat (RateLimiter.tokens l))) as [Hle|Hgt].
  - right. apply skipn_all2. unfold n. lia.
  - left. unfold n. lia.
Qed.

(** The requests settled by [refill] and those it leaves queued are the
    queue it found, in order. *)
Lemma refill_queue_split now l :
  map RateLimiter.settledRequest (snd (RateLimiter.refill now l))
  ++ RateLimiter.queue (fst (RateLimiter.refill now l))
  = RateLimiter.queue l.
Proof.
  unfold RateLimiter.refill.
  destruct (RateLimiter.interval l <=? now - RateLimiter.lastRefill l);
    [|reflexivity].
  set (l0 := RateLimiter.with_lastRefill _ _).
  destruct (processQueue_fields l0) as (_ & Hqueue & _).
  destruct (processQueue_settled l0) as (Hsettled & _).
  rewrite Hqueue, Hsettled, map_settledRequest_Resolve.
  apply firstn_skipn.
Qed.

Lemma step_queue_split op l :
  map RateLimiter.settledRequest (snd (RateLimiter.step op l))
  ++ RateLimiter.queue (fst (RateLimiter.step op l))
  = RateLimiter.queue l ++ RateLimiter.enqueued [op] l.
Proof.
  pose proof (refill_queue_split) as Hrefill.
  destruct op as [now request|now|now|now|now|now];
    cbn [RateLimiter.step RateLimiter.enqueued]; rewrite ?app_nil_r.
  - specialize (Hrefill now l). unfold RateLimiter.acquire.
    destruct (RateLimiter.refill now l) as [l1 settled]. cbn [fst snd] in *.
    destruct (0 <? RateLimiter.tokens l1); cbn [fst snd];
      [now rewrite app_nil_r|].
    destruct (negb (RateLimiter.shouldQueue l1)); cbn [fst snd];
      [now rewrite app_nil_r|].
    destruct (RateLimiter.maxQueueSize l1 <=? _); cbn [fst snd];
      [now rewrite app_nil_r|].
    unfold RateLimiter.startRefillTimer.
    destruct (RateLimiter.refillTimer l1);
      cbn [RateLimiter.queue RateLimiter.with_queue
           RateLimiter.with_refillTimer];
      now rewrite app_assoc, Hrefill.
  - specialize (Hrefill now l). unfold RateLimiter.tryAcquire.
    destruct (RateLimiter.refill now l) as [l1 settled]. cbn [fst snd] in *.
    destruct (0 <? RateLimiter.tokens l1); cbn [fst snd]; exact Hrefill.
  - specialize (Hrefill now l). unfold RateLimiter.getAvailableTokens.
    destruct (RateLimiter.refill now l) as [l1 settled]. exact Hrefill.
  - destruct (RateLimiter.refillTimer l); [apply Hrefill|reflexivity].
  - unfold RateLimiter.reset. rewrite resetLoop_closed_form. cbn [fst snd].
    rewrite map_settledRequest_Reject, app_nil_r.
    unfold RateLimiter.stopRefillTimer.
    cbn [RateLimiter.refillTimer RateLimiter.with_tokens
         RateLimiter.with_lastRefill].
    destruct (RateLimiter.refillTimer l); reflexivity.
  - unfold RateLimiter.dispose, RateLimiter.reset.
    rewrite resetLoop_closed_form. cbn [fst snd].
    rewrite map_settledRequest_Reject, app_nil_r.
    unfold RateLimiter.stopRefillTimer.
    cbn [RateLimiter.refillTimer RateLimiter.with_tokens
         RateLimiter.with_lastRefill].
    destruct (RateLimiter.refillTimer l); reflexivity.
Qed.

Lemma enqueued_cons op ops l :
  RateLimiter.enqueued (op :: ops) l
  = RateLimiter.enqueued [op] l
    ++ RateLimiter.enqueued ops (fst (RateLimiter.step op l)).
Proof.
  destruct op as [now request|now|now|now|now|now];
    cbn [RateLimiter.enqueued]; try reflexivity.
  destruct (fst (fst (RateLimiter.acquire now request l))); reflexivity.
Qed.

(** X9. Every request is settled once, in the order of the queue. After
    any sequence of calls and timer turns, the requests settled on the
    way, in the order they were settled, followed by the requests still
    queued, are the requests that were queued at the start followed by
    those that the calls of [acquire] have queued, in the order of the
    calls: none is lost, none is settled twice, none overtakes another. *)
Theorem limiter_settles_in_queue_order ops l :
  map RateLimiter.settledRequest (snd (RateLimiter.run ops l))
  ++ RateLimiter.queue (fst (RateLimiter.run ops l))
  = RateLimiter.queue l ++ RateLimiter.enqueued ops l.
Proof.
  revert l. induction ops as [|op ops IH]; intros l.
  - cbn [RateLimiter.run RateLimiter.enqueued map fst snd].
    now rewrite app_nil_r.
  - rewrite enqueued_cons. cbn [RateLimiter.run].
    pose proof (step_queue_split op l) as Hstep.
    destruct (RateLimiter.step op l) as [l1 settled1]. cbn [fst snd] in *.
    specialize (IH l1).
    destruct (RateLimiter.run ops l1) as [l2 settled2]. cbn [fst snd] in *.
    rewrite map_app, <- app_assoc, IH, !app_assoc, Hstep.
    reflexivity.
Qed.

(** A queued request is not lost: after any sequence of calls and timer
    turns it has been settled on the way or is still queued. *)
Lemma run_keeps_request ops l (request : Q) :
  In request (RateLimiter.queue l) ->
  In request
    (map RateLimiter.settledRequest (snd (RateLimiter.run ops l)))
  \/ In request (RateLimiter.queue (fst (RateLimiter.run ops l))).
Proof.
  revert l. induction ops as [|op ops IH]; intros l Hin; [now right|].
  cbn [RateLimiter.run].
  pose proof (step_queue_split op l) as Hstep.
  destruct (RateLimiter.step op l) as [l1 settled1]. cbn [fst snd] in *.
  specialize (IH l1).
  destruct (RateLimiter.run ops l1) as [l2 settled2]. cbn [fst snd] in *.
  rewrite map_app.
  assert (Hin1 : In request
                   (map RateLimiter.settledRequest settled1
                    ++ RateLimiter.queue l1))
    by (rewrite Hstep; apply in_or_app; now left).
  apply in_app_or in Hin1 as [Hsettled|Hqueued].
  - left. apply in_or_app. now left.
  - destruct (IH Hqueued) as [H|H]; [left|now right].
    apply in_or_app. now right.
Qed.

End RateLimiterRuns.

Section RateLimiterOrder.
Context {Q : Type}.
Implicit Types (l : RateLimiter.t Q) (queue : list Q).

Lemma orderly_make now options :
  1 <= Cache.default 50 (RateLimiter.opt_maxRequests options) ->
  0 < Cache.default 1000 (RateLimiter.opt_interval options) ->
  RateLimiter.orderly (RateLimiter.make (Q := Q) now options).
Proof.
  intros Hcap Hi. split; [now apply steady_make|].
  unfold RateLimiter.make.
  cbn [RateLimiter.tokens RateLimiter.maxRequests RateLimiter.queue
       RateLimiter.refillTimer].
  split; [lia|]. split; [now right|].
  split; [discriminate|intros H; now elim H].
Qed.

Lemma orderly_refill now l :
  RateLimiter.orderly l -> RateLimiter.orderly (fst (RateLimiter.refill now l)).
Proof.
  intros (Hsteady & Hcap & Hidle & Htimer).
  split; [now apply steady_refill|].
  destruct Hsteady as (HC & Hi & Htok & _).
  unfold RateLimiter.refill.
  destruct (Z.leb_spec (RateLimiter.interval l)
              (now - RateLimiter.lastRefill l)) as [He|He];
    [|exact (conj Hcap (conj Hidle Htimer))].
  set (l0 := RateLimiter.with_lastRefill _ _).
  destruct (processQueue_fields l0) as (Ht & Hq & Hm & _).
  destruct (processQueue_settled l0) as (_ & Htm & _).
  assert (Hn : 1 <= (now - RateLimiter.lastRefill l) / RateLimiter.interval l)
    by (apply Z.div_le_lower_bound; lia).
  assert (Hrefilled : 1 <= RateLimiter.tokens l0 <= RateLimiter.maxRequests l).
  { unfold l0. cbn [RateLimiter.tokens RateLimiter.with_lastRefill
                      RateLimiter.with_tokens]. nia. }
  change (RateLimiter.queue l0) with (RateLimiter.queue l) in *.
  change (RateLimiter.maxRequests l0) with (RateLimiter.maxRequests l) in *.
  change (RateLimiter.refillTimer l0) with (RateLimiter.refillTimer l) in *.
  rewrite Ht, Hq, Hm, Htm.
  set (n := Nat.min _ _).
  split; [lia|]. split.
  - destruct (Nat.le_gt_cases (List.length (RateLimiter.queue l))
                (Z.to_nat (RateLimiter.tokens l0))) as [Hle|Hgt].
    + right. apply skipn_all2. unfold n. lia.
    + left. unfold n. lia.
  - destruct (skipn n (RateLimiter.queue l)) eqn:Hskip.
    + split; [discriminate|intros H; now elim H].
    + split; [discriminate|]. intros _. apply Htimer.
      intros Hnil. rewrite Hnil, skipn_nil in Hskip. discriminate.
Qed.

Lemma orderly_acquire now request l :
  RateLimiter.orderly l ->
  RateLimiter.orderly (snd (fst (RateLimiter.acquire now request l))).
Proof.
  intros Horderly.
  split; [apply steady_acquire; apply Horderly|].
  apply (orderly_refill now) in Horderly. unfold RateLimiter.acquire.
  destruct (RateLimiter.refill now l) as [l1 settled]. cbn [fst] in Horderly.
  pose proof Horderly as (Hsteady & Hcap & Hidle & Htimer).
  destruct Hsteady as (_ & _ & Htok & _).
  destruct (Z.ltb_spec 0 (RateLimiter.tokens l1)) as [Hpos|Hnone];
    cbn [fst snd].
  - cbn [RateLimiter.maxRequests RateLimiter.tokens RateLimiter.queue
         RateLimiter.refillTimer RateLimiter.with_tokens].
    split; [lia|]. split; [right; destruct Hidle; [lia|assumption]|].
    exact Htimer.
  - destruct (negb (RateLimiter.shouldQueue l1)); cbn [fst snd];
      [exact (proj2 Horderly)|].
    destruct (RateLimiter.maxQueueSize l1 <=? _); cbn [fst snd];
      [exact (proj2 Horderly)|].
    unfold RateLimiter.startRefillTimer.
    destruct (RateLimiter.refillTimer l1) eqn:Hset;
      cbn [RateLimiter.maxRequests RateLimiter.tokens RateLimiter.queue
           RateLimiter.refillTimer RateLimiter.with_queue
           RateLimiter.with_refillTimer];
      (split; [lia|]); (split; [left; lia|]);
      (split; [intros _; now destruct (RateLimiter.queue l1)
              |intros _; first [exact Hset|reflexivity]]).
Qed.

Lemma orderly_tryAcquire now l :
  RateLimiter.orderly l ->
  RateLimiter.orderly (snd (fst (RateLimiter.tryAcquire now l))).
Proof.
  intros Horderly.
  split; [apply steady_tryAcquire; apply Horderly|].
  apply (orderly_refill now) in Horderly. unfold RateLimiter.tryAcquire.
  destruct (RateLimiter.refill now l) as [l1 settled]. cbn [fst] in Horderly.
  pose proof Horderly as (Hsteady & Hcap & Hidle & Htimer).
  destruct (Z.ltb_spec 0 (RateLimiter.tokens l1)) as [Hpos|Hnone];
    cbn [fst snd]; [|exact (proj2 Horderly)].
  cbn [RateLimiter.maxRequests RateLimiter.tokens RateLimiter.queue
       RateLimiter.refillTimer RateLimiter.with_tokens].
  split; [lia|]. split; [right; destruct Hidle; [lia|assumption]|].
  exact Htimer.
Qed.

Lemma reset_fields now l :
  let l' := fst (RateLimiter.reset now l) in
  RateLimiter.tokens l' = RateLimiter.maxRequests l
  /\ RateLimiter.queue l' = []
  /\ RateLimiter.refillTimer l' = false
  /\ RateLimiter.maxRequests l' = RateLimiter.maxRequests l
  /\ RateLimiter.lastRefill l' = now
  /\ snd (RateLimiter.reset now l)
     = map (fun request =>
              RateLimiter.Reject request "Rate limiter was reset")
         (RateLimiter.queue l).
Proof.
  unfold RateLimiter.reset. rewrite resetLoop_closed_form.
  unfold RateLimiter.stopRefillTimer.
  cbn [RateLimiter.refillTimer RateLimiter.with_tokens
       RateLimiter.with_lastRefill].
  destruct (RateLimiter.refillTimer l) eqn:Htimer; cbn [fst snd];
    cbn [RateLimiter.maxRequests RateLimiter.tokens RateLimiter.queue
         RateLimiter.refillTimer RateLimiter.lastRefill
         RateLimiter.with_queue RateLimiter.with_refillTimer
         RateLimiter.with_lastRefill RateLimiter.with_tokens];
    repeat split; auto.
Qed.

Lemma orderly_reset now l :
  RateLimiter.orderly l -> RateLimiter.orderly (fst (RateLimiter.reset now l)).
Proof.
  intros Horderly. split; [apply steady_reset; apply Horderly|].
  destruct (reset_fields now l) as (Ht & Hq & Htm & Hm & _).
  rewrite Ht, Hq, Htm, Hm. destruct Horderly as ((HC & _) & _).
  split; [lia|]. split; [now right|].
  split; [discriminate|intros H; now elim H].
Qed.

Lemma orderly_step op l :
  RateLimiter.orderly l -> RateLimiter.orderly (fst (RateLimiter.step op l)).
Proof.
  intros Horderly.
  destruct op as [now request|now|now|now|now|now]; cbn [RateLimiter.step].
  - pose proof (orderly_acquire now request l Horderly) as H.
    now destruct (RateLimiter.acquire now request l) as [[? ?] ?].
  - pose proof (orderly_tryAcquire now l Horderly) as H.
    now destruct (RateLimiter.tryAcquire now l) as [[? ?] ?].
  - pose proof (orderly_refill now l Horderly) as H.
    unfold RateLimiter.getAvailableTokens.
    now destruct (RateLimiter.refill now l) as [? ?].
  - destruct (RateLimiter.refillTimer l);
      [now apply orderly_refill|assumption].
  - now apply orderly_reset.
  - now apply orderly_reset.
Qed.

Lemma orderly_run ops l :
  RateLimiter.orderly l -> RateLimiter.orderly (fst (RateLimiter.run ops l)).
Proof.
  revert l. induction ops as [|op ops IH]; intros l Horderly;
    [assumption|].
  cbn [RateLimiter.run].
  pose proof (orderly_step op l Horderly) as Hstep.
  destruct (RateLimiter.step op l) as [l1 settled1]. cbn [fst] in Hstep.
  specialize (IH l1 Hstep).
  now destruct (RateLimiter.run ops l1) as [l2 settled2].
Qed.

End RateLimiterOrder.

Section RateLimiterInvariants.
Context {Q : Type}.
Implicit Types (l : RateLimiter.t Q) (queue : list Q).

Lemma refill_settings now l :
  let l' := fst (RateLimiter.refill now l) in
  RateLimiter.maxRequests l' = RateLimiter.maxRequests l
  /\ RateLimiter.interval l' = RateLimiter.interval l
  /\ RateLimiter.shouldQueue l' = RateLimiter.shouldQueue l
  /\ RateLimiter.maxQueueSize l' = RateLimiter.maxQueueSize l.
Proof.
  unfold RateLimiter.refill.
  destruct (RateLimiter.interval l <=? now - RateLimiter.lastRefill l);
    [|now repeat split].
  set (l0 := RateLimiter.with_lastRefill _ _).
  destruct (processQueue_fields l0) as (_ & _ & Hm & Hi & Hs & Hq).
  cbn zeta. now rewrite Hm, Hi, Hs, Hq.
Qed.

Lemma step_settings op l :
  let l' := fst (RateLimiter.step op l) in
  RateLimiter.maxRequests l' = RateLimiter.maxRequests l
  /\ RateLimiter.interval l' = RateLimiter.interval l
  /\ RateLimiter.shouldQueue l' = RateLimiter.shouldQueue l
  /\ RateLimiter.maxQueueSize l' = RateLimiter.maxQueueSize l.
Proof.
  pose proof refill_settings as Hrefill.
  destruct op as [now request|now|now|now|now|now]; cbn [RateLimiter.step].
  - specialize (Hrefill now l). unfold RateLimiter.acquire.
    destruct (RateLimiter.refill now l) as [l1 settled]. cbn [fst] in Hrefill.
    destruct (0 <? RateLimiter.tokens l1); [exact Hrefill|].
    destruct (negb (RateLimiter.shouldQueue l1)); [exact Hrefill|].
    destruct (RateLimiter.maxQueueSize l1 <=? _); [exact Hrefill|].
    unfold RateLimiter.startRefillTimer.
    destruct (RateLimiter.refillTimer l1); exact Hrefill.
  - specialize (Hrefill now l). unfold RateLimiter.tryAcquire.
    destruct (RateLimiter.refill now l) as [l1 settled]. cbn [fst] in Hrefill.
    destruct (0 <? RateLimiter.tokens l1); exact Hrefill.
  - specialize (Hrefill now l). unfold RateLimiter.getAvailableTokens.
    destruct (RateLimiter.refill now l) as [l1 settled]. exact Hrefill.
  - destruct (RateLimiter.refillTimer l); [apply Hrefill|now repeat split].
  - unfold RateLimiter.reset. rewrite resetLoop_closed_form.
    unfold RateLimiter.stopRefillTimer.
    cbn [RateLimiter.refillTimer RateLimiter.with_tokens
         RateLimiter.with_lastRefill].
    destruct (RateLimiter.refillTimer l); now repeat split.
  - unfold RateLimiter.dispose, RateLimiter.reset.
    rewrite resetLoop_closed_form. unfold RateLimiter.stopRefillTimer.
    cbn [RateLimiter.refillTimer RateLimiter.with_tokens
         RateLimiter.with_lastRefill].
    destruct (RateLimiter.refillTimer l); now repeat split.
Qed.

Lemma run_settings ops l :
  let l' := fst (RateLimiter.run ops l) in
  RateLimiter.maxRequests l' = RateLimiter.maxRequests l
  /\ RateLimiter.interval l' = RateLimiter.interval l
  /\ RateLimiter.shouldQueue l' = RateLimiter.shouldQueue l
  /\ RateLimiter.maxQueueSize l' = RateLimiter.maxQueueSize l.
Proof.
  revert l. induction ops as [|op ops IH]; intros l; [now repeat split|].
  cbn [RateLimiter.run].
  pose proof (step_settings op l) as Hstep.
  destruct (RateLimiter.step op l) as [l1 settled1]. cbn [fst] in Hstep.
  specialize (IH l1).
  destruct (RateLimiter.run ops l1) as [l2 settled2]. cbn [fst] in *.
  destruct Hstep as (H1 & H2 & H3 & H4). destruct IH as (I1 & I2 & I3 & I4).
  repeat split; congruence.
Qed.

(** X10. The limiter stays within its bounds. A limiter made with a
    capacity [maxRequests >= 1] and an interval above 0, after any
    sequence of calls of its methods and turns of its timer, at any times:
    its tokens are between 0 and [maxRequests]; its queue is empty or
    holds at most [maxQueueSize] requests; and the queue is empty when
    queuing is off. *)
Theorem limiter_stays_within_bounds now0 options ops :
  1 <= Cache.default 50 (RateLimiter.opt_maxRequests options) ->
  0 < Cache.default 1000 (RateLimiter.opt_interval options) ->
  let l0 : RateLimiter.t Q := RateLimiter.make now0 options in
  let l := fst (RateLimiter.run ops l0) in
  0 <= RateLimiter.tokens l <= RateLimiter.maxRequests l0
  /\ (RateLimiter.queue l = []
      \/ Z.of_nat (List.length (RateLimiter.queue l))
         <= RateLimiter.maxQueueSize l0)
  /\ (RateLimiter.shouldQueue l0 = false -> RateLimiter.queue l = []).
Proof.
  intros Hcap Hi l0 l.
  pose proof (orderly_run ops l0 (orderly_make now0 options Hcap Hi))
    as ((_ & _ & Htok & Hq & Hoff) & Hle & _).
  destruct (run_settings ops l0) as (Hm & _ & Hs & Hmq).
  fold l in Htok, Hq, Hoff, Hle, Hm, Hs, Hmq.
  rewrite <- Hm, <- Hmq, <- Hs. auto.
Qed.

(** X11. No token lies idle while a request waits. A limiter made with a
    capacity [maxRequests >= 1] and an interval above 0, after any
    sequence of calls and timer turns: it has no token left or its queue
    is empty. *)
Theorem limiter_no_idle_token_while_waiting now0 options ops :
  1 <= Cache.default 50 (RateLimiter.opt_maxRequests options) ->
  0 < Cache.default 1000 (RateLimiter.opt_interval options) ->
  let l := fst (RateLimiter.run ops (RateLimiter.make (Q := Q) now0 options)) in
  RateLimiter.tokens l = 0 \/ RateLimiter.queue l = [].
Proof.
  intros Hcap Hi l.
  exact (proj1 (proj2 (proj2 (orderly_run ops _
                                (orderly_make now0 options Hcap Hi))))).
Qed.

(** X12. The interval timer is set exactly while a request waits. A
    limiter made with a capacity [maxRequests >= 1] and an interval above
    0, after any sequence of calls and timer turns: [refillTimer] is set
    if and only if the queue is not empty. In particular [reset] and
    [dispose] leave no timer behind, and a queued request always has a
    timer that will serve it. *)
Theorem limiter_timer_iff_waiting now0 options ops :
  1 <= Cache.default 50 (RateLimiter.opt_maxRequests options) ->
  0 < Cache.default 1000 (RateLimiter.opt_interval options) ->
  let l := fst (RateLimiter.run ops (RateLimiter.make (Q := Q) now0 options)) in
  RateLimiter.refillTimer l = true <-> RateLimiter.queue l <> [].
Proof.
  intros Hcap Hi l.
  exact (proj2 (proj2 (proj2 (orderly_run ops _
                                (orderly_make now0 options Hcap Hi))))).
Qed.

(** [tryAcquire] before the interval is over. *)
Lemma tryAcquire_no_refill now l :
  now - RateLimiter.lastRefill l < RateLimiter.interval l ->
  RateLimiter.tryAcquire now l
  = if 0 <? RateLimiter.tokens l
    then (true, RateLimiter.with_tokens l (RateLimiter.tokens l - 1), [])
    else (false, l, []).
Proof.
  intros He. unfold RateLimiter.tryAcquire, RateLimiter.refill.
  destruct (Z.leb_spec (RateLimiter.interval l)
              (now - RateLimiter.lastRefill l)); [lia|reflexivity].
Qed.

(** X13. No more than the tokens at hand within one interval. On a
    limiter with [t] tokens, of any number of calls of [tryAcquire] made
    before the interval since the last refill is over, the first [t]
    answer [true] and every later one answers [false]; the tokens taken
    are as many as the calls that succeeded, and nothing else of the
    limiter changes. *)
Theorem limiter_tryAcquire_burst times l :
  Forall (fun now => now - RateLimiter.lastRefill l < RateLimiter.interval l)
    times ->
  let granted := Nat.min (List.length times)
                   (Z.to_nat (RateLimiter.tokens l)) in
  RateLimiter.tryAcquires times l
  = (repeat true granted ++ repeat false (List.length times - granted),
     RateLimiter.with_tokens l (RateLimiter.tokens l - Z.of_nat granted)).
Proof.
  revert l. induction times as [|now times IH]; intros l Hbefore.
  - cbn. replace (RateLimiter.tokens l - 0) with (RateLimiter.tokens l) by lia.
    now destruct l.
  - inversion Hbefore as [|? ? Hnow Hrest]; subst.
    cbn [RateLimiter.tryAcquires]. rewrite tryAcquire_no_refill by assumption.
    destruct (Z.ltb_spec 0 (RateLimiter.tokens l)) as [Hpos|Hnone].
    + rewrite IH by exact Hrest. cbn zeta.
      cbn [RateLimiter.tokens RateLimiter.with_tokens List.length].
      replace (Z.to_nat (RateLimiter.tokens l))
        with (S (Z.to_nat (RateLimiter.tokens l - 1))) by lia.
      cbn [Nat.min repeat app Nat.sub]. f_equal.
      unfold RateLimiter.with_tokens.
      cbn [RateLimiter.maxRequests RateLimiter.interval
           RateLimiter.shouldQueue RateLimiter.maxQueueSize
           RateLimiter.lastRefill RateLimiter.queue RateLimiter.refillTimer].
      f_equal. lia.
    + rewrite IH by exact Hrest. cbn zeta. cbn [List.length].
      replace (Z.to_nat (RateLimiter.tokens l)) with O by lia.
      rewrite !Nat.min_0_r. cbn [repeat app Nat.sub].
      rewrite Nat.sub_0_r. reflexivity.
Qed.

(** X14. [dispose()] a second time has nothing left to do: it rejects no
    request and leaves the limiter as the first call left it, but for the
    anchor of the refill, which it sets to its own time. *)
Theorem limiter_dispose_twice now1 now2 l :
  let l1 := fst (RateLimiter.dispose now1 l) in
  RateLimiter.dispose now2 l1 = (RateLimiter.with_lastRefill l1 now2, [])
  /\ RateLimiter.queue l1 = []
  /\ RateLimiter.tokens l1 = RateLimiter.maxRequests l1
  /\ RateLimiter.refillTimer l1 = false.
Proof.
  unfold RateLimiter.dispose, RateLimiter.reset.
  rewrite !resetLoop_closed_form.
  destruct l as [C I sq mq tk lr q timer].
  destruct timer; cbn; rewrite ?resetLoop_closed_form; repeat split.
Qed.

(** X15. The request at the head of the queue is served by the first
    refill that finds an interval gone by: on a steady limiter whose
    queue starts with [request], a refill at a time [now] with
    [now - lastRefill >= interval] resolves [request] first. *)
Theorem limiter_refill_serves_head now l request rest :
  RateLimiter.steady l ->
  RateLimiter.queue l = request :: rest ->
  RateLimiter.interval l <= now - RateLimiter.lastRefill l ->
  exists settled,
    snd (RateLimiter.refill now l) = RateLimiter.Resolve request :: settled
    /\ RateLimiter.queue (fst (RateLimiter.refill now l))
       = skipn (List.length settled) rest
    /\ (forall s, In s settled -> exists r, s = RateLimiter.Resolve r).
Proof.
  intros (Hcap & Hi & Htok & _) Hqueue He. unfold RateLimiter.refill.
  destruct (Z.leb_spec (RateLimiter.interval l)
              (now - RateLimiter.lastRefill l)); [|lia].
  set (l0 := RateLimiter.with_lastRefill _ _).
  destruct (processQueue_fields l0) as (_ & Hq & _).
  destruct (processQueue_settled l0) as (Hsettled & _).
  assert (Hn : 1 <= (now - RateLimiter.lastRefill l) / RateLimiter.interval l)
    by (apply Z.div_le_lower_bound; lia).
  assert (Hrefilled : 1 <= RateLimiter.tokens l0).
  { unfold l0. cbn [RateLimiter.tokens RateLimiter.with_lastRefill
                      RateLimiter.with_tokens]. nia. }
  change (RateLimiter.queue l0) with (RateLimiter.queue l) in *.
  rewrite Hsettled, Hq, Hqueue. cbn [List.length].
  replace (Z.to_nat (RateLimiter.tokens l0))
    with (S (Z.to_nat (RateLimiter.tokens l0 - 1))) by lia.
  cbn [Nat.min firstn skipn map].
  eexists. split; [reflexivity|]. split.
  - rewrite length_map, length_firstn. f_equal. lia.
  - intros s Hin. apply in_map_iff in Hin as (r & <- & _). now exists r.
Qed.

End RateLimiterInvariants.

(* ===================================================================== *)
(** ** More on the coordinator: misses, failures, disposal                *)
(* ===================================================================== *)

Section CoordinatorPaths.
Context {P R F Q : Type}.
Variable upstream : nat -> P -> F + list R.
Implicit Types (g : Geocoder.t R Q) (w : Geocoder.World)
  (c : Cache.t (list R)).

(** A call that finds nothing in the cache goes on to the admission, on
    the object the lookup left. *)
Lemma fetch_missed clock handle parameters cacheKey g w :
  Geocoder.missed (Geocoder.t_get clock) cacheKey g = true ->
  Geocoder.requestWithCacheAndRateLimit upstream clock handle parameters
    cacheKey g w
  = Geocoder.fromAcquire upstream clock handle parameters cacheKey
      (Geocoder.afterLookup (Geocoder.t_get clock) cacheKey g) w.
Proof.
  unfold Geocoder.missed, Geocoder.requestWithCacheAndRateLimit,
    Geocoder.afterLookup.
  destruct g as [[c|] rl]; cbn [Geocoder.cache Geocoder.rateLimiter option_map];
    [|reflexivity].
  destruct (Cache.get (Geocoder.t_get clock) cacheKey c) as [[cached|] c'];
    cbn [fst snd]; [discriminate|reflexivity].
Qed.

Lemma usable_afterLookup now cacheKey g :
  Geocoder.usable g -> Geocoder.usable (Geocoder.afterLookup now cacheKey g).
Proof.
  unfold Geocoder.usable, Geocoder.afterLookup.
  destruct (Geocoder.cache g) as [c|]; cbn [Geocoder.cache option_map];
    [|trivial].
  intros H. now rewrite (proj1 (cache_get_frame now cacheKey c)).
Qed.

(** After the admission the upstream is asked once; the limiter is not
    touched again, and the cache is touched only to store a result that is
    not empty. *)
Lemma afterAcquire_usable now parameters cacheKey g w :
  Geocoder.usable g ->
  exists g',
    Geocoder.afterAcquire upstream now parameters cacheKey g w
    = Some (Geocoder.answered (upstream (Geocoder.calls w) parameters), g',
            {| Geocoder.calls := S (Geocoder.calls w) |})
    /\ Geocoder.rateLimiter g' = Geocoder.rateLimiter g
    /\ (Geocoder.cache g = None -> Geocoder.cache g' = None)
    /\ (upstream (Geocoder.calls w) parameters = inr [] -> g' = g)
    /\ (forall failure,
           upstream (Geocoder.calls w) parameters = inl failure -> g' = g).
Proof.
  unfold Geocoder.usable, Geocoder.afterAcquire, Geocoder.request.
  intros Husable.
  destruct (upstream (Geocoder.calls w) parameters) as [failure|results].
  - exists g. repeat split; auto.
  - destruct (Geocoder.cache g) as [c|] eqn:Hc.
    + destruct results as [|r results].
      * exists g. repeat split; auto; discriminate.
      * destruct (cache_set_stores now cacheKey (r :: results) c Husable)
          as (c' & Hset & _).
        rewrite Hset. eexists. repeat split; discriminate.
    + exists g. destruct results; repeat split; auto; discriminate.
Qed.

(** A call that finds nothing in the cache and is admitted at once. *)
Lemma fetch_missed_admitted clock handle parameters cacheKey g w :
  Geocoder.usable g ->
  Geocoder.missed (Geocoder.t_get clock) cacheKey g = true ->
  Geocoder.admitted (Geocoder.t_acquire clock) handle g = true ->
  let g0 := Geocoder.afterLookup (Geocoder.t_get clock) cacheKey g in
  let g1 :=
    match Geocoder.rateLimiter g with
    | None => g0
    | Some l =>
        Geocoder.with_rateLimiter g0
          (snd (fst (RateLimiter.acquire (Geocoder.t_acquire clock)
                       handle l)))
    end in
  let settled :=
    match Geocoder.rateLimiter g with
    | None => []
    | Some l => snd (RateLimiter.acquire (Geocoder.t_acquire clock) handle l)
    end in
  exists g',
    Geocoder.requestWithCacheAndRateLimit upstream clock handle parameters
      cacheKey g w
    = Some (Geocoder.answered (upstream (Geocoder.calls w) parameters), g',
            {| Geocoder.calls := S (Geocoder.calls w) |}, settled)
    /\ Geocoder.afterAcquire upstream (Geocoder.t_set clock) parameters
         cacheKey g1 w
       = Some (Geocoder.answered (upstream (Geocoder.calls w) parameters), g',
               {| Geocoder.calls := S (Geocoder.calls w) |})
    /\ Geocoder.rateLimiter g' = Geocoder.rateLimiter g1.
Proof.
  intros Husable Hmiss Hadm g0 g1 settled.
  rewrite (fetch_missed _ _ _ _ _ _ Hmiss). fold g0.
  pose proof (usable_afterLookup (Geocoder.t_get clock) cacheKey g Husable)
    as Husable0. fold g0 in Husable0.
  unfold Geocoder.fromAcquire, Geocoder.admitted in *.
  change (Geocoder.rateLimiter g0) with (Geocoder.rateLimiter g).
  subst g1 settled.
  destruct (Geocoder.rateLimiter g) as [l|].
  - destruct (RateLimiter.acquire _ handle l) as [[result l'] settled].
    cbn [fst snd] in *. destruct result; try discriminate.
    destruct (afterAcquire_usable (Geocoder.t_set clock) parameters cacheKey
                (Geocoder.with_rateLimiter g0 l') w Husable0)
      as (g' & Hafter & Hrl & _).
    rewrite Hafter. now exists g'.
  - destruct (afterAcquire_usable (Geocoder.t_set clock) parameters cacheKey
                g0 w Husable0) as (g' & Hafter & Hrl & _).
    rewrite Hafter. now exists g'.
Qed.

End CoordinatorPaths.

Section CoordinatorMore.
Context {P R F Q : Type}.
Variable upstream : nat -> P -> F + list R.
Implicit Types (g : Geocoder.t R Q) (w : Geocoder.World)
  (c : Cache.t (list R)).

Lemma get_miss_stays_missed {T : Type} now now' key (c : Cache.t T) :
  JsMap.wf (Cache.cache c) ->
  fst (Cache.get now key c) = None ->
  fst (Cache.get now' key (snd (Cache.get now key c))) = None.
Proof.
  intros Hwf. unfold Cache.get at 1 3.
  destruct (JsMap.get key (Cache.cache c)) as [entry|] eqn:Hget.
  - destruct (Cache.expiresAt entry <? now); [|discriminate].
    intros _. cbn [snd]. unfold Cache.get.
    cbn [Cache.cache Cache.with_cache].
    now rewrite jsmap_get_remove_same.
  - intros _. cbn [snd]. unfold Cache.get. now rewrite Hget.
Qed.

(** X16. A call that the limiter turns away never reaches the upstream.
    When the lookup finds nothing and [acquire] fails, the call throws the
    [RateLimitError] of [acquire] with its message; the upstream has not
    been asked, nothing has been stored, and the limiter is as its refill
    left it. *)
Theorem coordinator_rate_limited_skips_upstream
    clock handle parameters cacheKey g w l message :
  Geocoder.rateLimiter g = Some l ->
  Geocoder.missed (Geocoder.t_get clock) cacheKey g = true ->
  fst (fst (RateLimiter.acquire (Geocoder.t_acquire clock) handle l))
  = RateLimiter.Failed message ->
  Geocoder.requestWithCacheAndRateLimit upstream clock handle parameters
    cacheKey g w
  = Some (Geocoder.Threw (Geocoder.RateLimitError message),
          Geocoder.with_rateLimiter
            (Geocoder.afterLookup (Geocoder.t_get clock) cacheKey g)
            (fst (RateLimiter.refill (Geocoder.t_acquire clock) l)),
          w,
          snd (RateLimiter.refill (Geocoder.t_acquire clock) l)).
Proof.
  intros Hl Hmiss Hfail. rewrite (fetch_missed _ _ _ _ _ _ _ Hmiss).
  unfold Geocoder.fromAcquire.
  change (Geocoder.rateLimiter (Geocoder.afterLookup _ cacheKey g))
    with (Geocoder.rateLimiter g).
  rewrite Hl. revert Hfail. unfold RateLimiter.acquire.
  destruct (RateLimiter.refill (Geocoder.t_acquire clock) l) as [l1 settled].
  cbn [fst snd].
  destruct (0 <? RateLimiter.tokens l1); cbn [fst]; [discriminate|].
  destruct (negb (RateLimiter.shouldQueue l1)); cbn [fst];
    [now intros [= <-]|].
  destruct (RateLimiter.maxQueueSize l1 <=? _); cbn [fst];
    [now intros [= <-]|discriminate].
Qed.

(** A call whose answer is a failure or the empty list stores nothing. *)
Lemma fetch_miss_not_stored
    clock handle parameters cacheKey g w :
  Geocoder.usable g ->
  Geocoder.missed (Geocoder.t_get clock) cacheKey g = true ->
  Geocoder.admitted (Geocoder.t_acquire clock) handle g = true ->
  (upstream (Geocoder.calls w) parameters = inr []
   \/ exists failure, upstream (Geocoder.calls w) parameters = inl failure) ->
  exists g' settled,
    Geocoder.requestWithCacheAndRateLimit upstream clock handle parameters
      cacheKey g w
    = Some (Geocoder.answered (upstream (Geocoder.calls w) parameters), g',
            {| Geocoder.calls := S (Geocoder.calls w) |}, settled)
    /\ Geocoder.cache g'
       = Geocoder.cache
           (Geocoder.afterLookup (Geocoder.t_get clock) cacheKey g)
    /\ (Geocoder.wellFormed g ->
        forall now', Geocoder.missed now' cacheKey g' = true).
Proof.
  intros Husable Hmiss Hadm Hanswer.
  destruct (fetch_missed_admitted upstream clock handle parameters cacheKey
              g w Husable Hmiss Hadm) as (g' & Hfetch & Hafter & _).
  set (g0 := Geocoder.afterLookup (Geocoder.t_get clock) cacheKey g) in *.
  match type of Hafter with
  | Geocoder.afterAcquire _ _ _ _ ?x _ = _ => set (g1 := x) in *
  end.
  assert (Hcache1 : Geocoder.cache g1 = Geocoder.cache g0)
    by (unfold g1; now destruct (Geocoder.rateLimiter g)).
  assert (Husable1 : Geocoder.usable g1).
  { unfold Geocoder.usable. rewrite Hcache1.
    apply (usable_afterLookup _ _ _ Husable). }
  destruct (afterAcquire_usable upstream (Geocoder.t_set clock) parameters
              cacheKey g1 w Husable1)
    as (g'' & Hafter' & _ & _ & Hempty & Hfailure).
  rewrite Hafter in Hafter'. injection Hafter' as Hg.
  assert (Hsame : g' = g1).
  { rewrite Hg. destruct Hanswer as [H|[failure H]];
      [now apply Hempty|now apply (Hfailure failure)]. }
  eexists g', _. split; [exact Hfetch|].
  split; [now rewrite Hsame|].
  intros Hwf now'. unfold Geocoder.missed. rewrite Hsame, Hcache1.
  unfold g0, Geocoder.afterLookup. cbn [Geocoder.cache].
  revert Hwf Hmiss. unfold Geocoder.wellFormed, Geocoder.missed.
  destruct (Geocoder.cache g) as [c|]; cbn [option_map]; [|reflexivity].
  intros Hwf Hmiss.
  rewrite get_miss_stays_missed; [reflexivity|assumption|].
  now destruct (fst (Cache.get (Geocoder.t_get clock) cacheKey c)).
Qed.

(** X17. Only a result that is not empty is stored. When a call finds
    nothing in the cache, is admitted, and the upstream fails or answers
    the empty list, the call passes the answer on, the upstream having
    been asked once, and the cache is exactly as the lookup left it; with
    each key held once, a lookup of the same key afterwards finds nothing
    either, at whatever time. *)
Theorem coordinator_stores_only_nonempty
    clock handle parameters cacheKey g w :
  Geocoder.usable g ->
  Geocoder.missed (Geocoder.t_get clock) cacheKey g = true ->
  Geocoder.admitted (Geocoder.t_acquire clock) handle g = true ->
  (upstream (Geocoder.calls w) parameters = inr []
   \/ exists failure, upstream (Geocoder.calls w) parameters = inl failure) ->
  exists g' settled,
    Geocoder.requestWithCacheAndRateLimit upstream clock handle parameters
      cacheKey g w
    = Some (Geocoder.answered (upstream (Geocoder.calls w) parameters), g',
            {| Geocoder.calls := S (Geocoder.calls w) |}, settled)
    /\ Geocoder.cache g'
       = Geocoder.cache
           (Geocoder.afterLookup (Geocoder.t_get clock) cacheKey g)
    /\ (Geocoder.wellFormed g ->
        forall now', Geocoder.missed now' cacheKey g' = true).
Proof.
  intros Husable Hmiss Hadm Hanswer.
  now apply fetch_miss_not_stored.
Qed.


(** X19. With the cache off every admitted call asks the upstream, once,
    and nothing is kept: a call with a key already asked for asks
    again. *)
Theorem coordinator_without_cache
    clock1 clock2 handle1 handle2 parameters1 parameters2 cacheKey g w :
  Geocoder.cache g = None ->
  Geocoder.rateLimiter g = None ->
  exists g1 g2,
    Geocoder.requestWithCacheAndRateLimit upstream clock1 handle1
      parameters1 cacheKey g w
    = Some (Geocoder.answered (upstream (Geocoder.calls w) parameters1), g1,
            {| Geocoder.calls := S (Geocoder.calls w) |}, [])
    /\ Geocoder.requestWithCacheAndRateLimit upstream clock2 handle2
         parameters2 cacheKey g1
         {| Geocoder.calls := S (Geocoder.calls w) |}
       = Some (Geocoder.answered
                 (upstream (S (Geocoder.calls w)) parameters2), g2,
               {| Geocoder.calls := S (S (Geocoder.calls w)) |}, [])
    /\ Geocoder.cache g2 = None.
Proof.
  intros Hc Hoff. exists g, g.
  unfold Geocoder.requestWithCacheAndRateLimit, Geocoder.fromAcquire,
    Geocoder.afterAcquire, Geocoder.request.
  rewrite Hc, Hoff. cbn [Geocoder.calls].
  destruct (upstream (Geocoder.calls w) parameters1) as [f1|[|r1 rs1]];
    destruct (upstream (S (Geocoder.calls w)) parameters2) as [f2|[|r2 rs2]];
    repeat split.
Qed.

(** X20. A parked call is not left waiting by [dispose]. When the lookup
    finds nothing and [acquire] puts the call in the queue, the call is
    suspended without the upstream having been asked, and its handle is
    in the queue of the limiter. Whatever calls and timer turns the
    limiter then sees, the handle has been settled on the way or is still
    queued; and a [dispose] of the coordinator that finds it queued
    rejects it with the error of the reset. So after a [dispose],
    whenever it comes, the call has been settled: on the way, or by the
    [dispose] itself. *)
Theorem coordinator_parked_call_released
    clock handle parameters cacheKey g w l :
  Geocoder.rateLimiter g = Some l ->
  Geocoder.missed (Geocoder.t_get clock) cacheKey g = true ->
  fst (fst (RateLimiter.acquire (Geocoder.t_acquire clock) handle l))
  = RateLimiter.Queued ->
  exists g' settled l',
    Geocoder.requestWithCacheAndRateLimit upstream clock handle parameters
      cacheKey g w
    = Some (Geocoder.Suspended, g', w, settled)
    /\ Geocoder.rateLimiter g' = Some l'
    /\ In handle (RateLimiter.queue l')
    /\ (forall now' (g2 : Geocoder.t R Q) l2,
          Geocoder.rateLimiter g2 = Some l2 ->
          In handle (RateLimiter.queue l2) ->
          In (RateLimiter.Reject handle "Rate limiter was reset")
            (snd (Geocoder.dispose now' g2)))
    /\ (forall ops now' (g2 : Geocoder.t R Q),
          Geocoder.rateLimiter g2 = Some (fst (RateLimiter.run ops l')) ->
          In handle
            (map RateLimiter.settledRequest (snd (RateLimiter.run ops l')))
          \/ In (RateLimiter.Reject handle "Rate limiter was reset")
               (snd (Geocoder.dispose now' g2))).
Proof.
  intros Hl Hmiss Hqueued. rewrite (fetch_missed _ _ _ _ _ _ _ Hmiss).
  unfold Geocoder.fromAcquire.
  change (Geocoder.rateLimiter (Geocoder.afterLookup _ cacheKey g))
    with (Geocoder.rateLimiter g).
  rewrite Hl.
  assert (Hin : In handle
                  (RateLimiter.queue
                     (snd (fst (RateLimiter.acquire
                                  (Geocoder.t_acquire clock) handle l))))).
  { revert Hqueued. unfold RateLimiter.acquire.
    destruct (RateLimiter.refill (Geocoder.t_acquire clock) l)
      as [l1 settled].
    destruct (0 <? RateLimiter.tokens l1); cbn [fst snd]; [discriminate|].
    destruct (negb (RateLimiter.shouldQueue l1)); cbn [fst snd];
      [discriminate|].
    destruct (RateLimiter.maxQueueSize l1 <=? _); cbn [fst snd];
      [discriminate|].
    intros _. cbn [RateLimiter.queue RateLimiter.with_queue].
    apply in_or_app. right. now left. }
  assert (Hdispose :
            forall now' (g2 : Geocoder.t R Q) l2,
              Geocoder.rateLimiter g2 = Some l2 ->
              In handle (RateLimiter.queue l2) ->
              In (RateLimiter.Reject handle "Rate limiter was reset")
                (snd (Geocoder.dispose now' g2))).
  { intros now' g2 l2 Hl2 Hin2.
    unfold Geocoder.dispose, RateLimiter.dispose. rewrite Hl2.
    destruct (reset_fields now' l2) as (_ & _ & _ & _ & _ & Hsettled).
    destruct (RateLimiter.reset now' l2) as [l'' settled'].
    cbn [snd] in *. rewrite Hsettled.
    now apply (in_map (fun r => RateLimiter.Reject r _)). }
  destruct (RateLimiter.acquire (Geocoder.t_acquire clock) handle l)
    as [[result l'] settled]. cbn [fst snd] in *. subst result.
  eexists _, settled, l'. split; [reflexivity|].
  split; [reflexivity|]. split; [exact Hin|].
  split; [exact Hdispose|].
  intros ops now' g2 Hl2.
  destruct (run_keeps_request ops l' handle Hin) as [Hsettled|Hstill];
    [now left|right].
  now apply (Hdispose now' g2 _ Hl2).
Qed.

(** X21. [dispose()] of the coordinator empties both parts. Afterwards
    the cache statistics show size 0, every lookup finds nothing, the
    queue of the limiter is empty with every request that was in it
    rejected, in order, and no timer is set; a second [dispose] rejects
    nothing. *)
Theorem geocoder_dispose_clears now (g : Geocoder.t R Q) :
  let g' := fst (Geocoder.dispose now g) in
  Geocoder.getCacheStats g'
  = (0, match Geocoder.cache g with Some _ => true | None => false end)
  /\ (forall now' cacheKey, Geocoder.missed now' cacheKey g' = true)
  /\ snd (Geocoder.dispose now g)
     = match Geocoder.rateLimiter g with
       | Some l =>
           map (fun request =>
                  RateLimiter.Reject request "Rate limiter was reset")
             (RateLimiter.queue l)
       | None => []
       end
  /\ (forall l', Geocoder.rateLimiter g' = Some l' ->
        RateLimiter.queue l' = [] /\ RateLimiter.refillTimer l' = false)
  /\ (forall now2, snd (Geocoder.dispose now2 g') = []).
Proof.
  unfold Geocoder.dispose, RateLimiter.dispose.
  destruct g as [cache limiter]. cbn [Geocoder.cache Geocoder.rateLimiter].
  destruct limiter as [l|].
  - destruct (reset_fields now l) as (_ & Hq & Htimer & _ & _ & Hsettled).
    destruct (RateLimiter.reset now l) as [l1 settled]. cbn [fst snd] in *.
    split; [now destruct cache|].
    split; [intros now' cacheKey; now destruct cache|].
    split; [exact Hsettled|].
    split; [intros l' [= <-]; now split|].
    intros now2. cbn [Geocoder.rateLimiter].
    destruct (reset_fields now2 l1) as (_ & _ & _ & _ & _ & Hsettled2).
    destruct (RateLimiter.reset now2 l1) as [l2 settled2]. cbn [snd] in *.
    now rewrite Hsettled2, Hq.
  - cbn [fst snd].
    split; [now destruct cache|].
    split; [intros now' cacheKey; now destruct cache|].
    split; [reflexivity|]. split; [discriminate|reflexivity].
Qed.

(** X22. An admitted call pays one token, whatever the upstream answers.
    When the lookup finds nothing and [acquire] grants at once, the
    upstream is asked once and the limiter is left with one token fewer
    than its refill gave it; the token is not given back when the
    upstream fails. *)
Theorem coordinator_miss_takes_one_token
    clock handle parameters cacheKey g w l :
  Geocoder.usable g ->
  Geocoder.rateLimiter g = Some l ->
  Geocoder.missed (Geocoder.t_get clock) cacheKey g = true ->
  Geocoder.admitted (Geocoder.t_acquire clock) handle g = true ->
  let l1 := fst (RateLimiter.refill (Geocoder.t_acquire clock) l) in
  exists g',
    Geocoder.requestWithCacheAndRateLimit upstream clock handle parameters
      cacheKey g w
    = Some (Geocoder.answered (upstream (Geocoder.calls w) parameters), g',
            {| Geocoder.calls := S (Geocoder.calls w) |},
            snd (RateLimiter.refill (Geocoder.t_acquire clock) l))
    /\ 0 < RateLimiter.tokens l1
    /\ Geocoder.rateLimiter g'
       = Some (RateLimiter.with_tokens l1 (RateLimiter.tokens l1 - 1)).
Proof.
  intros Husable Hl Hmiss Hadm l1.
  destruct (fetch_missed_admitted upstream clock handle parameters cacheKey
              g w Husable Hmiss Hadm) as (g' & Hfetch & _ & Hrl).
  rewrite Hl in Hfetch, Hrl. exists g'.
  revert Hadm Hfetch Hrl. unfold Geocoder.admitted. rewrite Hl.
  unfold RateLimiter.acquire. subst l1.
  destruct (RateLimiter.refill (Geocoder.t_acquire clock) l) as [l1 settled].
  cbn [fst snd].
  destruct (Z.ltb_spec 0 (RateLimiter.tokens l1)); cbn [fst snd].
  - intros _ Hfetch Hrl. now repeat split.
  - destruct (negb (RateLimiter.shouldQueue l1)); cbn [fst]; [discriminate|].
    destruct (RateLimiter.maxQueueSize l1 <=? _); cbn [fst]; discriminate.
Qed.

End CoordinatorMore.

(* ===================================================================== *)
(** ** The upstream call                                                  *)
(* ===================================================================== *)

Section WireProperties.
Context {L : Type}.
Implicit Types (outcome : Wire.FetchOutcome L).

Lemma handleResponse_returns_iff
    (response : Wire.RawGeocodeResponse.t L) results :
  Wire.handleResponse response = inr results
  <-> (Wire.RawGeocodeResponse.status response = "OK"%string
       /\ results
          = map Wire.toGeocodeResult (Wire.RawGeocodeResponse.results response))
      \/ (Wire.RawGeocodeResponse.status response = "ZERO_RESULTS"%string
          /\ results = []).
Proof.
  unfold Wire.handleResponse.
  destruct (String.eqb_spec (Wire.RawGeocodeResponse.status response) "OK")
    as [Hok|Hok].
  { split; [intros [= <-]; now left|].
    intros [[_ ->]|[H _]]; [reflexivity|]. rewrite Hok in H. discriminate. }
  destruct (String.eqb_spec (Wire.RawGeocodeResponse.status response)
              "ZERO_RESULTS") as [Hzero|Hzero].
  { split; [intros [= <-]; now right|].
    intros [[H _]|[_ ->]]; [contradiction|reflexivity]. }
  destruct (String.eqb _ "OVER_DAILY_LIMIT" || String.eqb _ "OVER_QUERY_LIMIT");
    [|destruct (String.eqb _ "REQUEST_DENIED");
      [|destruct (String.eqb _ "INVALID_REQUEST")]];
    (split; [discriminate|intros [[H _]|[H _]]; contradiction]).
Qed.

(** X23. [request] resolves exactly on a response that is [ok], whose
    body parses, and whose status is OK or ZERO_RESULTS: with the raw
    results converted one for one, in their order, for OK, and with the
    empty list, whatever the body holds, for ZERO_RESULTS. In every other
    case it throws. *)
Theorem wire_request_resolves_iff outcome results :
  Wire.request outcome = inr results
  <-> exists response data,
        outcome = Wire.FetchResolves response
        /\ Wire.Response.ok response = true
        /\ Wire.Response.json response = Wire.JsonData data
        /\ ((Wire.RawGeocodeResponse.status data = "OK"%string
             /\ results
                = map Wire.toGeocodeResult
                    (Wire.RawGeocodeResponse.results data))
            \/ (Wire.RawGeocodeResponse.status data = "ZERO_RESULTS"%string
                /\ results = [])).
Proof.
  unfold Wire.request, Wire.tryBlock. split.
  - destruct outcome as [error|response]; [discriminate|].
    destruct (Wire.Response.ok response) eqn:Hok; cbn [negb]; [|discriminate].
    destruct (Wire.Response.json response) as [error|data] eqn:Hjson;
      [discriminate|].
    destruct (Wire.handleResponse data) as [error|rs] eqn:Hhandle;
      [discriminate|].
    intros [= <-]. exists response, data.
    repeat split; auto. now apply handleResponse_returns_iff.
  - intros (response & data & -> & Hok & Hjson & Hcases).
    rewrite Hok, Hjson. cbn [negb].
    apply handleResponse_returns_iff in Hcases. now rewrite Hcases.
Qed.

(** X24. Every error of [handleResponse] carries the status of the
    response, and the [error_message] of the response when there is one.
    For a status other than OK and ZERO_RESULTS it throws an
    [ApiKeyError] exactly for OVER_DAILY_LIMIT, OVER_QUERY_LIMIT and
    REQUEST_DENIED, an [InvalidRequestError] exactly for INVALID_REQUEST,
    and a plain [GeocodingError] for every other status. *)
Theorem wire_handleResponse_error (response : Wire.RawGeocodeResponse.t L) :
  let status := Wire.RawGeocodeResponse.status response in
  status <> "OK"%string ->
  status <> "ZERO_RESULTS"%string ->
  exists name fallback,
    Wire.handleResponse response
    = inl (Wire.GeocodingErrorOf name
             (Wire.orElse (Wire.RawGeocodeResponse.error_message response)
                fallback)
             status)
    /\ (name = "ApiKeyError"%string
        <-> status = "OVER_DAILY_LIMIT"%string
            \/ status = "OVER_QUERY_LIMIT"%string
            \/ status = "REQUEST_DENIED"%string)
    /\ (name = "InvalidRequestError"%string
        <-> status = "INVALID_REQUEST"%string)
    /\ (name = "ApiKeyError"%string \/ name = "InvalidRequestError"%string
        \/ name = "GeocodingError"%string).
Proof.
  intros status Hok Hzero. unfold Wire.handleResponse. fold status.
  clearbody status.
  destruct (String.eqb_spec status "OK"); [contradiction|].
  destruct (String.eqb_spec status "ZERO_RESULTS"); [contradiction|].
  destruct (String.eqb_spec status "OVER_DAILY_LIMIT") as [Hd|Hd];
    [|destruct (String.eqb_spec status "OVER_QUERY_LIMIT") as [Hq|Hq];
      [|destruct (String.eqb_spec status "REQUEST_DENIED") as [Hr|Hr];
        [|destruct (String.eqb_spec status "INVALID_REQUEST") as [Hi|Hi]]]];
    cbn [orb]; try subst status; eexists _, _;
    (split; [reflexivity|]);
    repeat split; intros; auto;
    repeat match goal with
      | H : _ \/ _ |- _ => destruct H
      end;
    try discriminate; try contradiction; auto.
Qed.

End WireProperties.

Section WireErrors.
Context {L : Type}.
Implicit Types (outcome : Wire.FetchOutcome L).

Lemma handleResponse_throws_GeocodingError
    (data : Wire.RawGeocodeResponse.t L) error :
  Wire.handleResponse data = inl error ->
  Wire.instanceofGeocodingError error = true.
Proof.
  unfold Wire.handleResponse.
  destruct (String.eqb _ "OK"); [discriminate|].
  destruct (String.eqb _ "ZERO_RESULTS"); [discriminate|].
  destruct (String.eqb _ "OVER_DAILY_LIMIT" || String.eqb _ "OVER_QUERY_LIMIT");
    [|destruct (String.eqb _ "REQUEST_DENIED");
      [|destruct (String.eqb _ "INVALID_REQUEST")]];
    intros [= <-]; reflexivity.
Qed.

(** X25. What [request] throws, from what its [try] block threw. When
    [request] throws, its [try] block has thrown a value: what [fetch]
    rejected with, the [NetworkError] "HTTP <status>: <statusText>" of a
    response that is not [ok], what the parsing of the body rejected
    with, or the error of [handleResponse]. The error of [request] is
    - that value itself when it is a [GeocodingError], of whatever
      subclass: the errors of [handleResponse] pass through unchanged;
    - for any other [Error], a [NetworkError] whose cause is that value
      and whose message is "Request timed out" when the value is named
      AbortError, and "Request failed: " followed by its message
      otherwise;
    - for a value that is no [Error], the [NetworkError] "An unknown
      error occurred", without cause.
    So [request] throws a [GeocodingError] or a [NetworkError], and
    nothing else. *)
Theorem wire_request_throws outcome error :
  Wire.request outcome = inl error ->
  exists thrown,
    Wire.tryBlock outcome = inl thrown
    /\ (Wire.instanceofGeocodingError thrown = true -> error = thrown)
    /\ (Wire.instanceofGeocodingError thrown = false ->
        Wire.instanceofError thrown = true ->
        error
        = Wire.NetworkErrorOf
            (if String.eqb (Wire.errorName thrown) "AbortError"
             then "Request timed out"
             else "Request failed: " ++ Wire.errorMessage thrown)
            (Some thrown))
    /\ (Wire.instanceofError thrown = false ->
        error = Wire.NetworkErrorOf "An unknown error occurred" None)
    /\ (Wire.instanceofGeocodingError error = true
        \/ exists message cause, error = Wire.NetworkErrorOf message cause)
    /\ (forall rejection,
          outcome = Wire.FetchThrows rejection -> thrown = rejection)
    /\ (forall response : Wire.Response.t L,
          outcome = Wire.FetchResolves response ->
          (Wire.Response.ok response = false ->
           thrown
           = Wire.NetworkErrorOf
               ("HTTP " ++ Wire.decimal (Wire.Response.status response)
                ++ ": " ++ Wire.Response.statusText response)
               None)
          /\ (Wire.Response.ok response = true ->
              forall rejection,
                Wire.Response.json response = Wire.JsonThrows rejection ->
                thrown = rejection)
          /\ (Wire.Response.ok response = true ->
              forall data,
                Wire.Response.json response = Wire.JsonData data ->
                Wire.handleResponse data = inl thrown /\ error = thrown)).
Proof.
  unfold Wire.request.
  destruct (Wire.tryBlock outcome) as [thrown|results] eqn:Htry;
    [|discriminate].
  intros [= <-]. exists thrown. split; [reflexivity|].
  assert (Hpass : Wire.instanceofGeocodingError thrown = true ->
                  Wire.catchBlock thrown = thrown)
    by (unfold Wire.catchBlock; now intros ->).
  split; [exact Hpass|]. split; [|split; [|split; [|split]]].
  - unfold Wire.catchBlock. intros -> ->.
    now destruct (String.eqb (Wire.errorName thrown) "AbortError").
  - unfold Wire.catchBlock. intros Hnot.
    destruct thrown; try discriminate. reflexivity.
  - unfold Wire.catchBlock.
    destruct (Wire.instanceofGeocodingError thrown) eqn:Hg; [now left|].
    right.
    destruct (Wire.instanceofError thrown);
      [destruct (String.eqb (Wire.errorName thrown) "AbortError")|];
      eexists _, _; reflexivity.
  - intros rejection ->. cbn [Wire.tryBlock] in Htry. congruence.
  - intros response ->. cbn [Wire.tryBlock] in Htry.
    destruct (Wire.Response.ok response); cbn [negb] in Htry.
    + split; [discriminate|]. split; intros _.
      * intros rejection Hjson. rewrite Hjson in Htry. congruence.
      * intros data Hjson. rewrite Hjson in Htry.
        split; [exact Htry|].
        apply Hpass. now apply (handleResponse_throws_GeocodingError data).
    + split; [|split; discriminate]. intros _.
      unfold Wire.NetworkError in Htry. congruence.
Qed.

(** X26. A response that is not [ok] is reported twice over. [request]
    throws inside its [try] a [NetworkError] with the message
    "HTTP <status>: <statusText>", catches it as any other [Error], and
    throws a second [NetworkError] whose message is "Request failed: "
    before that message and whose cause is the first; the body of the
    response is not read. *)
Theorem wire_http_error_wrapped (response : Wire.Response.t L) :
  Wire.Response.ok response = false ->
  let inner :=
    ("HTTP " ++ Wire.decimal (Wire.Response.status response) ++ ": "
     ++ Wire.Response.statusText response)%string in
  Wire.request (Wire.FetchResolves response)
  = inl (Wire.NetworkErrorOf ("Request failed: " ++ inner)
           (Some (Wire.NetworkErrorOf inner None))).
Proof.
  intros Hok inner. unfold Wire.request, Wire.tryBlock. rewrite Hok.
  reflexivity.
Qed.

Lemma toGeocodeResult_inj (a b : Wire.RawGeocodeResult.t L) :
  Wire.toGeocodeResult a = Wire.toGeocodeResult b -> a = b.
Proof.
  assert (Hcomponents :
            forall x y : list Wire.RawAddressComponent.t,
              map Wire.toAddressComponent x = map Wire.toAddressComponent y ->
              x = y).
  { induction x as [|[? ? ?] x IH]; intros [|[? ? ?] y]; try discriminate;
      [reflexivity|].
    cbn. intros [= -> -> -> H]. now rewrite (IH y H). }
  destruct a as [ca fa [la ta va ba] pa ua la' tya ma].
  destruct b as [cb fb [lb tb vb bb] pb ub lb' tyb mb].
  unfold Wire.toGeocodeResult, Wire.toGeometry. cbn.
  intros [= Hc -> -> -> -> -> -> Hu -> -> ->].
  apply Hcomponents in Hc. subst cb.
  destruct ua as [[? ?]|], ub as [[? ?]|]; try discriminate;
    [|reflexivity].
  cbn in Hu. now injection Hu as -> ->.
Qed.

(** X27. The conversion of the results loses nothing: two lists of raw
    results that convert to the same list are the same list, and the list
    converted has the length of the raw one. *)
Theorem wire_conversion_injective (a b : list (Wire.RawGeocodeResult.t L)) :
  (map Wire.toGeocodeResult a = map Wire.toGeocodeResult b -> a = b)
  /\ List.length (map Wire.toGeocodeResult a) = List.length a.
Proof.
  split; [|apply length_map].
  revert b. induction a as [|x a IH]; intros [|y b]; try discriminate;
    [reflexivity|].
  cbn [map]. intros H.
  pose proof (f_equal (hd (Wire.toGeocodeResult x)) H) as Hx.
  pose proof (f_equal (@tl _) H) as Hrest. cbn [hd tl] in Hx, Hrest.
  apply toGeocodeResult_inj in Hx. subst y. now rewrite (IH b Hrest).
Qed.

End WireErrors.

Section WireCoordinator.
Context {L P Q : Type}.
Variable fetch : nat -> P -> Wire.FetchOutcome L.

(** X28. Only an OK answer is ever stored. The coordinator over
    [request]: when a call finds nothing in the cache, is admitted, and
    [fetch] resolves with a response that is [ok] and whose body has a
    status other than OK, the call returns the empty list (for
    ZERO_RESULTS) or throws the error of [handleResponse] (for every other
    status), and the cache is exactly as the lookup left it. *)
Theorem coordinator_stores_only_ok_answers
    clock handle parameters cacheKey (g : Geocoder.t (Wire.GeocodeResult.t L) Q)
    w response data :
  Geocoder.usable g ->
  Geocoder.missed (Geocoder.t_get clock) cacheKey g = true ->
  Geocoder.admitted (Geocoder.t_acquire clock) handle g = true ->
  fetch (Geocoder.calls w) parameters = Wire.FetchResolves response ->
  Wire.Response.ok response = true ->
  Wire.Response.json response = Wire.JsonData data ->
  Wire.RawGeocodeResponse.status data <> "OK"%string ->
  exists g' settled,
    Geocoder.requestWithCacheAndRateLimit
      (fun n p => Wire.request (fetch n p)) clock handle parameters
      cacheKey g w
    = Some (Geocoder.answered (Wire.handleResponse data), g',
            {| Geocoder.calls := S (Geocoder.calls w) |}, settled)
    /\ Geocoder.cache g'
       = Geocoder.cache
           (Geocoder.afterLookup (Geocoder.t_get clock) cacheKey g)
    /\ (Wire.RawGeocodeResponse.status data = "ZERO_RESULTS"%string ->
        Wire.handleResponse data = inr []).
Proof.
  intros Husable Hmiss Hadm Hfetch Hok Hjson Hstatus.
  assert (Hrequest : Wire.request (fetch (Geocoder.calls w) parameters)
                     = Wire.handleResponse data).
  { unfold Wire.request, Wire.tryBlock. rewrite Hfetch, Hok, Hjson.
    cbn [negb].
    destruct (Wire.handleResponse data) as [error|results] eqn:Hhandle;
      [|reflexivity].
    unfold Wire.catchBlock.
    now rewrite (handleResponse_throws_GeocodingError data error Hhandle). }
  assert (Hanswer :
            Wire.request (fetch (Geocoder.calls w) parameters) = inr []
            \/ exists failure,
                 Wire.request (fetch (Geocoder.calls w) parameters)
                 = inl failure).
  { rewrite Hrequest.
    destruct (Wire.handleResponse data) as [error|results] eqn:Hhandle;
      [right; now exists error|].
    apply handleResponse_returns_iff in Hhandle as [[H _]|[_ ->]];
      [contradiction|now left]. }
  destruct (fetch_miss_not_stored (fun n p => Wire.request (fetch n p))
              clock handle parameters cacheKey g w Husable Hmiss Hadm Hanswer)
    as (g' & settled & Hcall & Hcache & _).
  cbv beta in Hcall. rewrite Hrequest in Hcall.
  exists g', settled. split; [exact Hcall|]. split; [exact Hcache|].
  intros Hzero. now apply handleResponse_returns_iff; right.
Qed.

End WireCoordinator.

(* ===================================================================== *)
(** ** The cache key                                                      *)
(* ===================================================================== *)

Section CacheKeyOrder.

Lemma keyLt_irrefl a : ~ String_as_OT.lt a a.
Proof.
  exact (RelationClasses.StrictOrder_Irreflexive
           (StrictOrder := String_as_OT.lt_strorder) a).
Qed.

Lemma keyLt_trans a b c :
  String_as_OT.lt a b -> String_as_OT.lt b c -> String_as_OT.lt a c.
Proof.
  exact (RelationClasses.StrictOrder_Transitive
           (StrictOrder := String_as_OT.lt_strorder) a b c).
Qed.

Lemma keyLeb_iff a b :
  CacheKey.keyLeb a b = true <-> a = b \/ String_as_OT.lt a b.
Proof.
  unfold CacheKey.keyLeb.
  destruct (String_as_OT.compare_spec a b) as [Heq|Hlt|Hgt].
  - split; auto.
  - split; auto.
  - split; [discriminate|]. intros [->|Hlt].
    + now apply keyLt_irrefl in Hgt.
    + exfalso. apply (keyLt_irrefl a). now apply keyLt_trans with b.
Qed.

Lemma keyLeb_total a b :
  CacheKey.keyLeb a b = true \/ CacheKey.keyLeb b a = true.
Proof.
  destruct (String_as_OT.compare_spec a b) as [H|H|H];
    [left|left|right]; apply keyLeb_iff; auto.
Qed.

Lemma keyLeb_antisym a b :
  CacheKey.keyLeb a b = true -> CacheKey.keyLeb b a = true -> a = b.
Proof.
  intros Hab Hba. apply keyLeb_iff in Hab, Hba.
  destruct Hab as [->|Hab]; [reflexivity|].
  destruct Hba as [->|Hba]; [reflexivity|].
  exfalso. apply (keyLt_irrefl a). now apply keyLt_trans with b.
Qed.

Lemma keyLeb_trans a b c :
  CacheKey.keyLeb a b = true -> CacheKey.keyLeb b c = true ->
  CacheKey.keyLeb a c = true.
Proof.
  intros Hab Hbc. apply keyLeb_iff in Hab, Hbc. apply keyLeb_iff.
  destruct Hab as [->|Hab]; [assumption|].
  destruct Hbc as [->|Hbc]; [now right|].
  right. now apply keyLt_trans with b.
Qed.

Lemma insert_permutation key keys :
  Permutation (CacheKey.insert key keys) (key :: keys).
Proof.
  induction keys as [|k keys IH]; cbn; [reflexivity|].
  destruct (CacheKey.keyLeb key k); [reflexivity|].
  rewrite IH. apply perm_swap.
Qed.

Lemma sort_permutation keys : Permutation (CacheKey.sort keys) keys.
Proof.
  induction keys as [|k keys IH]; cbn; [reflexivity|].
  rewrite insert_permutation. now constructor.
Qed.

Lemma insert_sorted key keys :
  StronglySorted (fun a b => CacheKey.keyLeb a b = true) keys ->
  StronglySorted (fun a b => CacheKey.keyLeb a b = true)
    (CacheKey.insert key keys).
Proof.
  induction keys as [|k keys IH]; cbn; intros Hsorted.
  - constructor; [constructor|constructor].
  - inversion Hsorted as [|? ? Hrest Hall]; subst.
    destruct (CacheKey.keyLeb key k) eqn:Hle.
    + constructor; [assumption|]. constructor; [assumption|].
      apply Forall_forall. intros x Hx.
      apply keyLeb_trans with (b := k); [assumption|].
      now apply (proj1 (Forall_forall _ _) Hall).
    + constructor; [now apply IH|].
      apply Forall_forall. intros x Hx.
      apply (Permutation_in _ (insert_permutation key keys)) in Hx.
      destruct Hx as [<-|Hx].
      * destruct (keyLeb_total key k) as [H|H]; [congruence|assumption].
      * now apply (proj1 (Forall_forall _ _) Hall).
Qed.

Lemma sort_sorted keys :
  StronglySorted (fun a b => CacheKey.keyLeb a b = true) (CacheKey.sort keys).
Proof.
  induction keys as [|k keys IH]; cbn; [constructor|].
  now apply insert_sorted.
Qed.

Lemma sorted_unique (l l' : list string) :
  StronglySorted (fun a b => CacheKey.keyLeb a b = true) l ->
  StronglySorted (fun a b => CacheKey.keyLeb a b = true) l' ->
  Permutation l l' -> l = l'.
Proof.
  revert l'. induction l as [|a l IH]; intros l' Hl Hl' Hperm.
  - now apply Permutation_nil in Hperm.
  - destruct l' as [|b l'];
      [apply Permutation_sym, Permutation_nil in Hperm; discriminate|].
    inversion Hl as [|? ? Hrest Hall]; subst.
    inversion Hl' as [|? ? Hrest' Hall']; subst.
    assert (Hab : a = b).
    { assert (Ha : In a (b :: l'))
        by (apply (Permutation_in _ Hperm); now left).
      assert (Hb : In b (a :: l))
        by (apply (Permutation_in _ (Permutation_sym Hperm)); now left).
      destruct Ha as [->|Ha]; [reflexivity|].
      destruct Hb as [->|Hb]; [reflexivity|].
      apply keyLeb_antisym.
      - now apply (proj1 (Forall_forall _ _) Hall).
      - now apply (proj1 (Forall_forall _ _) Hall'). }
    subst b. f_equal. apply IH; try assumption.
    now apply Permutation_cons_inv in Hperm.
Qed.

(** Sorting gives the same list for every order of the same keys. *)
Lemma sort_of_permutation keys keys' :
  Permutation keys keys' -> CacheKey.sort keys = CacheKey.sort keys'.
Proof.
  intros Hperm. apply sorted_unique; try apply sort_sorted.
  rewrite !sort_permutation. exact Hperm.
Qed.

(** Where [insert] puts the key. *)
Lemma insert_split key keys :
  exists before after,
    keys = before ++ after
    /\ CacheKey.insert key keys = before ++ key :: after.
Proof.
  induction keys as [|k keys IH]; cbn.
  - now exists [], [].
  - destruct (CacheKey.keyLeb key k).
    + now exists [], (k :: keys).
    + destruct IH as (before & after & -> & ->).
      now exists (k :: before), after.
Qed.

End CacheKeyOrder.

Section CacheKeyProperties.
Context {V : Type}.
Variable stringify : JsMap.t V -> string.
Implicit Types (params : CacheKey.Params (V := V)).

Lemma get_of_permutation (params params' : JsMap.t (CacheKey.Param V)) k :
  JsMap.wf params -> Permutation params params' ->
  JsMap.get k params = JsMap.get k params'.
Proof.
  intros Hwf Hperm. revert Hwf.
  induction Hperm as [|[k0 v0] l l' Hperm IH
                     |[k1 v1] [k2 v2] l|l l' l'' H1 IH1 H2 IH2];
    intros Hwf.
  - reflexivity.
  - apply jsmap_wf_cons_inv in Hwf as [_ Hwf]. cbn.
    destruct (String.eqb k k0); [reflexivity|now apply IH].
  - unfold JsMap.wf in Hwf. cbn in Hwf.
    inversion Hwf as [|? ? Hnin _]; subst. cbn.
    destruct (String.eqb_spec k k1) as [Hk1|Hk1];
      destruct (String.eqb_spec k k2) as [Hk2|Hk2]; try reflexivity.
    exfalso. apply Hnin. left. congruence.
  - rewrite IH1 by assumption. apply IH2.
    unfold JsMap.wf, JsMap.keys in *.
    apply (Permutation_NoDup (Permutation_map fst H1)). assumption.
Qed.

Lemma fold_reducer_ext (params params' : JsMap.t (CacheKey.Param V))
    keys (acc : JsMap.t V) :
  (forall key, In key keys ->
               CacheKey.lookup key params = CacheKey.lookup key params') ->
  fold_left (CacheKey.reducer params) keys acc
  = fold_left (CacheKey.reducer params') keys acc.
Proof.
  revert acc. induction keys as [|k keys IH]; intros acc Hsame;
    [reflexivity|].
  cbn [fold_left]. unfold CacheKey.reducer at 2 4.
  rewrite (Hsame k (or_introl eq_refl)).
  apply IH. intros key Hin. apply Hsame. now right.
Qed.

(** X29. The cache key does not depend on the order of the parameters:
    two objects with the same properties, each key once, listed in any
    two orders, get the same key. *)
Theorem createCacheKey_order_free
    (params params' : JsMap.t (CacheKey.Param V)) :
  JsMap.wf params ->
  Permutation params params' ->
  CacheKey.createCacheKey stringify params
  = CacheKey.createCacheKey stringify params'.
Proof.
  intros Hwf Hperm. unfold CacheKey.createCacheKey, CacheKey.sorted.
  f_equal.
  rewrite (sort_of_permutation (JsMap.keys params) (JsMap.keys params'))
    by (unfold JsMap.keys; now apply Permutation_map).
  apply fold_reducer_ext. intros key _. unfold CacheKey.lookup.
  now rewrite (get_of_permutation params params' key Hwf Hperm).
Qed.

(** X30. A parameter that is [undefined] or [null] does not count: an
    object with one more property, whose value is [undefined] or [null],
    gets the key of the object without it. *)
Theorem createCacheKey_skips_nullish
    (params : JsMap.t (CacheKey.Param V)) key value :
  JsMap.get key params = None ->
  value = CacheKey.Undefined \/ value = CacheKey.Null ->
  CacheKey.createCacheKey stringify ((key, value) :: params)
  = CacheKey.createCacheKey stringify params.
Proof.
  intros Hfresh Hnullish. unfold CacheKey.createCacheKey, CacheKey.sorted.
  f_equal. cbn [JsMap.keys map fst CacheKey.sort].
  change (map fst params) with (JsMap.keys params).
  destruct (insert_split key (CacheKey.sort (JsMap.keys params)))
    as (before & after & Hkeys & ->).
  rewrite Hkeys, !fold_left_app. cbn [fold_left].
  assert (Hskip : forall acc,
             CacheKey.reducer ((key, value) :: params) acc key = acc).
  { intros acc. unfold CacheKey.reducer, CacheKey.lookup. cbn [JsMap.get].
    rewrite String.eqb_refl. now destruct Hnullish as [->| ->]. }
  rewrite Hskip.
  assert (Hother : forall k, In k (JsMap.keys params) ->
             CacheKey.lookup k ((key, value) :: params)
             = CacheKey.lookup k params).
  { intros k Hin. unfold CacheKey.lookup. cbn [JsMap.get].
    destruct (String.eqb_spec k key) as [->|Hne]; [|reflexivity].
    apply jsmap_get_None_not_in in Hfresh. contradiction. }
  assert (Hin : forall k, In k (before ++ after) -> In k (JsMap.keys params)).
  { intros k Hk. rewrite <- Hkeys in Hk.
    now apply (Permutation_in _ (sort_permutation _)) in Hk. }
  rewrite (fold_reducer_ext ((key, value) :: params) params before)
    by (intros k Hk; apply Hother, Hin, in_or_app; now left).
  apply fold_reducer_ext.
  intros k Hk. apply Hother, Hin, in_or_app. now right.
Qed.

End CacheKeyProperties.

(* ===================================================================== *)
(** ** The properties on the objects of the test suites                   *)
(* ===================================================================== *)

Local Open Scope string_scope.

Lemma sample_three_wf : JsMap.wf (Cache.cache Sample.three).
Proof.
  unfold JsMap.wf. simpl.
  repeat constructor; simpl; intuition discriminate.
Qed.

Lemma sample_two_wf : JsMap.wf (Cache.cache Sample.two).
Proof.
  unfold JsMap.wf. simpl.
  repeat constructor; simpl; intuition discriminate.
Qed.

(** 'should evict oldest entries when at capacity' of the cache tests. *)
Example cache_test_evicts_oldest :
  exists c,
    Cache.run [Cache.OpSet 0 "key1" "value1" None;
               Cache.OpSet 0 "key2" "value2" None;
               Cache.OpSet 0 "key3" "value3" None;
               Cache.OpSet 0 "key4" "value4" None] Sample.fresh = Some c
    /\ fst (Cache.get 1 "key1" c) = None
    /\ fst (Cache.get 1 "key2" c) = Some "value2"%string
    /\ fst (Cache.get 1 "key3" c) = Some "value3"%string
    /\ fst (Cache.get 1 "key4" c) = Some "value4"%string.
Proof. eexists. repeat split. Qed.

(** 'should update LRU order on access' of the cache tests. *)
Example cache_test_access_refreshes :
  exists c,
    Cache.run [Cache.OpSet 0 "key1" "value1" None;
               Cache.OpSet 0 "key2" "value2" None;
               Cache.OpSet 0 "key3" "value3" None;
               Cache.OpGet 1 "key1";
               Cache.OpSet 2 "key4" "value4" None] Sample.fresh = Some c
    /\ fst (Cache.get 3 "key1" c) = Some "value1"%string
    /\ fst (Cache.get 3 "key2" c) = None
    /\ fst (Cache.get 3 "key3" c) = Some "value3"%string
    /\ fst (Cache.get 3 "key4" c) = Some "value4"%string.
Proof. eexists. repeat split. Qed.

(** The entry of 50 ms read after 60 ms: [get] and [has] report it
    absent. *)
Example cache_test_ttl :
  exists c,
    Cache.set 0 "key1" "value1" (Some 50) Sample.fresh = Some c
    /\ fst (Cache.get 0 "key1" c) = Some "value1"%string
    /\ fst (Cache.get 60 "key1" c) = None
    /\ fst (Cache.has 60 "key1" c) = false.
Proof. eexists. repeat split. Qed.

(** Overwriting key2 in a full cache of capacity 2 drops key1. *)
Lemma cache_set_overwrite_at_capacity_evicts_witness :
  exists c',
    Cache.set 5 "key2" "other" None Sample.two = Some c'
    /\ JsMap.get "key2" (Cache.cache c') = Some (Sample.entry "other" 1005)
    /\ Cache.size c' = 1
    /\ JsMap.get "key1" (Cache.cache Sample.two)
       = Some (Sample.entry "value1" 1000)
    /\ JsMap.get "key1" (Cache.cache c') = None
    /\ JsMap.keys (Cache.cache c') = ["key2"%string].
Proof.
  exact (cache_set_overwrite_at_capacity_evicts
           5 "key2" "other" None Sample.two
           "key1" (Sample.entry "value1" 1000)
           [("key2"%string, Sample.entry "value2" 1000)]
           (Sample.entry "value2" 1000)
           eq_refl sample_two_wf eq_refl
           ltac:(discriminate) eq_refl).
Defined.

(** The cache of the tests stays within its capacity of 3. *)
Lemma cache_size_within_capacity_witness :
  1 <= Cache.default 1000 (Cache.opt_maxSize Sample.options)
  /\ exists c,
       Cache.run [Cache.OpSet 0 "key1" "value1" None;
                  Cache.OpSet 0 "key2" "value2" None;
                  Cache.OpSet 0 "key3" "value3" None;
                  Cache.OpSet 0 "key4" "value4" None;
                  Cache.OpPrune 2000] Sample.fresh = Some c
       /\ Cache.maxSize c = 3
       /\ Cache.size c <= Cache.maxSize c.
Proof.
  assert (H : 1 <= Cache.default 1000 (Cache.opt_maxSize Sample.options))
    by (simpl; lia).
  split; [exact H|].
  exact (proj1 (proj2 (cache_size_within_capacity (T := string)
                         Sample.options H)) _).
Defined.

(** Inserting key4 in the full cache of the tests drops key1 alone. *)
Lemma cache_lru_eviction_witness :
  Cache.set 5 "key4" "value4" None Sample.three
  = Some (Cache.with_cache Sample.three
            [("key2"%string, Sample.entry "value2" 1000);
             ("key3"%string, Sample.entry "value3" 1000);
             ("key4"%string, Sample.entry "value4" 1005)])
  /\ Cache.get 1 "key1" Sample.three
     = (Some "value1"%string,
        Cache.with_cache Sample.three
          [("key2"%string, Sample.entry "value2" 1000);
           ("key3"%string, Sample.entry "value3" 1000);
           ("key1"%string, Sample.entry "value1" 1000)]).
Proof.
  destruct (cache_lru_eviction Sample.three
              "key1" (Sample.entry "value1" 1000)
              [("key2"%string, Sample.entry "value2" 1000);
               ("key3"%string, Sample.entry "value3" 1000)]
              eq_refl sample_three_wf eq_refl) as [Hinsert Hget].
  split.
  - exact (proj1 (Hinsert 5 "key4"%string "value4"%string None eq_refl)).
  - exact (proj1 (Hget 1 "key1"%string (Sample.entry "value1" 1000)
                    eq_refl ltac:(simpl; lia))).
Defined.

Lemma sample_ab_wf : JsMap.wf (Cache.cache Sample.ab).
Proof.
  unfold JsMap.wf. simpl.
  repeat constructor; simpl; intuition discriminate.
Qed.

Lemma sample_DC_distinct : NoDup ["D"; "C"].
Proof. repeat constructor; simpl; intuition discriminate. Qed.

(** 'set A, set B, set A, set C, set D' on the cache of capacity 3 of the
    tests: the last insertion drops A, written at time 2, and keeps B,
    written at time 1. No entry has expired at time 4. *)
Lemma cache_overwrite_keeps_place_witness :
  Cache.run [Cache.OpSet 0 "A" "1" None; Cache.OpSet 1 "B" "2" None]
    Sample.fresh
  = Some Sample.ab
  /\ exists c1 c2 c3,
       Cache.set 2 "A" "3" None Sample.ab = Some c1
       /\ Cache.run (Cache.setAll 3 [("C", "4")]) c1 = Some c2
       /\ Cache.size c2 = Cache.maxSize c2
       /\ Cache.set 4 "D" "5" None c2 = Some c3
       /\ Cache.cache c3
          = [("B", Sample.entry "2" 1001); ("C", Sample.entry "4" 1003);
             ("D", Sample.entry "5" 1004)]
       /\ JsMap.get "A" (Cache.cache c3) = None
       /\ JsMap.get "B" (Cache.cache c3) = Some (Sample.entry "2" 1001).
Proof.
  split; [reflexivity|].
  destruct (cache_overwrite_keeps_place Sample.ab
              "A" (Sample.entry "1" 1000) "B" (Sample.entry "2" 1001) []
              2 "3" None 3 [("C", "4")] 4 "D" "5" None
              eq_refl sample_ab_wf ltac:(discriminate) eq_refl
              sample_DC_distinct
              ltac:(intros k [<-|[<-|[]]]; reflexivity))
    as (c1 & c2 & c3 & H1 & _ & H2 & _ & Hfull & H3 & H4 & H5 & H6).
  exists c1, c2, c3.
  split; [exact H1|]. split; [exact H2|]. split; [exact Hfull|].
  split; [exact H3|]. split; [exact H4|]. split; [exact H5|exact H6].
Defined.

(** Deleting key1 after its expiry still answers [true]. *)
Lemma cache_delete_ignores_expiry_witness :
  Cache.delete "key1" Sample.three
  = (true,
     Cache.with_cache Sample.three
       [("key2"%string, Sample.entry "value2" 1000);
        ("key3"%string, Sample.entry "value3" 1000)])
  /\ fst (Cache.get 2000 "key1" Sample.three) = None
  /\ fst (Cache.has 2000 "key1" Sample.three) = false.
Proof.
  exact (cache_delete_ignores_expiry 2000 "key1" Sample.three
           (Sample.entry "value1" 1000) eq_refl ltac:(simpl; lia)).
Defined.

(** A cache made with [maxSize: 0]: no amount of fuel brings its [set] to
    an end. *)
Example cache_capacity_0_set_loops (fuel : nat) :
  Cache.set_fuel fuel 0 "key1" "value1" None Sample.none = None.
Proof.
  unfold Cache.set_fuel. cbn [Cache.maxSize Cache.cache Sample.none Cache.make
                              Cache.default Cache.opt_maxSize].
  now rewrite evictLoop_unbounded by lia.
Qed.

(** 'should deny requests over limit' and 'should refill tokens after
    interval' of the limiter tests. *)
Example limiter_test_tryAcquire :
  let '(r1, l1, _) := RateLimiter.tryAcquire 0 Sample.limiter in
  let '(r2, l2, _) := RateLimiter.tryAcquire 1 l1 in
  let '(r3, l3, _) := RateLimiter.tryAcquire 2 l2 in
  let '(r4, l4, _) := RateLimiter.tryAcquire 3 l3 in
  let '(r5, l5, _) := RateLimiter.tryAcquire 113 l4 in
  (r1, r2, r3, r4, r5) = (true, true, true, false, true)
  /\ RateLimiter.tokens l5 = 2
  /\ RateLimiter.lastRefill l5 = 100.
Proof. repeat split. Qed.

(** Capacity 1, queue bound 1: the first [acquire] takes the token, the
    second waits, the third fails on the full queue; the refill after one
    interval resolves the second. *)
Example limiter_test_queue :
  let l0 : RateLimiter.t nat :=
    RateLimiter.make 0
      {| RateLimiter.opt_maxRequests := Some 1;
         RateLimiter.opt_interval := Some 100;
         RateLimiter.opt_queue := Some true;
         RateLimiter.opt_maxQueueSize := Some 1 |} in
  let '(r1, l1, _) := RateLimiter.acquire 0 1%nat l0 in
  let '(r2, l2, _) := RateLimiter.acquire 1 2%nat l1 in
  let '(r3, l3, _) := RateLimiter.acquire 2 3%nat l2 in
  let '(l4, settled) := RateLimiter.refill 100 l3 in
  (r1, r2, r3)
  = (RateLimiter.Acquired, RateLimiter.Queued,
     RateLimiter.Failed "Rate limit queue is full")
  /\ RateLimiter.queue l3 = [2%nat]
  /\ settled = [RateLimiter.Resolve 2%nat]
  /\ RateLimiter.queue l4 = []
  /\ RateLimiter.refillTimer l4 = false.
Proof. repeat split. Qed.

(** The refill of the waiting limiter after two intervals and a half, and
    before the first interval is over. *)
Lemma limiter_refill_step_witness :
  0 < RateLimiter.interval Sample.waiting
  /\ RateLimiter.refill 250 Sample.waiting
     = ({| RateLimiter.maxRequests := 1; RateLimiter.interval := 100;
           RateLimiter.shouldQueue := true; RateLimiter.maxQueueSize := 2;
           RateLimiter.tokens := 0; RateLimiter.lastRefill := 200;
           RateLimiter.queue := [8%nat];
           RateLimiter.refillTimer := true |},
        [RateLimiter.Resolve 7%nat])
  /\ RateLimiter.refill 50 Sample.waiting = (Sample.waiting, []).
Proof.
  assert (H : 0 < RateLimiter.interval Sample.waiting) by (simpl; lia).
  split; [exact H|]. split.
  - exact (proj1 (proj1 (limiter_refill_step 250 Sample.waiting H)
                    ltac:(simpl; lia))).
  - exact (proj2 (limiter_refill_step 50 Sample.waiting H)
             ltac:(simpl; lia)).
Defined.

(** [reset] at time 300 on the waiting limiter rejects 7, then 8. *)
Example limiter_reset_waiting :
  RateLimiter.reset 300 Sample.waiting
  = ({| RateLimiter.maxRequests := 1; RateLimiter.interval := 100;
        RateLimiter.shouldQueue := true; RateLimiter.maxQueueSize := 2;
        RateLimiter.tokens := 1; RateLimiter.lastRefill := 300;
        RateLimiter.queue := []; RateLimiter.refillTimer := false |},
     [RateLimiter.Reject 7%nat "Rate limiter was reset";
      RateLimiter.Reject 8%nat "Rate limiter was reset"]).
Proof. reflexivity. Qed.

(** 'should cache results when enabled' of the coordinator tests, with
    the default limiter on: the second call for the same key, 5 s into a
    TTL of 10 s, is served from the cache. *)
Lemma coordinator_caches_nonempty_result_witness :
  exists g1 settled1 g2,
    Geocoder.requestWithCacheAndRateLimit Sample.found Sample.at0 1%nat
      "address=test" "test address" Sample.limited {| Geocoder.calls := 0 |}
    = Some (Geocoder.Returned ["address=test"], g1,
            {| Geocoder.calls := 1 |}, settled1)
    /\ Geocoder.requestWithCacheAndRateLimit Sample.found Sample.at5000 2%nat
         "address=test" "test address" g1 {| Geocoder.calls := 1 |}
       = Some (Geocoder.Returned ["address=test"], g2,
               {| Geocoder.calls := 1 |}, [])
    /\ Geocoder.rateLimiter g2 = Geocoder.rateLimiter g1.
Proof.
  destruct (coordinator_caches_nonempty_result (F := string) Sample.found
              Sample.at0 Sample.at5000 1%nat 2%nat
              "address=test" "address=test" "test address"
              Sample.limited {| Geocoder.calls := 0 |}
              (Cache.make {| Cache.opt_ttl := Some 10000;
                             Cache.opt_maxSize := None |})
              ["address=test"]
              eq_refl ltac:(simpl; lia) eq_refl eq_refl eq_refl
              ltac:(discriminate) ltac:(simpl; lia))
    as (g1 & settled1 & g2 & H1 & H2 & H3 & _).
  exists g1, settled1, g2. exact (conj H1 (conj H2 H3)).
Defined.

(** C1 as stated fails on an upstream that finds nothing. The coordinator
    of the caching test, with a TTL of 10 s: the first call for a key
    returns the empty result and stores nothing; the second call for the
    same key, 5 s later, asks the upstream again. Two calls of the
    upstream, where the claim has one. *)
Lemma coordinator_empty_result_asked_twice :
  Geocoder.t_get Sample.at5000 <= Geocoder.t_set Sample.at0 + 10000
  /\ exists g1 g2,
       Geocoder.requestWithCacheAndRateLimit (F := string) Sample.zeroResults
         Sample.at0 1%nat "address=nowhere" "nowhere" Sample.geocoder
         {| Geocoder.calls := 0 |}
       = Some (Geocoder.Returned [], g1, {| Geocoder.calls := 1 |}, [])
       /\ Geocoder.requestWithCacheAndRateLimit (F := string)
            Sample.zeroResults Sample.at5000 2%nat "address=nowhere"
            "nowhere" g1 {| Geocoder.calls := 1 |}
          = Some (Geocoder.Returned [], g2, {| Geocoder.calls := 2 |}, []).
Proof.
  split; [simpl; lia|]. eexists _, _. split; reflexivity.
Qed.

(** A call of [acquire] that does not fail at once and fails all the
    same. On the limiter out of tokens that queues and has room behind
    request 7, the call with handle 9 is queued: no token is left, but
    queuing is on and the queue is not full. A [reset] at 50 ms then
    rejects it, after request 7, with the error of the reset. *)
Lemma limiter_queued_acquire_rejected_later :
  fst (fst (RateLimiter.acquire 0 9%nat Sample.roomy)) = RateLimiter.Queued
  /\ RateLimiter.tokens (fst (RateLimiter.refill 0 Sample.roomy)) = 0
  /\ RateLimiter.shouldQueue (fst (RateLimiter.refill 0 Sample.roomy)) = true
  /\ Z.of_nat
       (List.length
          (RateLimiter.queue (fst (RateLimiter.refill 0 Sample.roomy))))
     < RateLimiter.maxQueueSize (fst (RateLimiter.refill 0 Sample.roomy))
  /\ snd (RateLimiter.reset 50
            (snd (fst (RateLimiter.acquire 0 9%nat Sample.roomy))))
     = [RateLimiter.Reject 7%nat "Rate limiter was reset";
        RateLimiter.Reject 9%nat "Rate limiter was reset"].
Proof. repeat split. Qed.

(* ===================================================================== *)
(** ** The further properties on the objects of the test suites           *)
(* ===================================================================== *)

Lemma sample_mixed_wf : JsMap.wf (Cache.cache Sample.mixed).
Proof.
  unfold JsMap.wf. simpl.
  repeat constructor; simpl; intuition discriminate.
Qed.

(** 'should remove expired entries' of the cache tests: at 60 ms [prune]
    removes key1 and returns 1. *)
Lemma cache_prune_sweeps_expired_witness :
  Cache.prune 60 Sample.mixed
  = (1, Cache.with_cache Sample.mixed
          [("key2", Sample.entry "value2" 200)]).
Proof.
  exact (proj1 (cache_prune_sweeps_expired 60 Sample.mixed sample_mixed_wf)).
Defined.

Lemma cache_set_get_round_trip_witness :
  exists c',
    Cache.set 0 "key1" "value1" (Some 50) Sample.fresh = Some c'
    /\ fst (Cache.get 50 "key1" c') = Some "value1"
    /\ fst (Cache.get 60 "key1" c') = None.
Proof.
  destruct (cache_set_get_round_trip 0 "key1" "value1" (Some 50) Sample.fresh
              ltac:(simpl; lia)) as (c' & Hset & Hlive & Hgone).
  exists c'. split; [exact Hset|]. split.
  - apply Hlive. simpl. lia.
  - apply Hgone. simpl. lia.
Defined.

Lemma cache_delete_removes_witness :
  fst (Cache.delete "key2" Sample.three) = true
  /\ Cache.size (snd (Cache.delete "key2" Sample.three)) = 2.
Proof.
  destruct (cache_delete_removes "key2" Sample.three sample_three_wf)
    as (Hstored & _ & _ & Hsize & _).
  split; [reflexivity|exact Hsize].
Defined.

Lemma cache_get_miss_leaves_no_entry_witness :
  JsMap.get "key1" (Cache.cache (snd (Cache.get 2000 "key1" Sample.three)))
  = None
  /\ Cache.size (snd (Cache.get 2000 "key1" Sample.three)) = 2.
Proof.
  destruct (cache_get_miss_leaves_no_entry 2000 "key1" Sample.three
              sample_three_wf eq_refl) as (Habsent & _ & _ & Hsize).
  split; [exact Habsent|exact Hsize].
Defined.

Lemma cache_get_hit_keeps_content_witness :
  JsMap.get "key2" (Cache.cache (snd (Cache.get 1 "key1" Sample.three)))
  = Some (Sample.entry "value2" 1000)
  /\ Cache.size (snd (Cache.get 1 "key1" Sample.three)) = 3.
Proof.
  destruct (cache_get_hit_keeps_content 1 "key1" Sample.three "value1"
              sample_three_wf eq_refl) as (Hsame & Hsize & _).
  split; [exact (Hsame "key2")|exact Hsize].
Defined.

Lemma cache_set_with_room_keeps_all_witness :
  Cache.set 0 "key3" "value3" None Sample.mixed
  = Some (Cache.with_cache Sample.mixed
            [("key1", Sample.entry "value1" 50);
             ("key2", Sample.entry "value2" 200);
             ("key3", Sample.entry "value3" 50)]).
Proof.
  exact (proj1 (cache_set_with_room_keeps_all 0 "key3" "value3" None
                  Sample.mixed ltac:(reflexivity))).
Defined.

(** Four insertions in the cache of capacity 3 of the tests. *)
Lemma cache_holds_last_insertions_witness :
  exists c',
    Cache.run (Cache.setAll 0 [("key1", "value1"); ("key2", "value2");
                               ("key3", "value3"); ("key4", "value4")])
      Sample.fresh = Some c'
    /\ JsMap.keys (Cache.cache c') = ["key2"; "key3"; "key4"].
Proof.
  destruct (cache_holds_last_insertions 0
              [("key1", "value1"); ("key2", "value2");
               ("key3", "value3"); ("key4", "value4")] Sample.fresh
              ltac:(simpl; lia) ltac:(vm_compute; discriminate)
              ltac:(constructor)
              ltac:(simpl; repeat constructor; simpl; intuition discriminate)
              ltac:(intros k _; reflexivity))
    as (c' & Hrun & Hkeys & _).
  exists c'. split; [exact Hrun|exact Hkeys].
Defined.

Lemma limiter_stays_within_bounds_witness :
  0 <= RateLimiter.tokens
         (fst (RateLimiter.run Sample.threeCallers
                 (RateLimiter.make 0 Sample.queueOptions))) <= 1.
Proof.
  exact (proj1 (limiter_stays_within_bounds 0 Sample.queueOptions
                  Sample.threeCallers ltac:(simpl; lia) ltac:(simpl; lia))).
Defined.

Lemma limiter_no_idle_token_while_waiting_witness :
  RateLimiter.tokens
    (fst (RateLimiter.run Sample.threeCallers
            (RateLimiter.make 0 Sample.queueOptions))) = 0
  \/ RateLimiter.queue
       (fst (RateLimiter.run Sample.threeCallers
               (RateLimiter.make 0 Sample.queueOptions))) = [].
Proof.
  exact (limiter_no_idle_token_while_waiting 0 Sample.queueOptions
           Sample.threeCallers ltac:(simpl; lia) ltac:(simpl; lia)).
Defined.

Lemma limiter_timer_iff_waiting_witness :
  RateLimiter.refillTimer
    (fst (RateLimiter.run Sample.threeCallers
            (RateLimiter.make 0 Sample.queueOptions))) = true
  <-> RateLimiter.queue
        (fst (RateLimiter.run Sample.threeCallers
                (RateLimiter.make 0 Sample.queueOptions))) <> [].
Proof.
  exact (limiter_timer_iff_waiting 0 Sample.queueOptions
           Sample.threeCallers ltac:(simpl; lia) ltac:(simpl; lia)).
Defined.

(** 'should deny requests over limit' of the limiter tests. *)
Lemma limiter_tryAcquire_burst_witness :
  fst (RateLimiter.tryAcquires [0; 1; 2; 3] Sample.limiter)
  = [true; true; true; false]
  /\ RateLimiter.tokens
       (snd (RateLimiter.tryAcquires [0; 1; 2; 3] Sample.limiter)) = 0.
Proof.
  pose proof (limiter_tryAcquire_burst [0; 1; 2; 3] Sample.limiter
                ltac:(repeat constructor)) as H.
  split; [exact (f_equal fst H)|].
  exact (f_equal (fun r => RateLimiter.tokens (snd r)) H).
Defined.

Lemma sample_waiting_steady : RateLimiter.steady Sample.waiting.
Proof.
  unfold RateLimiter.steady. simpl.
  split; [lia|]. split; [lia|]. split; [lia|].
  split; [right; lia|discriminate].
Qed.

Lemma limiter_refill_serves_head_witness :
  exists settled,
    snd (RateLimiter.refill 250 Sample.waiting)
    = RateLimiter.Resolve 7%nat :: settled.
Proof.
  destruct (limiter_refill_serves_head 250 Sample.waiting 7%nat [8%nat]
              sample_waiting_steady eq_refl ltac:(simpl; lia))
    as (settled & H & _).
  exists settled. exact H.
Defined.

Lemma coordinator_rate_limited_skips_upstream_witness :
  Geocoder.requestWithCacheAndRateLimit Sample.found Sample.at0 1%nat
    "address=test" "test address" Sample.refusing {| Geocoder.calls := 0 |}
  = Some (Geocoder.Threw (Geocoder.RateLimitError "Rate limit exceeded"),
          Sample.refusing, {| Geocoder.calls := 0 |}, []).
Proof.
  exact (coordinator_rate_limited_skips_upstream (F := string) Sample.found
           Sample.at0 1%nat "address=test" "test address" Sample.refusing
           {| Geocoder.calls := 0 |} Sample.drained "Rate limit exceeded"
           eq_refl eq_refl eq_refl).
Defined.

Lemma coordinator_stores_only_nonempty_witness :
  exists g' settled,
    Geocoder.requestWithCacheAndRateLimit (F := string) Sample.zeroResults
      Sample.at0 1%nat "address=nowhere" "nowhere" Sample.geocoder
      {| Geocoder.calls := 0 |}
    = Some (Geocoder.Returned [], g', {| Geocoder.calls := 1 |}, settled)
    /\ Geocoder.cache g' = Geocoder.cache Sample.geocoder.
Proof.
  destruct (coordinator_stores_only_nonempty (F := string)
              Sample.zeroResults Sample.at0 1%nat "address=nowhere" "nowhere"
              Sample.geocoder {| Geocoder.calls := 0 |}
              ltac:(vm_compute; discriminate) eq_refl eq_refl (or_introl eq_refl))
    as (g' & settled & Hcall & Hcache & _).
  exists g', settled. split; [exact Hcall|exact Hcache].
Defined.


Lemma coordinator_without_cache_witness :
  exists g1 g2,
    Geocoder.requestWithCacheAndRateLimit (F := string) Sample.found
      Sample.at0 1%nat "address=test" "test address" Sample.bare
      {| Geocoder.calls := 0 |}
    = Some (Geocoder.Returned ["address=test"], g1,
            {| Geocoder.calls := 1 |}, [])
    /\ Geocoder.requestWithCacheAndRateLimit (F := string) Sample.found
         Sample.at0 2%nat "address=test" "test address" g1
         {| Geocoder.calls := 1 |}
       = Some (Geocoder.Returned ["address=test"], g2,
               {| Geocoder.calls := 2 |}, []).
Proof.
  destruct (coordinator_without_cache (F := string) Sample.found
              Sample.at0 Sample.at0 1%nat 2%nat "address=test" "address=test"
              "test address" Sample.bare {| Geocoder.calls := 0 |}
              eq_refl eq_refl) as (g1 & g2 & H1 & H2 & _).
  exists g1, g2. split; [exact H1|exact H2].
Defined.

Lemma coordinator_parked_call_released_witness :
  exists g' settled l',
    Geocoder.requestWithCacheAndRateLimit (F := string) Sample.found
      Sample.at0 9%nat "address=test" "test address" Sample.parking
      {| Geocoder.calls := 0 |}
    = Some (Geocoder.Suspended, g', {| Geocoder.calls := 0 |}, settled)
    /\ Geocoder.rateLimiter g' = Some l'
    /\ In 9%nat (RateLimiter.queue l')
    /\ In (RateLimiter.Reject 9%nat "Rate limiter was reset")
         (snd (Geocoder.dispose 5 g'))
    /\ (In 9%nat
          (map RateLimiter.settledRequest
             (snd (RateLimiter.run
                     [RateLimiter.OpTimer 100; RateLimiter.OpTimer 200] l')))
        \/ In (RateLimiter.Reject 9%nat "Rate limiter was reset")
             (snd (Geocoder.dispose 250
                     (Geocoder.with_rateLimiter g'
                        (fst (RateLimiter.run
                                [RateLimiter.OpTimer 100;
                                 RateLimiter.OpTimer 200] l')))))).
Proof.
  destruct (coordinator_parked_call_released (F := string) Sample.found
              Sample.at0 9%nat "address=test" "test address" Sample.parking
              {| Geocoder.calls := 0 |} Sample.roomy
              eq_refl eq_refl eq_refl)
    as (g' & settled & l' & Hcall & Hl' & Hin & Hdispose & Hlater).
  exists g', settled, l'.
  split; [exact Hcall|]. split; [exact Hl'|]. split; [exact Hin|].
  split; [exact (Hdispose 5 g' l' Hl' Hin)|].
  exact (Hlater [RateLimiter.OpTimer 100; RateLimiter.OpTimer 200] 250
           (Geocoder.with_rateLimiter g'
              (fst (RateLimiter.run
                      [RateLimiter.OpTimer 100; RateLimiter.OpTimer 200] l')))
           eq_refl).
Defined.

(** 'should consume tokens on requests' of the coordinator tests, on the
    default limiter of 50 tokens. *)
Lemma coordinator_miss_takes_one_token_witness :
  exists g' l',
    Geocoder.requestWithCacheAndRateLimit (F := string) Sample.found
      Sample.at0 1%nat "address=test" "test address" Sample.limited
      {| Geocoder.calls := 0 |}
    = Some (Geocoder.Returned ["address=test"], g',
            {| Geocoder.calls := 1 |}, [])
    /\ Geocoder.rateLimiter g' = Some l'
    /\ RateLimiter.tokens l' = 49.
Proof.
  destruct (coordinator_miss_takes_one_token (F := string) Sample.found
              Sample.at0 1%nat "address=test" "test address" Sample.limited
              {| Geocoder.calls := 0 |}
              (RateLimiter.make 0
                 {| RateLimiter.opt_maxRequests := None;
                    RateLimiter.opt_interval := None;
                    RateLimiter.opt_queue := None;
                    RateLimiter.opt_maxQueueSize := None |})
              ltac:(vm_compute; discriminate) eq_refl eq_refl eq_refl)
    as (g' & Hcall & _ & Hrl).
  eexists g', _. split; [exact Hcall|]. split; [exact Hrl|reflexivity].
Defined.

Lemma wire_handleResponse_error_witness :
  Wire.handleResponse (Sample.body "REQUEST_DENIED" None)
  = inl (Wire.GeocodingErrorOf "ApiKeyError"
           "Request denied - check your API key" "REQUEST_DENIED")
  /\ Wire.handleResponse
       (Sample.body "OVER_QUERY_LIMIT" (Some "quota")) 
     = inl (Wire.GeocodingErrorOf "ApiKeyError" "quota" "OVER_QUERY_LIMIT").
Proof.
  destruct (wire_handleResponse_error (Sample.body "REQUEST_DENIED" None)
              ltac:(discriminate) ltac:(discriminate))
    as (name & fallback & H1 & _).
  destruct (wire_handleResponse_error
              (Sample.body "OVER_QUERY_LIMIT" (Some "quota"))
              ltac:(discriminate) ltac:(discriminate))
    as (name' & fallback' & H2 & _).
  split; reflexivity.
Defined.

(** 'should throw NetworkError on fetch failure' of the coordinator
    tests: the rejection of [fetch] is what the [try] block threw, and
    it is the cause of the error of [request]. *)
Lemma wire_request_throws_witness :
  Wire.request (L := unit)
    (Wire.FetchThrows (Wire.ErrorOf "Error" "Network failure"))
  = inl (Wire.NetworkErrorOf "Request failed: Network failure"
           (Some (Wire.ErrorOf "Error" "Network failure")))
  /\ exists thrown,
       Wire.tryBlock (L := unit)
         (Wire.FetchThrows (Wire.ErrorOf "Error" "Network failure"))
       = inl thrown
       /\ thrown = Wire.ErrorOf "Error" "Network failure".
Proof.
  split; [reflexivity|].
  destruct (wire_request_throws (L := unit)
              (Wire.FetchThrows (Wire.ErrorOf "Error" "Network failure"))
              _ eq_refl)
    as (thrown & Htry & _ & _ & _ & _ & Hfetch & _).
  exists thrown. split; [exact Htry|exact (Hfetch _ eq_refl)].
Defined.

(** 'should throw NetworkError on HTTP error' of the coordinator tests:
    the message that the caller sees. *)
Lemma wire_http_error_wrapped_witness :
  Wire.request (Wire.FetchResolves Sample.notFound)
  = inl (Wire.NetworkErrorOf "Request failed: HTTP 404: Not Found"
           (Some (Wire.NetworkErrorOf "HTTP 404: Not Found" None))).
Proof.
  exact (wire_http_error_wrapped Sample.notFound eq_refl).
Defined.

Lemma coordinator_stores_only_ok_answers_witness :
  exists g' settled,
    Geocoder.requestWithCacheAndRateLimit
      (fun n p => Wire.request
                    (Wire.FetchResolves (Sample.answering "ZERO_RESULTS")))
      Sample.at0 1%nat "address=nowhere" "nowhere" Sample.wired
      {| Geocoder.calls := 0 |}
    = Some (Geocoder.Returned [], g', {| Geocoder.calls := 1 |}, settled)
    /\ Geocoder.cache g' = Geocoder.cache Sample.wired.
Proof.
  destruct (coordinator_stores_only_ok_answers
              (fun (n : nat) (p : string) =>
                 Wire.FetchResolves (Sample.answering "ZERO_RESULTS"))
              Sample.at0 1%nat "address=nowhere" "nowhere" Sample.wired
              {| Geocoder.calls := 0 |}
              (Sample.answering "ZERO_RESULTS")
              (Sample.body "ZERO_RESULTS" None)
              ltac:(vm_compute; discriminate) eq_refl eq_refl eq_refl eq_refl eq_refl
              ltac:(discriminate))
    as (g' & settled & Hcall & Hcache & _).
  exists g', settled. split; [exact Hcall|exact Hcache].
Defined.

(** 'should create consistent keys for same params' and 'should exclude
    null and undefined values' of the tests of [createCacheKey]. *)
Lemma createCacheKey_order_free_witness :
  CacheKey.createCacheKey Sample.listKeys Sample.paramsAB
  = CacheKey.createCacheKey Sample.listKeys Sample.paramsBA.
Proof.
  apply createCacheKey_order_free.
  - unfold JsMap.wf. simpl.
    repeat constructor; simpl; intuition discriminate.
  - apply perm_swap.
Defined.

Lemma createCacheKey_skips_nullish_witness :
  CacheKey.createCacheKey Sample.listKeys
    (("c", CacheKey.Null) :: Sample.paramsAB)
  = CacheKey.createCacheKey Sample.listKeys Sample.paramsAB.
Proof.
  exact (createCacheKey_skips_nullish Sample.listKeys Sample.paramsAB
           "c" CacheKey.Null eq_refl (or_intror eq_refl)).
Defined.

(** The keys are listed in the order of the sort. *)
Example createCacheKey_sorts :
  CacheKey.createCacheKey Sample.listKeys
    [("region", CacheKey.Value 3); ("address", CacheKey.Value 1);
     ("language", CacheKey.Undefined); ("bounds", CacheKey.Value 2)]
  = "address,bounds,region".
Proof. reflexivity. Qed.
